(** * A shallow embedding of the PDF page editor

    The development follows [src/services/pdfService.ts] (thumbnail
    generation, page removal and extraction, merging, the save helpers) and
    the [App] component (selection model, save coordinator, reset).

    JavaScript values are modelled as follows.
    - [number] page indices are natural numbers; the comparator results
      [a - b] are integers; the progress percentage is computed on IEEE 754
      doubles.
    - [Uint8Array] / [ArrayBuffer] contents are lists of bytes.
    - A [number[]] is a mutable object: arrays live in a store indexed by
      references, [[...a]] allocates a fresh array and [sort] works in place.
    - [Set<number>] is a finite set of naturals.
    - A promise that may reject and a call that may throw return an
      [Outcome]; every call into pdf-lib, pdf.js or the browser is recorded
      in the event log of the world.  *)

From Stdlib Require Import ZArith Strings.Byte Strings.Ascii Floats.SpecFloat.
From stdpp Require Import base tactics option list sorting gmap strings.

(** ** Basic data *)

Definition bytes := list byte.

(** The part of a DOM [File] the program reads: [name], [type] and the
    result of [arrayBuffer()]. *)
Record File := mkFile {
  file_name : string;
  file_type : string;
  file_content : bytes
}.

(** A thrown JavaScript value; the program only ever inspects [name]. *)
Record JsError := mkError {
  err_name : string;
  err_message : string
}.

Inductive Outcome (A : Type) : Type :=
  | Returned (a : A)
  | Thrown (e : JsError).
Arguments Returned {A} a.
Arguments Thrown {A} e.

(** [interface PageThumbnail].  [width] and [height] are opaque to every
    function of the program; they are carried as integers. *)
Record PageThumbnail := mkThumb {
  index : nat;
  url : string;
  width : Z;
  height : Z
}.

(** ** External interfaces *)

(** A pdf-lib document in memory: its page tree, the pages in order, and the
    rest of what it holds (catalog, metadata, every object that no entry of
    the page tree refers to), which only the library reads and writes. *)
Record Document (P R : Type) := mkDoc {
  doc_pages : list P;
  doc_rest : R
}.
Arguments mkDoc {P R} _ _.
Arguments doc_pages {P R} _.
Arguments doc_rest {P R} _.

(** pdf-lib.  A [Page] stands for the content of a page, what the page shows
    when it is rendered: a page copied into another document and a page read
    back from a saved file are the same [Page] as their original.
    [PDFDocument.load] parses a buffer or throws.  What a call does to the
    page tree is written out in the model below; what it does to the rest of
    the document is the library's business ([rest_create] for
    [PDFDocument.create()], [rest_removePage], [rest_copyPages] for the target
    of [copyPages], [rest_addPage]).  [save] serialises the whole document,
    so that the bytes depend on the rest as well as on the pages, and a saved
    document with at least one page loads again with the same pages.
    [blank_page] is the page that [addPage()] creates. *)
Class PdfLib := {
  Page : Type;
  Rest : Type;
  blank_page : Page;
  pdf_load : bytes → option (Document Page Rest);
  rest_create : Rest;
  rest_removePage : Document Page Rest → nat → Rest;
  rest_copyPages : Document Page Rest → Document Page Rest → list nat → Rest;
  rest_addPage : Document Page Rest → Page → Rest;
  pdf_save : Document Page Rest → bytes;
  pdf_load_save : ∀ doc : Document Page Rest,
    doc_pages doc ≠ [] →
    ∃ rest, pdf_load (pdf_save doc) = Some (mkDoc (doc_pages doc) rest)
}.

(** pdf.js: what [page.getViewport({scale: 0.5})] and
    [page.render(...).promise] followed by [canvas.toDataURL] give for one
    page. *)
Record PageProxy := mkPageProxy {
  viewport_width : Z;
  viewport_height : Z;
  render_result : Outcome string
}.

(** pdf.js: [getDocument({data}).promise] resolves to a document proxy, here
    its pages ([numPages] is their number), or rejects. *)
Class PdfJs := {
  pdfjs_open : bytes → Outcome (list PageProxy)
}.

(** The File System Access objects. *)
Record Writable := mkWritable {
  write_result : Outcome ();
  close_result : Outcome ()
}.

Record FileHandle := mkHandle {
  createWritable_result : Outcome Writable
}.

(** The browser the page runs in: whether [window] has
    [showSaveFilePicker], what the picker's promise settles to, and whether
    the canvas created for page [i] yields a 2D context. *)
Record Browser := mkBrowser {
  has_showSaveFilePicker : bool;
  showSaveFilePicker_result : Outcome FileHandle;
  getContext_2d : nat → bool
}.

(** ** Application state (the [useState] cells of [App]) *)

Record AppState := mkApp {
  file : option File;
  thumbnails : list PageThumbnail;
  selectedIndices : gset nat;
  lastSelectedIndex : option nat;
  isProcessing : bool;
  loadingProgress : nat;
  showSaveModal : bool;
  outputFilename : string
}.

Definition initialApp : AppState :=
  mkApp None [] ∅ None false 0 false "".

(** ** Observable effects *)

Inductive Event :=
  | EvPdfLoad (data : bytes)
  | EvPdfCreate
  | EvRemovePage (idx : nat)
  | EvCopyPages (idxs : list nat)
  | EvAddPage
  | EvPdfSave
  | EvGetDocument (data : bytes)
  | EvRender (pageNumber : nat)
  | EvProgress (current total : nat)
  | EvShowSaveFilePicker (suggestedName : string)
  | EvCreateWritable
  | EvWrite (data : bytes)
  | EvClose
  | EvDownload (data : bytes) (filename : string)
  | EvAlert (msg : string)
  | EvConsoleWarn (msg : string)
  | EvConsoleError (msg : string).

(** ** The world and the effect monad *)

Record World := mkWorld {
  app : AppState;
  arrays : gmap nat (list nat);
  events : list Event
}.

Definition M (A : Type) : Type := World → World * Outcome A.

Definition ret {A} (a : A) : M A := λ w, (w, Returned a).

Definition bind {A B} (c : M A) (k : A → M B) : M B :=
  λ w, match c w with
       | (w', Returned a) => k a w'
       | (w', Thrown e) => (w', Thrown e)
       end.

Definition throw {A} (e : JsError) : M A := λ w, (w, Thrown e).

(** [try { c } catch (err) { h err }] *)
Definition try_catch {A} (c : M A) (h : JsError → M A) : M A :=
  λ w, match c w with
       | (w', Returned a) => (w', Returned a)
       | (w', Thrown e) => h e w'
       end.

(** [try { c } finally { f }], for a [finally] block that does not throw. *)
Definition try_finally {A} (c : M A) (f : M ()) : M A :=
  λ w, match c w with
       | (w', r) => (fst (f w'), r)
       end.

Notation "x ←, c ; k" := (bind c (λ x, k))
  (at level 100, c at next level, right associativity,
   format "'[v' x  ←,  c ; '/' k ']'").
Notation "c ;, k" := (bind c (λ _, k))
  (at level 100, right associativity,
   format "'[v' c  ;, '/' k ']'").

Definition emit (e : Event) : M () :=
  λ w, (mkWorld (app w) (arrays w) (events w ++ [e]), Returned ()).

Definition setState (f : AppState → AppState) : M () :=
  λ w, (mkWorld (f (app w)) (arrays w) (events w), Returned ()).

(** [for (const x of l) { s = body s x }] with the loop-carried state
    explicit. *)
Fixpoint for_of {A S} (l : list A) (s : S) (body : S → A → M S) : M S :=
  match l with
  | [] => ret s
  | x :: l' => s' ←, body s x; for_of l' s' body
  end.

(** ** Arrays of numbers *)

Definition TypeError : JsError := mkError "TypeError" "".

Definition array_read (a : nat) : M (list nat) :=
  λ w, match arrays w !! a with
       | Some l => (w, Returned l)
       | None => (w, Thrown TypeError)
       end.

Definition array_alloc (l : list nat) : M nat :=
  λ w, let a := fresh (dom (arrays w)) in
       (mkWorld (app w) (<[a := l]> (arrays w)) (events w), Returned a).

(** [[...a]] *)
Definition array_spread (a : nat) : M nat :=
  l ←, array_read a; array_alloc l.

(** The order a comparator induces: [x] may stay before [y] when
    [cmp x y <= 0]. *)
Definition cmp_le (cmp : nat → nat → Z) : relation nat :=
  λ x y, (cmp x y ≤ 0)%Z.

Global Instance cmp_le_dec cmp x y : Decision (cmp_le cmp x y).
Proof. unfold cmp_le. apply _. Defined.

(** [a.sort(cmp)]: sorts the array [a] in place, stably, and returns [a]. *)
Definition array_sort (cmp : nat → nat → Z) (a : nat) : M nat :=
  λ w, match arrays w !! a with
       | Some l =>
           (mkWorld (app w) (<[a := merge_sort (cmp_le cmp) l]> (arrays w))
                    (events w), Returned a)
       | None => (w, Thrown TypeError)
       end.

(** [Array.from(s)] for a set [s].  JavaScript lists a set in insertion
    order; the model lists it in an order of its own, and both callers sort
    the array before they use it. *)
Definition array_from_set (s : gset nat) : M nat :=
  array_alloc (elements s).

(** [(a, b) => b - a] and [(a, b) => a - b] *)
Definition descending (a b : nat) : Z := (Z.of_nat b - Z.of_nat a)%Z.
Definition ascending (a b : nat) : Z := (Z.of_nat a - Z.of_nat b)%Z.

(** ** pdf-lib documents *)

Section PdfLibModel.
Context `{PdfLib}.

Definition PDFDocument := Document Page Rest.

Definition ParseError : JsError := mkError "Error" "Failed to parse PDF document".
Definition RangeError : JsError := mkError "Error" "index out of range".

(** The document after [removePage(idx)], after [copyPages(src, idxs)] (the
    copies are embedded in the target, its page tree is as before) and after
    [addPage(p)]. *)
Definition removed (doc : PDFDocument) (idx : nat) : PDFDocument :=
  mkDoc (delete idx (doc_pages doc)) (rest_removePage doc idx).

Definition copied (dst src : PDFDocument) (idxs : list nat) : PDFDocument :=
  mkDoc (doc_pages dst) (rest_copyPages dst src idxs).

Definition added (doc : PDFDocument) (p : Page) : PDFDocument :=
  mkDoc (doc_pages doc ++ [p]) (rest_addPage doc p).

(** [save()] is called with its default options, among them
    [addDefaultPage: true]: a document without pages gets a blank page
    before it is serialised. *)
Definition withDefaultPage (doc : PDFDocument) : PDFDocument :=
  match doc_pages doc with
  | [] => added doc blank_page
  | _ :: _ => doc
  end.

Definition PDFDocument_load (data : bytes) : M PDFDocument :=
  emit (EvPdfLoad data);,
  match pdf_load data with
  | Some d => ret d
  | None => throw ParseError
  end.

Definition PDFDocument_create : M PDFDocument :=
  emit EvPdfCreate;, ret (mkDoc [] rest_create).

(** [doc.removePage(idx)] asserts [0 <= idx <= pageCount - 1]. *)
Definition removePage (doc : PDFDocument) (idx : nat) : M PDFDocument :=
  emit (EvRemovePage idx);,
  if decide (idx < length (doc_pages doc)) then ret (removed doc idx)
  else throw RangeError.

(** [dst.copyPages(src, idxs)]: the target with the copies embedded, and the
    copies.  The library does not check the indices: an index that addresses
    no page of [src] gives [undefined], and reading its [node] throws a
    [TypeError]. *)
Definition copyPages (dst src : PDFDocument) (idxs : list nat)
    : M (PDFDocument * list Page) :=
  emit (EvCopyPages idxs);,
  match mapM (λ i, doc_pages src !! i) idxs with
  | Some ps => ret (copied dst src idxs, ps)
  | None => throw TypeError
  end.

Definition addPage (doc : PDFDocument) (p : Page) : M PDFDocument :=
  emit EvAddPage;, ret (added doc p).

Definition PDFDocument_save (doc : PDFDocument) : M bytes :=
  emit EvPdfSave;, ret (pdf_save (withDefaultPage doc)).

Definition getPageIndices (doc : PDFDocument) : list nat :=
  seq 0 (length (doc_pages doc)).

(** *** The page mutator *)

Definition removePagesAndSave (originalFile : File)
    (pageIndicesToRemove : nat) : M bytes :=
  let arrayBuffer := file_content originalFile in
  pdfDoc ←, PDFDocument_load arrayBuffer;
  copy ←, array_spread pageIndicesToRemove;
  sortedIndices ←, array_sort descending copy;
  idxs ←, array_read sortedIndices;
  pdfDoc' ←, for_of idxs pdfDoc removePage;
  PDFDocument_save pdfDoc'.

Definition extractPagesAndSave (originalFile : File)
    (pageIndicesToExtract : nat) : M bytes :=
  let arrayBuffer := file_content originalFile in
  pdfDoc ←, PDFDocument_load arrayBuffer;
  newPdfDoc ←, PDFDocument_create;
  copy ←, array_spread pageIndicesToExtract;
  sortedIndices ←, array_sort ascending copy;
  idxs ←, array_read sortedIndices;
  newPdfDoc' ←, for_of idxs newPdfDoc (λ doc idx,
    r ←, copyPages doc pdfDoc [idx];
    match r.2 with
    | copiedPage :: _ => addPage r.1 copiedPage
    | [] => throw TypeError
    end);
  PDFDocument_save newPdfDoc'.

Definition mergePdfs (files : list File) : M bytes :=
  mergedPdf ←, PDFDocument_create;
  mergedPdf' ←, for_of files mergedPdf (λ merged f,
    let arrayBuffer := file_content f in
    pdf ←, PDFDocument_load arrayBuffer;
    r ←, copyPages merged pdf (getPageIndices pdf);
    for_of r.2 r.1 addPage);
  PDFDocument_save mergedPdf'.
End PdfLibModel.

(** ** Thumbnails (pdf.js) *)

Section PdfJsModel.
Context `{PdfJs}.

Definition InvalidPage : JsError := mkError "Error" "Invalid page request".

Definition getDocument (data : bytes) : M (list PageProxy) :=
  emit (EvGetDocument data);,
  match pdfjs_open data with
  | Returned pdf => ret pdf
  | Thrown e => throw e
  end.

(** [pdf.getPage(i)], pages being numbered from 1. *)
Definition getPage (pdf : list PageProxy) (i : nat) : M PageProxy :=
  match i with
  | 0 => throw InvalidPage
  | S j => match pdf !! j with
           | Some page => ret page
           | None => throw InvalidPage
           end
  end.

(** [await page.render({canvasContext, viewport}).promise] followed by
    [canvas.toDataURL('image/jpeg', 0.8)]. *)
Definition render (page : PageProxy) (i : nat) : M string :=
  emit (EvRender i);,
  match render_result page with
  | Returned dataUrl => ret dataUrl
  | Thrown e => throw e
  end.

Definition generateThumbnails (b : Browser) (f : File)
    (onProgress : nat → nat → M ()) : M (list PageThumbnail) :=
  let arrayBuffer := file_content f in
  pdf ←, getDocument arrayBuffer;
  let totalPages := length pdf in
  for_of (seq 1 totalPages) [] (λ thumbnails i,
    page ←, getPage pdf i;
    if getContext_2d b i then
      dataUrl ←, render page i;
      let thumbnails' :=
        thumbnails ++ [mkThumb (i - 1) dataUrl
                         (viewport_width page) (viewport_height page)] in
      onProgress i totalPages;,
      ret thumbnails'
    else ret thumbnails).

(** The number of pages pdf.js reports for a file, 0 when it cannot be
    opened. *)
Definition numPages (f : File) : nat :=
  match pdfjs_open (file_content f) with
  | Returned pdf => length pdf
  | Thrown _ => 0
  end.
End PdfJsModel.

(** ** Saving (File System Access API and blob download) *)

(** [s.endsWith(suffix)] *)
Definition endsWith (s suffix : string) : bool :=
  let n := String.length s in
  let k := String.length suffix in
  if decide (k ≤ n) then String.eqb (String.substring (n - k) k s) suffix else false.

Definition fullFilename (filename : string) : string :=
  if endsWith filename ".pdf" then filename else filename +:+ ".pdf".

Definition downloadBlob (data : bytes) (filename : string) : M () :=
  emit (EvDownload data (fullFilename filename)).

Definition supportsFileSystem (b : Browser) : bool :=
  has_showSaveFilePicker b.

Definition showSaveFilePicker (b : Browser) (suggestedName : string)
    : M FileHandle :=
  emit (EvShowSaveFilePicker suggestedName);,
  match showSaveFilePicker_result b with
  | Returned handle => ret handle
  | Thrown e => throw e
  end.

(** The result [None] is JavaScript's [null]. *)
Definition getSaveFileHandle (b : Browser) (filename : string)
    : M (option FileHandle) :=
  if negb (supportsFileSystem b) then ret None
  else
    try_catch
      (handle ←, showSaveFilePicker b (fullFilename filename);
       ret (Some handle))
      (λ err,
        if decide (err_name err = "AbortError") then throw err
        else emit (EvConsoleWarn "File System API error");, ret None).

Definition createWritable (handle : FileHandle) : M Writable :=
  emit EvCreateWritable;,
  match createWritable_result handle with
  | Returned writable => ret writable
  | Thrown e => throw e
  end.

Definition write (writable : Writable) (data : bytes) : M () :=
  emit (EvWrite data);,
  match write_result writable with
  | Returned _ => ret ()
  | Thrown e => throw e
  end.

Definition close (writable : Writable) : M () :=
  emit EvClose;,
  match close_result writable with
  | Returned _ => ret ()
  | Thrown e => throw e
  end.

Definition writePdfToHandle (handle : FileHandle) (data : bytes) : M () :=
  writable ←, createWritable handle;
  write writable data;,
  close writable.

(** ** The [App] component *)

(** The state setters returned by [useState]. *)
Definition setFile (v : option File) : M () :=
  setState (λ st, mkApp v (thumbnails st) (selectedIndices st)
    (lastSelectedIndex st) (isProcessing st) (loadingProgress st)
    (showSaveModal st) (outputFilename st)).
Definition setThumbnails (v : list PageThumbnail) : M () :=
  setState (λ st, mkApp (file st) v (selectedIndices st)
    (lastSelectedIndex st) (isProcessing st) (loadingProgress st)
    (showSaveModal st) (outputFilename st)).
Definition setSelectedIndices (upd : gset nat → gset nat) : M () :=
  setState (λ st, mkApp (file st) (thumbnails st) (upd (selectedIndices st))
    (lastSelectedIndex st) (isProcessing st) (loadingProgress st)
    (showSaveModal st) (outputFilename st)).
Definition setLastSelectedIndex (v : option nat) : M () :=
  setState (λ st, mkApp (file st) (thumbnails st) (selectedIndices st)
    v (isProcessing st) (loadingProgress st)
    (showSaveModal st) (outputFilename st)).
Definition setIsProcessing (v : bool) : M () :=
  setState (λ st, mkApp (file st) (thumbnails st) (selectedIndices st)
    (lastSelectedIndex st) v (loadingProgress st)
    (showSaveModal st) (outputFilename st)).
Definition setLoadingProgress (v : nat) : M () :=
  setState (λ st, mkApp (file st) (thumbnails st) (selectedIndices st)
    (lastSelectedIndex st) (isProcessing st) v
    (showSaveModal st) (outputFilename st)).
Definition setShowSaveModal (v : bool) : M () :=
  setState (λ st, mkApp (file st) (thumbnails st) (selectedIndices st)
    (lastSelectedIndex st) (isProcessing st) (loadingProgress st)
    v (outputFilename st)).
Definition setOutputFilename (v : string) : M () :=
  setState (λ st, mkApp (file st) (thumbnails st) (selectedIndices st)
    (lastSelectedIndex st) (isProcessing st) (loadingProgress st)
    (showSaveModal st) v).

(** ASCII lower-casing, for the [i] flag of [/\.pdf$/i]. *)
Definition lower_ascii (c : ascii) : ascii :=
  let n := nat_of_ascii c in
  if decide (65 ≤ n ∧ n ≤ 90) then ascii_of_nat (n + 32) else c.

Fixpoint lower (s : string) : string :=
  match s with
  | EmptyString => EmptyString
  | String c s' => String (lower_ascii c) (lower s')
  end.

(** [name.replace(/\.pdf$/i, '')] *)
Definition stripPdfExtension (name : string) : string :=
  if endsWith (lower name) ".pdf"
  then String.substring 0 (String.length name - 4) name
  else name.

(** JavaScript numbers are IEEE 754 doubles: 53 bits of precision,
    round to nearest even. *)
Definition double_of_nat (n : nat) : spec_float :=
  binary_normalize 53 1024 (Z.of_nat n) 0 false.

(** [Math.round(x)]: the nearest integer, a tie going up.  The program
    rounds numbers between 0 and 100 only; the model gives 0 where the
    source has [NaN] (a total of 0, which [generateThumbnails] never
    reports). *)
Definition Math_round (x : spec_float) : Z :=
  match x with
  | S754_finite false m e =>
      if (0 <=? e)%Z then (Z.pos m * 2 ^ e)%Z
      else ((2 * Z.pos m + 2 ^ (- e)) / 2 ^ (1 - e))%Z
  | _ => 0%Z
  end.

(** [Math.round((current / total) * 100)] *)
Definition percent (current total : nat) : nat :=
  Z.to_nat
    (Math_round
       (SFmul 53 1024
          (SFdiv 53 1024 (double_of_nat current) (double_of_nat total))
          (double_of_nat 100))).

Section AppModel.
Context `{PdfLib} `{PdfJs}.

(** *** Loading a document

    [handleFileSelect] up to its [await], and from the [await] on. *)
Definition handleFileSelect_begin (uploadedFile : File) : M () :=
  setFile (Some uploadedFile);,
  setIsProcessing true;,
  setLoadingProgress 0;,
  let baseName := stripPdfExtension (file_name uploadedFile) in
  setOutputFilename (baseName +:+ "_editado").

Definition handleFileSelect_load (b : Browser) (uploadedFile : File) : M () :=
  try_finally
    (try_catch
       (thumbs ←, generateThumbnails b uploadedFile (λ current total,
          setLoadingProgress (percent current total));
        setThumbnails thumbs)
       (λ error,
          emit (EvConsoleError "Error generating thumbnails");,
          emit (EvAlert "Erro ao ler o arquivo PDF. O arquivo pode estar corrompido ou protegido por senha.");,
          setFile None))
    (setIsProcessing false).

Definition handleFileSelect (b : Browser) (uploadedFile : File) : M () :=
  handleFileSelect_begin uploadedFile;,
  handleFileSelect_load b uploadedFile.

(** *** The selection model

    [lastSelectedIndex] is the value captured by the callback; the set is
    updated through the functional form of the setter. *)
Definition addRange (start end_ : nat) (prev : gset nat) : gset nat :=
  foldl (λ newSet i, {[i]} ∪ newSet) prev (seq start (S end_ - start)).

Definition toggleIndex (idx : nat) (prev : gset nat) : gset nat :=
  if decide (idx ∈ prev) then prev ∖ {[idx]} else {[idx]} ∪ prev.

Definition togglePageSelection (lastSelected : option nat)
    (idx : nat) (shiftKey : bool) : M () :=
  match shiftKey, lastSelected with
  | true, Some last =>
      let start := Nat.min last idx in
      let end_ := Nat.max last idx in
      setSelectedIndices (addRange start end_)
  | _, _ =>
      setSelectedIndices (toggleIndex idx);,
      setLastSelectedIndex (Some idx)
  end.

(** [onClick={() => setSelectedIndices(new Set())}] *)
Definition clearSelection : M () := setSelectedIndices (λ _, ∅).

Definition resetApp : M () :=
  setFile None;,
  setThumbnails [];,
  setSelectedIndices (λ _, ∅);,
  setLastSelectedIndex None;,
  setLoadingProgress 0;,
  setShowSaveModal false;,
  setOutputFilename "".

Definition openSaveModal (st : AppState) : M () :=
  match file st with
  | None => ret ()
  | Some _ =>
      if decide (size (selectedIndices st) = 0) then ret ()
      else setShowSaveModal true
  end.

(** *** The save coordinator

    [handleConfirmSave] reads [file], [outputFilename] and
    [selectedIndices] of the render [st] it was created in.  The first part
    runs up to [setIsProcessing(true)]; its result is [None] when the handler
    has returned and [Some fileHandle] when it goes on. *)
Definition handleConfirmSave_acquire (b : Browser) (st : AppState)
    : M (option (option FileHandle)) :=
  match file st with
  | None => ret None
  | Some _ =>
      setShowSaveModal false;,
      let canUseFileSystem := supportsFileSystem b in
      proceed ←,
        (if canUseFileSystem then
           try_catch
             (fileHandle ←, getSaveFileHandle b (outputFilename st);
              ret (Some fileHandle))
             (λ error,
                if decide (err_name error = "AbortError") then ret None
                else
                  emit (EvConsoleWarn "Failed to get file handle, falling back to download");,
                  ret (Some None))
         else ret (Some None));
      match proceed with
      | None => ret None
      | Some fileHandle => setIsProcessing true;, ret (Some fileHandle)
      end
  end.

Definition handleConfirmSave_process (st : AppState) (f : File)
    (fileHandle : option FileHandle) : M () :=
  try_finally
    (try_catch
       (indices ←, array_from_set (selectedIndices st);
        newPdfBytes ←, removePagesAndSave f indices;
        match fileHandle with
        | Some handle => writePdfToHandle handle newPdfBytes
        | None => downloadBlob newPdfBytes (outputFilename st)
        end)
       (λ error,
          emit (EvConsoleError "Error saving PDF");,
          emit (EvAlert "Erro ao salvar o novo PDF.")))
    (setIsProcessing false).

Definition handleConfirmSave (b : Browser) (st : AppState) : M () :=
  proceed ←, handleConfirmSave_acquire b st;
  match proceed, file st with
  | Some fileHandle, Some f => handleConfirmSave_process st f fileHandle
  | _, _ => ret ()
  end.

(** [handleConfirmSave] as the event loop runs it.  The handler runs without
    interruption up to its first [await].  With the capability that is the
    [await] of [getSaveFileHandle], suspended in the [await] of
    [showSaveFilePicker]: the picker has been opened, the modal is closed and
    [isProcessing] is still as it was ([Some true]).  Without it the handler
    goes on to [setIsProcessing(true)] and the [await] of the page mutator
    ([Some false]).  [None]: the handler has returned. *)
Definition handleConfirmSave_open (b : Browser) (st : AppState)
    : M (option bool) :=
  match file st with
  | None => ret None
  | Some _ =>
      setShowSaveModal false;,
      if supportsFileSystem b then
        emit (EvShowSaveFilePicker (fullFilename (outputFilename st)));,
        ret (Some true)
      else
        setIsProcessing true;, ret (Some false)
  end.

(** From the moment the promise of the picker settles to
    [setIsProcessing(true)]: the two [catch] blocks, of [getSaveFileHandle]
    and of [handleConfirmSave]. *)
Definition handleConfirmSave_picked (b : Browser) (st : AppState)
    : M (option (option FileHandle)) :=
  proceed ←,
    try_catch
      (fileHandle ←,
         try_catch
           (match showSaveFilePicker_result b with
            | Returned handle => ret (Some handle)
            | Thrown e => throw e
            end)
           (λ err,
              if decide (err_name err = "AbortError") then throw err
              else emit (EvConsoleWarn "File System API error");, ret None);
       ret (Some fileHandle))
      (λ error,
         if decide (err_name error = "AbortError") then ret None
         else
           emit (EvConsoleWarn "Failed to get file handle, falling back to download");,
           ret (Some None));
  match proceed with
  | None => ret None
  | Some fileHandle => setIsProcessing true;, ret (Some fileHandle)
  end.

(** A handler of the current render, run on the state it was rendered
    from. *)
Definition fromRender {A} (handler : AppState → M A) : M A :=
  λ w, handler (app w) w.
End AppModel.

(** ** Sessions: the handlers as the page lets the user run them

    A session is the world together with the asynchronous handlers that have
    been started and not yet settled: the files whose thumbnails are being
    generated, the saves that wait for the save dialog, and the saves that
    wait for the page mutator.  An action of the user is enabled when the
    element that triggers it is rendered and not disabled (the conditions are
    the ones of the JSX of [App] and [FileUpload]) and the native save
    dialog is not open: that dialog is modal, the page takes no input while
    it is shown.  A promise may settle at any time. *)

Record PendingPick := mkPick {
  pk_render : AppState;
  pk_file : File;
  pk_browser : Browser
}.

Record PendingSave := mkPending {
  ps_render : AppState;
  ps_file : File;
  ps_handle : option FileHandle
}.

Record Session := mkSession {
  world : World;
  loads : list File;
  picks : list PendingPick;
  saves : list PendingSave
}.

Definition initialWorld : World := mkWorld initialApp ∅ [].
Definition initialSession : Session := mkSession initialWorld [] [] [].

Inductive Action :=
  | ActFileSelect (f : File)
  | ActLoadSettle (k : nat) (b : Browser)
  | ActToggle (idx : nat) (shiftKey : bool)
  | ActClear
  | ActReset
  | ActOpenSave
  | ActCloseModal
  | ActSetFilename (v : string)
  | ActConfirmSave (b : Browser)
  | ActPickerSettle (k : nat)
  | ActSaveSettle (k : nat).

(** The actions of the user, as opposed to the settling of a promise. *)
Definition byUser (a : Action) : bool :=
  match a with
  | ActLoadSettle _ _ | ActPickerSettle _ | ActSaveSettle _ => false
  | _ => true
  end.

Definition pickerOpen (s : Session) : bool :=
  if picks s is [] then false else true.

Definition hasFile (st : AppState) : bool :=
  if file st is Some _ then true else false.

Definition hasThumbnail (st : AppState) (idx : nat) : bool :=
  existsb (λ t, index t =? idx) (thumbnails st).

(** The state of the world after a handler has run. *)
Definition after (c : M ()) (w : World) : World := fst (c w).

Section SessionModel.
Context `{PdfLib} `{PdfJs}.

(** What an action does when it is enabled. *)
Definition step_enabled (a : Action) (s : Session) : option Session :=
  let w := world s in
  let st := app w in
  match a with
  | ActFileSelect f =>
      (* <FileUpload> is mounted when [!file]; its input is disabled and a
         drop is ignored while [isProcessing]; [validateAndProcess] wants a
         PDF. *)
      if negb (hasFile st) && negb (isProcessing st)
         && String.eqb (file_type f) "application/pdf"
      then Some (mkSession (after (handleFileSelect_begin f) w)
                   (loads s ++ [f]) (picks s) (saves s))
      else None
  | ActLoadSettle k b =>
      match loads s !! k with
      | Some f => Some (mkSession (after (handleFileSelect_load b f) w)
                          (delete k (loads s)) (picks s) (saves s))
      | None => None
      end
  | ActToggle idx shiftKey =>
      (* <PageGrid> is rendered for a loaded file, one cell per thumbnail. *)
      if hasFile st && hasThumbnail st idx
      then Some (mkSession
                   (after (togglePageSelection (lastSelectedIndex st)
                             idx shiftKey) w)
                   (loads s) (picks s) (saves s))
      else None
  | ActClear =>
      (* The button is disabled for an empty selection. *)
      if hasFile st && negb (bool_decide (size (selectedIndices st) = 0))
      then Some (mkSession (after clearSelection w)
                   (loads s) (picks s) (saves s))
      else None
  | ActReset =>
      (* Rendered when [file && !isProcessing]. *)
      if hasFile st && negb (isProcessing st)
      then Some (mkSession (after resetApp w) (loads s) (picks s) (saves s))
      else None
  | ActOpenSave =>
      (* The floating bar is rendered for a loaded file with a non-empty
         selection and a closed modal; its button is disabled while
         [isProcessing]. *)
      if hasFile st && negb (bool_decide (size (selectedIndices st) = 0))
         && negb (showSaveModal st) && negb (isProcessing st)
      then Some (mkSession (after (openSaveModal st) w)
                   (loads s) (picks s) (saves s))
      else None
  | ActCloseModal =>
      if showSaveModal st
      then Some (mkSession (after (setShowSaveModal false) w)
                   (loads s) (picks s) (saves s))
      else None
  | ActSetFilename v =>
      if showSaveModal st
      then Some (mkSession (after (setOutputFilename v) w)
                   (loads s) (picks s) (saves s))
      else None
  | ActConfirmSave b =>
      (* The button is in the modal (it is also disabled for a blank file
         name, which is not required here).  The handler runs to its first
         [await]. *)
      if showSaveModal st
      then
        match handleConfirmSave_open b st w, file st with
        | (w', Returned (Some true)), Some f =>
            Some (mkSession w' (loads s) (picks s ++ [mkPick st f b])
                    (saves s))
        | (w', Returned (Some false)), Some f =>
            Some (mkSession w' (loads s) (picks s)
                    (saves s ++ [mkPending st f None]))
        | (w', _), _ => Some (mkSession w' (loads s) (picks s) (saves s))
        end
      else None
  | ActPickerSettle k =>
      (* The promise of the save dialog settles: the handler goes on to its
         next [await], or returns. *)
      match picks s !! k with
      | Some p =>
          match handleConfirmSave_picked (pk_browser p) (pk_render p) w with
          | (w', Returned (Some fileHandle)) =>
              Some (mkSession w' (loads s) (delete k (picks s))
                      (saves s ++
                         [mkPending (pk_render p) (pk_file p) fileHandle]))
          | (w', _) =>
              Some (mkSession w' (loads s) (delete k (picks s)) (saves s))
          end
      | None => None
      end
  | ActSaveSettle k =>
      match saves s !! k with
      | Some p =>
          Some (mkSession
                  (after (handleConfirmSave_process (ps_render p) (ps_file p)
                            (ps_handle p)) w)
                  (loads s) (picks s) (delete k (saves s)))
      | None => None
      end
  end.

Definition step (a : Action) (s : Session) : option Session :=
  if byUser a && pickerOpen s then None else step_enabled a s.

Fixpoint run (acts : list Action) (s : Session) : option Session :=
  match acts with
  | [] => Some s
  | a :: acts' =>
      match step a s with
      | Some s' => run acts' s'
      | None => None
      end
  end.

Definition reachable (s : Session) : Prop :=
  ∃ acts, run acts initialSession = Some s.

(** The page count of the currently loaded document. *)
Definition totalPages (st : AppState) : nat :=
  match file st with
  | Some f => numPages f
  | None => 0
  end.
End SessionModel.

(** ** A concrete reading of the external interfaces

    A toy codec in which every byte of a buffer is one page, the empty
    buffer does not parse, a document holds nothing but its pages and the
    blank page is the byte [x20]; it is used to run the model on explicit
    inputs. *)
Module Toy.

Definition toy_load (data : bytes) : option (Document byte ()) :=
  if data is [] then None else Some (mkDoc data ()).

Lemma toy_load_save (doc : Document byte ()) :
  doc_pages doc ≠ [] →
  ∃ rest, toy_load (doc_pages doc) = Some (mkDoc (doc_pages doc) rest).
Proof. destruct doc as [[|p ps] []]; [done|]. by exists (). Qed.

#[export] Instance toyPdfLib : PdfLib := {|
  Page := byte;
  Rest := ();
  blank_page := x20;
  pdf_load := toy_load;
  rest_create := ();
  rest_removePage _ _ := ();
  rest_copyPages _ _ _ := ();
  rest_addPage _ _ := ();
  pdf_save := doc_pages;
  pdf_load_save := toy_load_save
|}.

Definition toyPage (_ : byte) : PageProxy :=
  mkPageProxy 306 396 (Returned "data:image/jpeg;base64,").

#[export] Instance toyPdfJs : PdfJs := {|
  pdfjs_open data :=
    if data is [] then Thrown (mkError "InvalidPDFException" "")
    else Returned (toyPage <$> data)
|}.

Definition doc5 : File :=
  mkFile "doc.pdf" "application/pdf" [x00; x01; x02; x03; x04].
Definition docA : File := mkFile "a.pdf" "application/pdf" [x0a; x0b].
Definition docB : File := mkFile "b.pdf" "application/pdf" [x10; x11; x12].
Definition broken : File := mkFile "broken.pdf" "application/pdf" [].

Definition AbortError : JsError := mkError "AbortError" "The user aborted a request.".
Definition SecurityError : JsError := mkError "SecurityError" "".

Definition goodWritable : Writable := mkWritable (Returned ()) (Returned ()).
Definition failingWritable : Writable :=
  mkWritable (Thrown (mkError "QuotaExceededError" "")) (Returned ()).

Definition noPicker : Browser :=
  mkBrowser false (Thrown SecurityError) (λ _, true).
Definition pickerGranted : Browser :=
  mkBrowser true (Returned (mkHandle (Returned goodWritable))) (λ _, true).
Definition pickerCancelled : Browser :=
  mkBrowser true (Thrown AbortError) (λ _, true).
Definition noCanvasContext : Browser :=
  mkBrowser false (Thrown SecurityError) (λ _, false).

(** A world holding one array at reference 0. *)
Definition worldWith (l : list nat) : World :=
  mkWorld initialApp {[0 := l]} [].

(** The session state after pages 1 and 3 of [doc5] have been selected and
    the save modal has been opened. *)
Definition confirming : AppState :=
  mkApp (Some doc5) [] {[1; 3]} (Some 3) false 100 true "out".
Definition confirmingWorld : World := mkWorld confirming ∅ [].

(** A short session: [doc5] is loaded, page 1 is clicked and page 3 is
    shift-clicked. *)
Definition browsing : list Action :=
  [ActFileSelect doc5; ActLoadSettle 0 noPicker;
   ActToggle 1 false; ActToggle 3 true].
Definition browsed : Session :=
  default initialSession (run browsing initialSession).

(** The same session, continued: the save modal is opened and confirmed in a
    browser that shows the save dialog. *)
Definition choosing : list Action :=
  browsing ++ [ActOpenSave; ActConfirmSave pickerGranted].
Definition atPicker : Session :=
  default initialSession (run choosing initialSession).

End Toy.

(** ** Reference descriptions of the outputs

    These follow the words of the specification and are compared with what
    the code computes. *)

(** The pages of a document whose positions, counted from [k], are not in
    [sel]: the original order with the members of [sel] excised. *)
Fixpoint excise_from {A} (k : nat) (sel : list nat) (pages : list A) : list A :=
  match pages with
  | [] => []
  | p :: pages' =>
      if decide (k ∈ sel) then excise_from (k + 1) sel pages'
      else p :: excise_from (k + 1) sel pages'
  end.

Definition excise {A} (sel : list nat) (pages : list A) : list A :=
  excise_from 0 sel pages.

(** [out] consists of the pages found at the positions [idxs], in the order
    of [idxs]. *)
Definition pages_at {A} (pages : list A) (idxs : list nat) (out : list A)
    : Prop :=
  Forall2 (λ i p, pages !! i = Some p) idxs out.

Definition strictly_descending : list nat → Prop :=
  StronglySorted (λ i j, j < i).
Definition strictly_ascending : list nat → Prop :=
  StronglySorted (λ i j, i < j).

(** The events of copying and appending the pages at [idxs] one by one. *)
Definition copy_events (idxs : list nat) : list Event :=
  idxs ≫= (λ i, [EvCopyPages [i]; EvAddPage]).

(** The events of merging [files] that load as [docs]. *)
Definition merge_events `{PdfLib} (files : list File)
    (docs : list PDFDocument) : list Event :=
  zip files docs ≫= (λ '(f, d),
    [EvPdfLoad (file_content f); EvCopyPages (getPageIndices d)] ++
    (const EvAddPage <$> doc_pages d)).

(** The documents the three functions hand to [save()].  [removePagesAndSave]
    removes the positions [idxs] one after the other; [extractPagesAndSave]
    copies and appends the pages of [src] at [idxs] one by one;
    [mergePdfs] copies and appends all pages of each of [docs]. *)
Definition removeAll `{PdfLib} (idxs : list nat) (doc : PDFDocument)
    : PDFDocument :=
  foldl removed doc idxs.

Definition extracted `{PdfLib} (src : PDFDocument) (idxs : list nat)
    (dst : PDFDocument) : PDFDocument :=
  foldl (λ d i, match doc_pages src !! i with
                | Some p => added (copied d src [i]) p
                | None => d
                end) dst idxs.

Definition mergedWith `{PdfLib} (docs : list PDFDocument)
    (merged : PDFDocument) : PDFDocument :=
  foldl (λ m d, foldl added (copied m d (getPageIndices d)) (doc_pages d))
    merged docs.

(** The pages of the file that [save()] writes for a document with the
    pages [ps]. *)
Definition saved_pages `{PdfLib} (ps : list Page) : list Page :=
  match ps with
  | [] => [blank_page]
  | _ :: _ => ps
  end.

(** The effect of the setters of the save coordinator on the state. *)
Definition closeModal (st : AppState) : AppState :=
  mkApp (file st) (thumbnails st) (selectedIndices st) (lastSelectedIndex st)
    (isProcessing st) (loadingProgress st) false (outputFilename st).

Definition startProcessing (st : AppState) : AppState :=
  mkApp (file st) (thumbnails st) (selectedIndices st) (lastSelectedIndex st)
    true (loadingProgress st) (showSaveModal st) (outputFilename st).

Definition stopProcessing (st : AppState) : AppState :=
  mkApp (file st) (thumbnails st) (selectedIndices st) (lastSelectedIndex st)
    false (loadingProgress st) (showSaveModal st) (outputFilename st).

(** The events of rendering [n] pages from page number [from] on, each
    followed by its progress call. *)
Definition progress_events (total from n : nat) : list Event :=
  seq from n ≫= (λ i, [EvRender i; EvProgress i total]).

(** A click on page [idx], as the grid dispatches it. *)
Definition click (idx : nat) (shiftKey : bool) : M () :=
  fromRender (λ st, togglePageSelection (lastSelectedIndex st) idx shiftKey).

(** [stable R c]: every run of [c] takes a world to an [R]-related one. *)
Definition stable {A} (R : relation World) (c : M A) : Prop :=
  ∀ w, R w (c w).1.

Definition same_arrays : relation World := λ w w', arrays w' = arrays w.
Definition same_app : relation World := λ w w', app w' = app w.

(** The cells of the state that the selection model and the guards of the
    page depend on. *)
Definition core (st : AppState) :=
  (file st, thumbnails st, selectedIndices st, lastSelectedIndex st,
   isProcessing st, showSaveModal st).
Definition same_core : relation World := λ w w', core (app w') = core (app w).

(** The phases of a session.  [bounded n st]: the thumbnails, the selection
    and the last-touched index of [st] are below [n]. *)
Definition bounded (n : nat) (st : AppState) : Prop :=
  Forall (λ t, index t < n) (thumbnails st) ∧
  (∀ i, i ∈ selectedIndices st → i < n) ∧
  (∀ l, lastSelectedIndex st = Some l → l < n).

Definition blank (st : AppState) : Prop :=
  thumbnails st = [] ∧ selectedIndices st = ∅ ∧
  lastSelectedIndex st = None ∧ showSaveModal st = false.

Inductive phase `{PdfJs} (s : Session) : Prop :=
  | PhEmpty :
      file (app (world s)) = None → blank (app (world s)) →
      isProcessing (app (world s)) = false →
      loads s = [] → picks s = [] → saves s = [] → phase s
  | PhLoading (f : File) :
      file (app (world s)) = Some f → blank (app (world s)) →
      isProcessing (app (world s)) = true →
      loads s = [f] → picks s = [] → saves s = [] → phase s
  | PhReady (f : File) :
      file (app (world s)) = Some f →
      bounded (numPages f) (app (world s)) →
      isProcessing (app (world s)) = false →
      loads s = [] → picks s = [] → saves s = [] → phase s
  | PhPicking (f : File) (p : PendingPick) :
      file (app (world s)) = Some f →
      bounded (numPages f) (app (world s)) →
      isProcessing (app (world s)) = false →
      showSaveModal (app (world s)) = false →
      loads s = [] → picks s = [p] → saves s = [] → phase s
  | PhSaving (f : File) (p : PendingSave) :
      file (app (world s)) = Some f →
      bounded (numPages f) (app (world s)) →
      isProcessing (app (world s)) = true →
      showSaveModal (app (world s)) = false →
      loads s = [] → picks s = [] → saves s = [p] → phase s.

(** An action that replaces the loaded document or resets the session. *)
Definition replaces_or_resets (a : Action) (s s' : Session) : Prop :=
  match a with
  | ActFileSelect _ | ActReset => True
  | _ => file (app (world s')) ≠ file (app (world s))
  end.

(** [appends P w w']: the log of [w'] is the log of [w] followed by events
    that all satisfy [P]. *)
Definition appends (P : Event → Prop) : relation World :=
  λ w w', ∃ Δ, events w' = events w ++ Δ ∧ Forall P Δ.

(** The calls into pdf-lib made by [removePagesAndSave]. *)
Definition is_removal_event (e : Event) : Prop :=
  match e with
  | EvPdfLoad _ | EvRemovePage _ | EvPdfSave => True
  | _ => False
  end.

(** The events of the thumbnail loop over the page numbers [from .. from+n-1]
    when every page renders: the pages with a 2D context are rendered and
    reported, the others are passed over. *)
Definition thumbnail_events (b : Browser) (total from n : nat) : list Event :=
  filter (λ i, getContext_2d b i = true) (seq from n)
    ≫= (λ i, [EvRender i; EvProgress i total]).

(** [t] is the thumbnail of the page of [pdf] at position [index t]. *)
Definition thumbnail_of (pdf : list PageProxy) (t : PageThumbnail) : Prop :=
  ∃ page, pdf !! index t = Some page ∧
          render_result page = Returned (url t) ∧
          width t = viewport_width page ∧ height t = viewport_height page.

(** Further concrete inputs: a pdf.js in which the byte [xff] is a page that
    fails to render, and a browser whose canvas for page 2 gives no 2D
    context. *)
Module Samples.

#[export] Instance flakyPdfJs : PdfJs := {|
  pdfjs_open data :=
    if data is [] then Thrown (mkError "InvalidPDFException" "")
    else Returned ((λ c, if Byte.eqb c xff
                         then mkPageProxy 306 396
                                (Thrown (mkError "RenderingCancelledException" ""))
                         else Toy.toyPage c) <$> data)
|}.

Definition damaged : File :=
  mkFile "damaged.pdf" "application/pdf" [x00; x01; xff; x03].

Definition noContextForPage2 : Browser :=
  mkBrowser false (Thrown Toy.SecurityError) (λ i, negb (i =? 2)).

End Samples.

(** [w'] differs from [w] at most in [loadingProgress] and in the log. *)
Definition same_but_progress : relation World :=
  λ w w', core (app w') = core (app w) ∧
          outputFilename (app w') = outputFilename (app w) ∧
          arrays w' = arrays w.

(** The number of asynchronous handlers in flight. *)
Definition inFlight (s : Session) : nat :=
  length (loads s) + length (picks s) + length (saves s).

(** ** The [PdfMerger] component

    Its state cells are kept beside the world; its handlers run in the same
    monad with that state added. *)
Module Merger.

Record PdfFile := mkPdfFile {
  id : string;
  file : File
}.

Record State := mkState {
  pdfFiles : list PdfFile;
  isProcessing : bool;
  showSaveModal : bool;
  outputFilename : string;
  draggedIndex : option nat
}.

Definition initialState : State :=
  mkState [] false false "documento_mesclado" None.

Definition MS (A : Type) : Type := State * World → (State * World) * Outcome A.

Definition retS {A} (a : A) : MS A := λ sw, (sw, Returned a).

Definition bindS {A B} (c : MS A) (k : A → MS B) : MS B :=
  λ sw, match c sw with
        | (sw', Returned a) => k a sw'
        | (sw', Thrown e) => (sw', Thrown e)
        end.

(** A service call: it sees the world only. *)
Definition liftS {A} (c : M A) : MS A :=
  λ sw, match c sw.2 with
        | (w', r) => ((sw.1, w'), r)
        end.

Definition setStateS (f : State → State) : MS () :=
  λ sw, ((f sw.1, sw.2), Returned ()).

Definition try_catchS {A} (c : MS A) (h : JsError → MS A) : MS A :=
  λ sw, match c sw with
        | (sw', Returned a) => (sw', Returned a)
        | (sw', Thrown e) => h e sw'
        end.

Definition try_finallyS {A} (c : MS A) (f : MS ()) : MS A :=
  λ sw, match c sw with
        | (sw', r) => ((f sw').1, r)
        end.

Notation "x ←; c ; k" := (bindS c (λ x, k))
  (at level 100, c at next level, right associativity).
Notation "c ;; k" := (bindS c (λ _, k))
  (at level 100, right associativity).

Definition setPdfFiles (upd : list PdfFile → list PdfFile) : MS () :=
  setStateS (λ st, mkState (upd (pdfFiles st)) (isProcessing st)
    (showSaveModal st) (outputFilename st) (draggedIndex st)).
Definition setIsProcessing (v : bool) : MS () :=
  setStateS (λ st, mkState (pdfFiles st) v
    (showSaveModal st) (outputFilename st) (draggedIndex st)).
Definition setShowSaveModal (v : bool) : MS () :=
  setStateS (λ st, mkState (pdfFiles st) (isProcessing st)
    v (outputFilename st) (draggedIndex st)).
Definition setOutputFilename (v : string) : MS () :=
  setStateS (λ st, mkState (pdfFiles st) (isProcessing st)
    (showSaveModal st) v (draggedIndex st)).
Definition setDraggedIndex (v : option nat) : MS () :=
  setStateS (λ st, mkState (pdfFiles st) (isProcessing st)
    (showSaveModal st) (outputFilename st) v).

Definition isPdf (f : File) : Prop := file_type f = "application/pdf".

(** [handleFileSelect(files)]; [files] is [None] for [null], and
    [newId k] is the identifier drawn for the [k]-th accepted file. *)
Definition handleFileSelect (newId : nat → string)
    (files : option (list File)) : MS () :=
  match files with
  | None => retS ()
  | Some files =>
      let newFiles := imap (λ k f, mkPdfFile (newId k) f) (filter isPdf files) in
      setPdfFiles (λ prev, prev ++ newFiles)
  end.

Definition removeFile (id0 : string) : MS () :=
  setPdfFiles (λ prev, filter (λ f, id f ≠ id0) prev).

(** [onClick={() => setPdfFiles([])}] *)
Definition clearFiles : MS () := setPdfFiles (λ _, []).

Definition handleDragStart (index : nat) : MS () :=
  setDraggedIndex (Some index).

(** [a.splice(i, 1)] and [a.splice(i, 0, x)] on a copy of the array. *)
Definition splice_out {A} (i : nat) (l : list A) : list A := delete i l.
Definition splice_in {A} (i : nat) (x : A) (l : list A) : list A :=
  take i l ++ x :: drop i l.

(** [handleDragEnter(index)], with [pdfFiles] and [draggedIndex] of the
    render [st].  When [draggedIndex] addresses no entry,
    [newFiles[draggedIndex]] is [undefined] and the source stores it in the
    list, a value that [PdfFile[]] (and [list PdfFile]) does not have; the
    next render reads [pdfFile.id] of it and throws.  The model has no such
    list: it gives that [TypeError] at the handler and leaves the state as it
    was.  The rows offer only their own positions ([onDragStart] and
    [onDragEnter] of the [index]-th row), and the properties of this handler
    are stated for a [draggedIndex] that addresses an entry. *)
Definition handleDragEnter (st : State) (index : nat) : MS () :=
  match draggedIndex st with
  | None => retS ()
  | Some dragged =>
      if decide (dragged = index) then retS ()
      else
        match pdfFiles st !! dragged with
        | Some draggedFile =>
            let newFiles :=
              splice_in index draggedFile (splice_out dragged (pdfFiles st)) in
            setPdfFiles (λ _, newFiles);;
            setDraggedIndex (Some index)
        | None => λ sw, (sw, Thrown TypeError)
        end
  end.

Definition handleDragEnd : MS () := setDraggedIndex None.

Definition openSaveModal (st : State) : MS () :=
  if decide (length (pdfFiles st) < 2) then retS ()
  else setShowSaveModal true.

Section Merge.
Context `{PdfLib}.

(** [handleMerge], with [pdfFiles] and [outputFilename] of the render [st].
    The result of the first part is [None] when the handler has returned. *)
Definition handleMerge_acquire (b : Browser) (st : State)
    : MS (option (option FileHandle)) :=
  if decide (length (pdfFiles st) < 2) then retS None
  else
    setShowSaveModal false;;
    let canUseFileSystem := supportsFileSystem b in
    proceed ←;
      (if canUseFileSystem then
         try_catchS
           (fileHandle ←; liftS (getSaveFileHandle b (outputFilename st));
            retS (Some fileHandle))
           (λ error,
              if decide (err_name error = "AbortError") then retS None
              else
                liftS (emit (EvConsoleWarn "Failed to get file handle, falling back to download"));;
                retS (Some None))
       else retS (Some None));
    match proceed with
    | None => retS None
    | Some fileHandle => setIsProcessing true;; retS (Some fileHandle)
    end.

Definition handleMerge_process (st : State)
    (fileHandle : option FileHandle) : MS () :=
  try_finallyS
    (try_catchS
       (mergedPdfBytes ←; liftS (mergePdfs (file <$> pdfFiles st));
        match fileHandle with
        | Some handle => liftS (writePdfToHandle handle mergedPdfBytes)
        | None => liftS (downloadBlob mergedPdfBytes (outputFilename st))
        end;;
        setPdfFiles (λ _, []);;
        setOutputFilename "documento_mesclado")
       (λ error,
          liftS (emit (EvConsoleError "Error merging PDFs"));;
          liftS (emit (EvAlert "Erro ao mesclar os arquivos PDF."))))
    (setIsProcessing false).

Definition handleMerge (b : Browser) (st : State) : MS () :=
  proceed ←; handleMerge_acquire b st;
  match proceed with
  | Some fileHandle => handleMerge_process st fileHandle
  | None => retS ()
  end.
End Merge.

(** The list of [docA] and [docB] with the modal open. *)
Definition merging : State :=
  mkState [mkPdfFile "a" Toy.docA; mkPdfFile "b" Toy.docB] false true
    "documento_mesclado" None.

End Merger.

(** The calls into pdf-lib made by [mergePdfs]. *)
Definition is_merge_event (e : Event) : Prop :=
  match e with
  | EvPdfCreate | EvPdfLoad _ | EvCopyPages _ | EvAddPage | EvPdfSave => True
  | _ => False
  end.

(** ** The converter service: [createMinimalDocx]

    Strings are read as their UTF-8 bytes; the five characters that are
    replaced are ASCII and never occur inside a multi-byte character. *)
Module Converter.

Definition dquote : ascii := ascii_of_nat 34.
Definition newline : ascii := ascii_of_nat 10.

(** [s.replace(/c/g, by_)] for a single character [c]. *)
Fixpoint replaceAll (c : ascii) (by_ : string) (s : string) : string :=
  match s with
  | EmptyString => EmptyString
  | String a s' =>
      if Ascii.eqb a c then by_ +:+ replaceAll c by_ s'
      else String a (replaceAll c by_ s')
  end.

Definition escapeLine (line : string) : string :=
  replaceAll "'" "&apos;"
    (replaceAll dquote "&quot;"
       (replaceAll ">" "&gt;"
          (replaceAll "<" "&lt;"
             (replaceAll "&" "&amp;" line)))).

(** [s.split(sep)] for a single character [sep]. *)
Fixpoint split (sep : ascii) (s : string) : list string :=
  match s with
  | EmptyString => [EmptyString]
  | String a s' =>
      if Ascii.eqb a sep then EmptyString :: split sep s'
      else match split sep s' with
           | first :: others => String a first :: others
           | [] => [String a EmptyString]
           end
  end.

Definition paragraph (line : string) : string :=
  "<w:p><w:r><w:t>" +:+ escapeLine line +:+ "</w:t></w:r></w:p>".

Definition docxHeader : string :=
  "<?xml version=" +:+ String dquote "1.0" +:+ String dquote " encoding="
  +:+ String dquote "UTF-8" +:+ String dquote " standalone="
  +:+ String dquote "yes" +:+ String dquote "?>" +:+ String newline
  "<w:document xmlns:w=" +:+ String dquote
  "http://schemas.openxmlformats.org/wordprocessingml/2006/main"
  +:+ String dquote ">" +:+ String newline "  <w:body>"
  +:+ String newline "    ".

Definition docxFooter : string :=
  String newline "  </w:body>" +:+ String newline "</w:document>".

Definition createMinimalDocx (text : string) : string :=
  let paragraphs := String.concat "" (paragraph <$> split newline text) in
  docxHeader +:+ paragraphs +:+ docxFooter.

(** The replacement of one character, and the substitution of every
    character of a string at once. *)
Definition entity (a : ascii) : string :=
  if Ascii.eqb a "&" then "&amp;"
  else if Ascii.eqb a "<" then "&lt;"
  else if Ascii.eqb a ">" then "&gt;"
  else if Ascii.eqb a dquote then "&quot;"
  else if Ascii.eqb a "'" then "&apos;"
  else String a EmptyString.

Fixpoint substitute (f : ascii → string) (s : string) : string :=
  match s with
  | EmptyString => EmptyString
  | String a s' => f a +:+ substitute f s'
  end.

Definition is_markup (a : ascii) : Prop :=
  a = "<"%char ∨ a = ">"%char ∨ a = dquote ∨ a = "'"%char.

End Converter.

(** * Properties *)

(** ** Sorting with the two comparators *)

Global Instance descending_total : Total (cmp_le descending).
Proof. intros x y. unfold cmp_le, descending. lia. Qed.
Global Instance descending_trans : Transitive (cmp_le descending).
Proof. intros x y z. unfold cmp_le, descending. lia. Qed.
Global Instance ascending_total : Total (cmp_le ascending).
Proof. intros x y. unfold cmp_le, ascending. lia. Qed.
Global Instance ascending_trans : Transitive (cmp_le ascending).
Proof. intros x y z. unfold cmp_le, ascending. lia. Qed.

Lemma StronglySorted_strict (R R' : relation nat) (l : list nat) :
  (∀ x y, R x y → x ≠ y → R' x y) →
  NoDup l → StronglySorted R l → StronglySorted R' l.
Proof.
  intros HR Hnd Hs. induction Hs as [|x l Hs IH Hx]; [constructor|].
  apply NoDup_cons in Hnd as [Hnotin Hnd].
  constructor; [by apply IH|].
  rewrite Forall_forall in Hx |- *. intros y Hy.
  apply HR; [by apply Hx|]. intros ->. done.
Qed.

Lemma sort_descending_spec (l : list nat) :
  NoDup l →
  merge_sort (cmp_le descending) l ≡ₚ l ∧
  strictly_descending (merge_sort (cmp_le descending) l).
Proof.
  intros Hnd. split; [apply merge_sort_Permutation|].
  apply (StronglySorted_strict (cmp_le descending)).
  - unfold cmp_le, descending. intros x y ??. lia.
  - by rewrite merge_sort_Permutation.
  - apply StronglySorted_merge_sort; apply _.
Qed.

Lemma sort_ascending_spec (l : list nat) :
  NoDup l →
  merge_sort (cmp_le ascending) l ≡ₚ l ∧
  strictly_ascending (merge_sort (cmp_le ascending) l).
Proof.
  intros Hnd. split; [apply merge_sort_Permutation|].
  apply (StronglySorted_strict (cmp_le ascending)).
  - unfold cmp_le, ascending. intros x y ??. lia.
  - by rewrite merge_sort_Permutation.
  - apply StronglySorted_merge_sort; apply _.
Qed.

(** The sorted array does not depend on the order of the input. *)
Lemma sort_ascending_perm (l1 l2 : list nat) :
  l1 ≡ₚ l2 →
  merge_sort (cmp_le ascending) l1 = merge_sort (cmp_le ascending) l2.
Proof.
  intros Hp.
  apply (StronglySorted_unique_strong (cmp_le ascending)).
  - unfold cmp_le, ascending. intros x y _ _ ??. lia.
  - apply StronglySorted_merge_sort; apply _.
  - apply StronglySorted_merge_sort; apply _.
  - by rewrite !merge_sort_Permutation.
Qed.

Lemma sort_descending_perm (l1 l2 : list nat) :
  l1 ≡ₚ l2 →
  merge_sort (cmp_le descending) l1 = merge_sort (cmp_le descending) l2.
Proof.
  intros Hp.
  apply (StronglySorted_unique_strong (cmp_le descending)).
  - unfold cmp_le, descending. intros x y _ _ ??. lia.
  - apply StronglySorted_merge_sort; apply _.
  - apply StronglySorted_merge_sort; apply _.
  - by rewrite !merge_sort_Permutation.
Qed.

(** ** Excising positions *)

Lemma excise_from_ext {A} (k : nat) (sel sel' : list nat) (pages : list A) :
  (∀ i, i ∈ sel ↔ i ∈ sel') →
  excise_from k sel pages = excise_from k sel' pages.
Proof.
  intros Hiff. revert k. induction pages as [|p pages IH]; intros k; [done|].
  simpl. rewrite IH.
  destruct (decide (k ∈ sel)) as [Hin|Hnin], (decide (k ∈ sel')) as [Hin'|Hnin'];
    try done.
  - exfalso. by apply Hnin', Hiff.
  - exfalso. by apply Hnin, Hiff.
Qed.

Lemma excise_from_below {A} (k : nat) (sel : list nat) (pages : list A) :
  Forall (λ i, i < k) sel → excise_from k sel pages = pages.
Proof.
  revert k. induction pages as [|p pages IH]; intros k HS; [done|].
  simpl. destruct (decide (k ∈ sel)) as [Hin|_].
  - rewrite Forall_forall in HS. apply HS in Hin. lia.
  - f_equal. apply IH. eapply Forall_impl; [done|]. simpl. lia.
Qed.

(** Removing the largest position first leaves the smaller ones in place. *)
Lemma excise_from_cons {A} (k i : nat) (sel : list nat) (pages : list A) :
  k ≤ i → Forall (λ j, j < i) sel →
  excise_from k (i :: sel) pages = excise_from k sel (delete (i - k) pages).
Proof.
  revert k. induction pages as [|p pages IH]; intros k Hk HS; [done|].
  destruct (decide (i = k)) as [->|Hne].
  - replace (k - k) with 0 by lia. simpl.
    rewrite decide_True by apply list_elem_of_here.
    rewrite !excise_from_below; [done| |].
    + done.
    + constructor; [lia|]. eapply Forall_impl; [done|]. simpl. lia.
  - replace (i - k) with (S (i - (k + 1))) by lia. simpl.
    rewrite <-IH by (done || lia).
    destruct (decide (k ∈ i :: sel)) as [Hin|Hnin],
             (decide (k ∈ sel)) as [Hin'|Hnin']; try done.
    + apply elem_of_cons in Hin as [?|?]; [lia|done].
    + exfalso. apply Hnin. by right.
Qed.

Lemma excise_nil {A} (k : nat) (pages : list A) : excise_from k [] pages = pages.
Proof. apply excise_from_below. constructor. Qed.

(** ** Running the monad *)

Lemma bind_Returned {A B} (c : M A) (k : A → M B) (w w' : World) (a : A) :
  c w = (w', Returned a) → bind c k w = k a w'.
Proof. unfold bind. by intros ->. Qed.

Lemma bind_Thrown {A B} (c : M A) (k : A → M B) (w w' : World) (e : JsError) :
  c w = (w', Thrown e) → bind c k w = (w', Thrown e).
Proof. unfold bind. by intros ->. Qed.

Lemma for_of_cons {A S} (x : A) (l : list A) (s : S) (body : S → A → M S) :
  for_of (x :: l) s body = bind (body s x) (λ s', for_of l s' body).
Proof. done. Qed.

Lemma emit_run (e : Event) (w : World) :
  emit e w = (mkWorld (app w) (arrays w) (events w ++ [e]), Returned ()).
Proof. done. Qed.

Lemma world_eta (w : World) : mkWorld (app w) (arrays w) (events w) = w.
Proof. by destruct w. Qed.

(** ** What [save()] writes *)

Section Saving.
Context `{PdfLib}.

Lemma withDefaultPage_pages (doc : PDFDocument) :
  doc_pages (withDefaultPage doc) = saved_pages (doc_pages doc).
Proof. by destruct doc as [[|p ps] rest]. Qed.

Lemma saved_pages_nonempty (ps : list Page) : saved_pages ps ≠ [].
Proof. by destruct ps. Qed.

(** The bytes that [save()] returns load again, with the pages of the
    document, or with one blank page when the document had none. *)
Lemma save_loads (doc : PDFDocument) :
  ∃ rest, pdf_load (pdf_save (withDefaultPage doc))
          = Some (mkDoc (saved_pages (doc_pages doc)) rest).
Proof.
  rewrite <-withDefaultPage_pages. apply pdf_load_save.
  rewrite withDefaultPage_pages. apply saved_pages_nonempty.
Qed.

Lemma PDFDocument_load_run (data : bytes) (doc : PDFDocument) (w : World) :
  pdf_load data = Some doc →
  PDFDocument_load data w =
    (mkWorld (app w) (arrays w) (events w ++ [EvPdfLoad data]), Returned doc).
Proof.
  intros Hl. unfold PDFDocument_load.
  rewrite (bind_Returned _ _ _ _ _ (emit_run _ _)). by rewrite Hl.
Qed.

Lemma PDFDocument_load_fail (data : bytes) (w : World) :
  pdf_load data = None →
  PDFDocument_load data w =
    (mkWorld (app w) (arrays w) (events w ++ [EvPdfLoad data]),
     Thrown ParseError).
Proof.
  intros Hl. unfold PDFDocument_load.
  rewrite (bind_Returned _ _ _ _ _ (emit_run _ _)). by rewrite Hl.
Qed.

Lemma PDFDocument_save_run (doc : PDFDocument) (w : World) :
  PDFDocument_save doc w =
    (mkWorld (app w) (arrays w) (events w ++ [EvPdfSave]),
     Returned (pdf_save (withDefaultPage doc))).
Proof. done. Qed.
End Saving.

(** ** C1: removing pages *)

Section PageMutator.
Context `{PdfLib}.

Lemma removePage_run (doc : PDFDocument) (i : nat) (w : World) :
  i < length (doc_pages doc) →
  removePage doc i w =
    (mkWorld (app w) (arrays w) (events w ++ [EvRemovePage i]),
     Returned (removed doc i)).
Proof.
  intros Hi. unfold removePage.
  rewrite (bind_Returned _ _ _ _ _ (emit_run _ _)).
  by rewrite decide_True.
Qed.

(** Removing strictly descending positions one after the other excises
    them. *)
Lemma removeAll_pages (idxs : list nat) (doc : PDFDocument) :
  strictly_descending idxs →
  Forall (λ i, i < length (doc_pages doc)) idxs →
  doc_pages (removeAll idxs doc) = excise idxs (doc_pages doc) ∧
  length (excise idxs (doc_pages doc)) = length (doc_pages doc) - length idxs.
Proof.
  intros Hs. revert doc.
  induction Hs as [|i l Hs IH Hi]; intros doc Hr.
  - simpl. unfold excise. rewrite excise_nil. split; [done|lia].
  - apply Forall_cons in Hr as [Hi' Hr].
    assert (Hlen : length (doc_pages (removed doc i))
                   = length (doc_pages doc) - 1).
    { simpl. apply length_delete, lookup_lt_is_Some. done. }
    assert (Hr' : Forall (λ j, j < length (doc_pages (removed doc i))) l).
    { rewrite Forall_forall in Hi |- *. intros j Hj.
      specialize (Hi j Hj). simpl in Hi. rewrite Hlen. lia. }
    destruct (IH (removed doc i) Hr') as [IHpages IHlen].
    assert (Hex : excise (i :: l) (doc_pages doc)
                  = excise l (doc_pages (removed doc i))).
    { unfold excise. rewrite excise_from_cons by (done || lia).
      by replace (i - 0) with i by lia. }
    split.
    + unfold removeAll in *. simpl. by rewrite Hex.
    + rewrite Hex, IHlen, Hlen. simpl. lia.
Qed.

Lemma for_of_removePage (idxs : list nat) (doc : PDFDocument) (w : World) :
  strictly_descending idxs →
  Forall (λ i, i < length (doc_pages doc)) idxs →
  for_of idxs doc removePage w =
    (mkWorld (app w) (arrays w) (events w ++ (EvRemovePage <$> idxs)),
     Returned (removeAll idxs doc)).
Proof.
  intros Hs. revert doc w.
  induction Hs as [|i l Hs IH Hi]; intros doc w Hr.
  - simpl. unfold ret. by rewrite app_nil_r, world_eta.
  - apply Forall_cons in Hr as [Hi' Hr].
    assert (Hr' : Forall (λ j, j < length (doc_pages (removed doc i))) l).
    { assert (Hlen : length (doc_pages (removed doc i))
                     = length (doc_pages doc) - 1).
      { simpl. apply length_delete, lookup_lt_is_Some. done. }
      rewrite Forall_forall in Hi |- *. intros j Hj.
      specialize (Hi j Hj). simpl in Hi. rewrite Hlen. lia. }
    rewrite for_of_cons, (bind_Returned _ _ _ _ _ (removePage_run _ _ _ Hi')).
    rewrite (IH _ _ Hr'). simpl. by rewrite <-app_assoc.
Qed.

Lemma array_read_run (a : nat) (l : list nat) (w : World) :
  arrays w !! a = Some l → array_read a w = (w, Returned l).
Proof. unfold array_read. by intros ->. Qed.

Lemma array_spread_run (a : nat) (l : list nat) (w : World) :
  arrays w !! a = Some l →
  array_spread a w =
    (mkWorld (app w) (<[fresh (dom (arrays w)) := l]> (arrays w)) (events w),
     Returned (fresh (dom (arrays w)))).
Proof.
  intros Ha. unfold array_spread.
  by rewrite (bind_Returned _ _ _ _ _ (array_read_run _ _ _ Ha)).
Qed.

Lemma array_sort_run (cmp : nat → nat → Z) (a : nat) (l : list nat) (w : World) :
  arrays w !! a = Some l →
  array_sort cmp a w =
    (mkWorld (app w) (<[a := merge_sort (cmp_le cmp) l]> (arrays w)) (events w),
     Returned a).
Proof. unfold array_sort. by intros ->. Qed.

(** The copy of the index array, sorted in place, and read back. *)
Lemma sorted_copy_run {B} (cmp : nat → nat → Z) (a : nat) (l : list nat)
    (k : list nat → M B) (w : World) :
  arrays w !! a = Some l →
  (copy ←, array_spread a;
   sortedIndices ←, array_sort cmp copy;
   idxs ←, array_read sortedIndices;
   k idxs) w =
  k (merge_sort (cmp_le cmp) l)
    (mkWorld (app w)
       (<[fresh (dom (arrays w)) := merge_sort (cmp_le cmp) l]> (arrays w))
       (events w)).
Proof.
  intros Ha.
  rewrite (bind_Returned _ _ _ _ _ (array_spread_run _ _ _ Ha)).
  erewrite bind_Returned; last first.
  { apply array_sort_run. simpl. apply lookup_insert_eq. }
  simpl. rewrite insert_insert_eq.
  erewrite bind_Returned; last first.
  { apply array_read_run. simpl. apply lookup_insert_eq. }
  done.
Qed.

Lemma removePagesAndSave_run (f : File) (doc : PDFDocument) (a : nat)
    (sel : list nat) (w : World) :
  pdf_load (file_content f) = Some doc →
  arrays w !! a = Some sel →
  NoDup sel →
  Forall (λ i, i < length (doc_pages doc)) sel →
  let order := merge_sort (cmp_le descending) sel in
  removePagesAndSave f a w =
    (mkWorld (app w) (<[fresh (dom (arrays w)) := order]> (arrays w))
       (events w ++ [EvPdfLoad (file_content f)] ++
          (EvRemovePage <$> order) ++ [EvPdfSave]),
     Returned (pdf_save (withDefaultPage (removeAll order doc)))) ∧
  doc_pages (removeAll order doc) = excise sel (doc_pages doc) ∧
  length (excise sel (doc_pages doc)) = length (doc_pages doc) - length sel.
Proof.
  intros Hload Ha Hnd Hr order.
  destruct (sort_descending_spec sel Hnd) as [Hperm Hsorted].
  fold order in Hperm, Hsorted.
  assert (Hr' : Forall (λ i, i < length (doc_pages doc)) order)
    by by rewrite Hperm.
  assert (Hex : excise order (doc_pages doc) = excise sel (doc_pages doc)).
  { apply excise_from_ext. intros i. by rewrite Hperm. }
  destruct (removeAll_pages order doc Hsorted Hr') as [Hpages Hlen].
  rewrite Hex in Hpages, Hlen. rewrite Hperm in Hlen.
  split; [|done].
  unfold removePagesAndSave.
  rewrite (bind_Returned _ _ _ _ _ (PDFDocument_load_run _ _ _ Hload)).
  rewrite (sorted_copy_run descending a sel) by done.
  fold order. simpl.
  rewrite (bind_Returned _ _ _ _ _
             (for_of_removePage order doc _ Hsorted Hr')).
  rewrite PDFDocument_save_run. simpl.
  by rewrite <-!app_assoc.
Qed.

(** A buffer that does not parse makes the call throw right after the load:
    no output is produced. *)
Lemma removePagesAndSave_parse_error (f : File) (a : nat) (w : World) :
  pdf_load (file_content f) = None →
  removePagesAndSave f a w =
    (mkWorld (app w) (arrays w) (events w ++ [EvPdfLoad (file_content f)]),
     Thrown ParseError).
Proof.
  intros Hload. unfold removePagesAndSave.
  by rewrite (bind_Thrown _ _ _ _ _ (PDFDocument_load_fail _ _ Hload)).
Qed.

(** C1. For an N-page document and a set [sel] of distinct in-range page
    indices, [removePagesAndSave] loads the document from the bytes, calls
    [removePage] on the members of [sel] in strictly descending order and
    returns the bytes of a document.  When [sel] leaves a page, that
    document has exactly [N - |sel|] pages, the original pages in their
    order with the members of [sel] excised; when [sel] is every page, it
    has one page, the blank page that [save()] adds. *)
Theorem removePages_excises (f : File) (doc : PDFDocument) (a : nat)
    (sel : list nat) (w : World) :
  pdf_load (file_content f) = Some doc →
  arrays w !! a = Some sel →
  NoDup sel →
  Forall (λ i, i < length (doc_pages doc)) sel →
  ∃ (order : list nat) (w' : World) (out : bytes) (kept : list Page)
    (rest : Rest),
    removePagesAndSave f a w = (w', Returned out) ∧
    events w' = events w ++ [EvPdfLoad (file_content f)] ++
                  (EvRemovePage <$> order) ++ [EvPdfSave] ∧
    order ≡ₚ sel ∧
    strictly_descending order ∧
    pdf_load out = Some (mkDoc kept rest) ∧
    (length sel < length (doc_pages doc) →
     kept = excise sel (doc_pages doc) ∧
     length kept = length (doc_pages doc) - length sel) ∧
    (length sel = length (doc_pages doc) → kept = [blank_page]).
Proof.
  intros Hload Ha Hnd Hr.
  destruct (removePagesAndSave_run f doc a sel w Hload Ha Hnd Hr)
    as (Hrun & Hpages & Hlen).
  destruct (sort_descending_spec sel Hnd) as [Hperm Hsorted].
  destruct (save_loads (removeAll (merge_sort (cmp_le descending) sel) doc))
    as [rest Hrest].
  rewrite Hpages in Hrest.
  eexists _, _, _, _, rest. split; [exact Hrun|]. simpl.
  split; [done|]. split; [done|]. split; [done|]. split; [exact Hrest|].
  split.
  - intros Hlt.
    destruct (excise sel (doc_pages doc)) as [|p ps] eqn:He;
      [simpl in Hlen; lia|].
    split; [done|exact Hlen].
  - intros Heq.
    destruct (excise sel (doc_pages doc)) as [|p ps] eqn:He; [done|].
    simpl in Hlen. lia.
Qed.
End PageMutator.

Lemma removePages_excises_witness :
  ∃ (order : list nat) (w' : World) (out : bytes) (kept : list byte)
    (rest : ()),
    removePagesAndSave (H := Toy.toyPdfLib) Toy.doc5 0
        (Toy.worldWith [1; 3; 0]) = (w', Returned out) ∧
    events w' = [EvPdfLoad [x00; x01; x02; x03; x04]] ++
                  (EvRemovePage <$> order) ++ [EvPdfSave] ∧
    order ≡ₚ [1; 3; 0] ∧
    strictly_descending order ∧
    Toy.toy_load out = Some (mkDoc kept rest) ∧
    (3 < 5 → kept = [x02; x04] ∧ length kept = 5 - 3) ∧
    (3 = 5 → kept = [x20]).
Proof.
  apply (removePages_excises (H := Toy.toyPdfLib) Toy.doc5
           (mkDoc [x00; x01; x02; x03; x04] ()) 0
           [1; 3; 0] (Toy.worldWith [1; 3; 0])).
  - reflexivity.
  - reflexivity.
  - apply (bool_decide_unpack _). vm_compute. exact I.
  - repeat constructor; simpl; lia.
Defined.

(** Removing every page of a five-page document: the indices are distinct
    and in range, and the file that comes back has one page, not
    [5 - 5 = 0]. *)
Lemma removePages_every_page_leaves_one :
  let sel := [0; 1; 2; 3; 4] in
  let r := removePagesAndSave (H := Toy.toyPdfLib) Toy.doc5 0
             (Toy.worldWith sel) in
  NoDup sel ∧ Forall (λ i, i < 5) sel ∧
  r.2 = Returned [x20] ∧
  pdf_load (PdfLib := Toy.toyPdfLib) [x20] = Some (mkDoc [x20] ()) ∧
  length [x20] ≠ 5 - length sel.
Proof.
  split; [apply (bool_decide_unpack _); vm_compute; exact I|].
  split; [repeat constructor; simpl; lia|].
  split; [vm_compute; reflexivity|].
  split; [reflexivity|]. simpl. lia.
Qed.

(** Removing the empty selection keeps every page in place. *)
Example removePages_nothing :
  (removePagesAndSave (H := Toy.toyPdfLib) Toy.doc5 0 (Toy.worldWith [])).2
    = Returned [x00; x01; x02; x03; x04].
Proof. vm_compute. reflexivity. Qed.

(** An index out of range makes the call throw after the load. *)
Example removePages_out_of_range :
  removePagesAndSave (H := Toy.toyPdfLib) Toy.doc5 0 (Toy.worldWith [1; 7])
    = (mkWorld initialApp {[0 := [1; 7]; 1 := [7; 1]]}
         [EvPdfLoad [x00; x01; x02; x03; x04]; EvRemovePage 7],
       Thrown RangeError).
Proof. vm_compute. reflexivity. Qed.

(** ** C2: extracting pages *)

Section Extraction.
Context `{PdfLib}.

Lemma copyPages_one_run (dst src : PDFDocument) (i : nat) (p : Page)
    (w : World) :
  doc_pages src !! i = Some p →
  copyPages dst src [i] w =
    (mkWorld (app w) (arrays w) (events w ++ [EvCopyPages [i]]),
     Returned (copied dst src [i], [p])).
Proof.
  intros Hi. unfold copyPages.
  rewrite (bind_Returned _ _ _ _ _ (emit_run _ _)). simpl. by rewrite Hi.
Qed.

(** Copying and appending the pages at [idxs] appends those pages. *)
Lemma extracted_pages (src : PDFDocument) (idxs : list nat)
    (out : list Page) (dst : PDFDocument) :
  pages_at (doc_pages src) idxs out →
  doc_pages (extracted src idxs dst) = doc_pages dst ++ out.
Proof.
  intros Hat. revert dst.
  induction Hat as [|i p idxs out Hi Hat IH]; intros dst.
  - simpl. by rewrite app_nil_r.
  - unfold extracted in *. simpl. rewrite Hi, IH. simpl.
    by rewrite <-app_assoc.
Qed.

Lemma for_of_copy (src : PDFDocument) (idxs : list nat) (out : list Page)
    (doc : PDFDocument) (w : World) :
  pages_at (doc_pages src) idxs out →
  for_of idxs doc (λ doc idx,
      r ←, copyPages doc src [idx];
      match r.2 with
      | copiedPage :: _ => addPage r.1 copiedPage
      | [] => throw TypeError
      end) w =
    (mkWorld (app w) (arrays w) (events w ++ copy_events idxs),
     Returned (extracted src idxs doc)).
Proof.
  intros Hat. revert doc w.
  induction Hat as [|i p idxs out Hi Hat IH]; intros doc w.
  - simpl. unfold ret, copy_events. simpl.
    by rewrite !app_nil_r, world_eta.
  - rewrite for_of_cons.
    erewrite bind_Returned; last first.
    { erewrite bind_Returned; [|by apply copyPages_one_run]. reflexivity. }
    rewrite IH. simpl. unfold copy_events, extracted. simpl. rewrite Hi.
    by rewrite <-!app_assoc.
Qed.

Lemma pages_at_exists (src : list Page) (idxs : list nat) :
  Forall (λ i, i < length src) idxs → ∃ out, pages_at src idxs out.
Proof.
  induction 1 as [|i idxs Hi _ [out IH]]; [by exists []; constructor|].
  apply lookup_lt_is_Some in Hi as [p Hp].
  exists (p :: out). by constructor.
Qed.

Lemma pages_at_length (src : list Page) (idxs : list nat) (out : list Page) :
  pages_at src idxs out → length out = length idxs.
Proof. intros Hat. symmetry. by eapply Forall2_length. Qed.

Lemma extractPagesAndSave_run (f : File) (doc : PDFDocument)
    (out : list Page) (a : nat) (sel : list nat) (w : World) :
  pdf_load (file_content f) = Some doc →
  arrays w !! a = Some sel →
  let order := merge_sort (cmp_le ascending) sel in
  pages_at (doc_pages doc) order out →
  extractPagesAndSave f a w =
    (mkWorld (app w) (<[fresh (dom (arrays w)) := order]> (arrays w))
       (events w ++ [EvPdfLoad (file_content f); EvPdfCreate] ++
          copy_events order ++ [EvPdfSave]),
     Returned (pdf_save (withDefaultPage
                 (extracted doc order (mkDoc [] rest_create))))) ∧
  doc_pages (extracted doc order (mkDoc [] rest_create)) = out.
Proof.
  intros Hload Ha order Hat.
  split; [|by rewrite (extracted_pages _ _ out)].
  unfold extractPagesAndSave.
  rewrite (bind_Returned _ _ _ _ _ (PDFDocument_load_run _ _ _ Hload)).
  unfold PDFDocument_create.
  erewrite bind_Returned; last first.
  { erewrite bind_Returned; [|apply emit_run]. reflexivity. }
  rewrite (sorted_copy_run ascending a sel) by done. fold order.
  rewrite (bind_Returned _ _ _ _ _ (for_of_copy _ _ _ _ _ Hat)).
  rewrite PDFDocument_save_run. simpl.
  by rewrite <-!app_assoc.
Qed.

(** C2. For a set [sel] of distinct in-range page indices, supplied in any
    order, [extractPagesAndSave] returns the bytes of a document.  When
    [sel] is not empty that document has exactly [|sel|] pages, the pages at
    the members of [sel] taken in ascending order of index, and a call with
    the same indices in another order returns a document with the same
    pages; when [sel] is empty the document has one page, the blank page
    that [save()] adds. *)
Theorem extractPages_ascending (f : File) (doc : PDFDocument) (a : nat)
    (sel : list nat) (w : World) :
  pdf_load (file_content f) = Some doc →
  arrays w !! a = Some sel →
  NoDup sel →
  Forall (λ i, i < length (doc_pages doc)) sel →
  ∃ (order : list nat) (w' : World) (out : bytes) (kept : list Page)
    (rest : Rest),
    extractPagesAndSave f a w = (w', Returned out) ∧
    order ≡ₚ sel ∧
    strictly_ascending order ∧
    pdf_load out = Some (mkDoc kept rest) ∧
    (sel ≠ [] →
     pages_at (doc_pages doc) order kept ∧ length kept = length sel) ∧
    (sel = [] → kept = [blank_page]) ∧
    ∀ (sel' : list nat) (a' : nat) (w2 : World),
      sel' ≡ₚ sel → arrays w2 !! a' = Some sel' →
      ∃ (out' : bytes) (rest' : Rest),
        (extractPagesAndSave f a' w2).2 = Returned out' ∧
        pdf_load out' = Some (mkDoc kept rest').
Proof.
  intros Hload Ha Hnd Hr.
  destruct (sort_ascending_spec sel Hnd) as [Hperm Hsorted].
  destruct (pages_at_exists (doc_pages doc)
              (merge_sort (cmp_le ascending) sel))
    as [got Hat]; [by rewrite Hperm|].
  destruct (extractPagesAndSave_run f doc got a sel w Hload Ha Hat)
    as [Hrun Hpages].
  destruct (save_loads
              (extracted doc (merge_sort (cmp_le ascending) sel)
                 (mkDoc [] rest_create))) as [rest Hrest].
  rewrite Hpages in Hrest.
  assert (Hlen : length got = length sel).
  { by rewrite (pages_at_length _ _ _ Hat), Hperm. }
  exists (merge_sort (cmp_le ascending) sel). eexists _, _, _, rest.
  split; [exact Hrun|]. split; [done|]. split; [done|].
  split; [exact Hrest|]. split; [|split].
  - intros Hne. destruct got as [|p ps]; [|done].
    destruct sel; [done|simpl in Hlen; lia].
  - intros ->. by destruct got.
  - intros sel' a' w2 Hp Ha'.
    assert (Hat' : pages_at (doc_pages doc)
                     (merge_sort (cmp_le ascending) sel') got).
    { by rewrite (sort_ascending_perm sel' sel). }
    destruct (extractPagesAndSave_run f doc got a' sel' w2 Hload Ha' Hat')
      as [Hrun' Hpages'].
    destruct (save_loads
                (extracted doc (merge_sort (cmp_le ascending) sel')
                   (mkDoc [] rest_create))) as [rest' Hrest'].
    rewrite Hpages' in Hrest'.
    eexists _, rest'. rewrite Hrun'. split; [done|exact Hrest'].
Qed.
End Extraction.

Lemma extractPages_ascending_witness :
  ∃ (order : list nat) (w' : World) (out : bytes) (kept : list byte)
    (rest : ()),
    extractPagesAndSave (H := Toy.toyPdfLib) Toy.doc5 0
        (Toy.worldWith [3; 0; 1]) = (w', Returned out) ∧
    order ≡ₚ [3; 0; 1] ∧
    strictly_ascending order ∧
    Toy.toy_load out = Some (mkDoc kept rest) ∧
    ([3; 0; 1] ≠ [] →
     pages_at [x00; x01; x02; x03; x04] order kept ∧ length kept = 3) ∧
    ([3; 0; 1] = [] → kept = [x20]) ∧
    ∀ (sel' : list nat) (a' : nat) (w2 : World),
      sel' ≡ₚ [3; 0; 1] → arrays w2 !! a' = Some sel' →
      ∃ (out' : bytes) (rest' : ()),
        (extractPagesAndSave (H := Toy.toyPdfLib) Toy.doc5 a' w2).2 =
          Returned out' ∧
        Toy.toy_load out' = Some (mkDoc kept rest').
Proof.
  apply (extractPages_ascending (H := Toy.toyPdfLib) Toy.doc5
           (mkDoc [x00; x01; x02; x03; x04] ()) 0 [3; 0; 1]
           (Toy.worldWith [3; 0; 1])).
  - reflexivity.
  - reflexivity.
  - apply (bool_decide_unpack _). vm_compute. exact I.
  - repeat constructor; simpl; lia.
Defined.

(** Extracting no page of a five-page document: the file that comes back has
    one page, not [|sel| = 0]. *)
Lemma extractPages_nothing_gives_one_page :
  let sel : list nat := [] in
  let r := extractPagesAndSave (H := Toy.toyPdfLib) Toy.doc5 0
             (Toy.worldWith sel) in
  NoDup sel ∧ Forall (λ i, i < 5) sel ∧
  r.2 = Returned [x20] ∧
  pdf_load (PdfLib := Toy.toyPdfLib) [x20] = Some (mkDoc [x20] ()) ∧
  length [x20] ≠ length sel.
Proof.
  split; [constructor|]. split; [constructor|].
  split; [vm_compute; reflexivity|].
  split; [reflexivity|]. simpl. lia.
Qed.

(** The example of the specification: indices [3, 0, 1] of a five-page
    document give its pages 0, 1 and 3, in that order. *)
Example extractPages_3_0_1 :
  (extractPagesAndSave (H := Toy.toyPdfLib) Toy.doc5 0
     (Toy.worldWith [3; 0; 1])).2 = Returned [x00; x01; x03].
Proof. vm_compute. reflexivity. Qed.

(** ** C3: merging documents *)

Section Merging.
Context `{PdfLib}.

Lemma mapM_lookup_seq (doc : list Page) :
  mapM (λ i, doc !! i) (seq 0 (length doc)) = Some doc.
Proof.
  apply mapM_Some. apply Forall2_lookup. intros i.
  destruct (decide (i < length doc)) as [Hi|Hi].
  - rewrite lookup_seq_lt by done. simpl.
    destruct (lookup_lt_is_Some_2 doc i Hi) as [p Hp].
    rewrite Hp. by constructor.
  - rewrite lookup_seq_ge by lia.
    rewrite (lookup_ge_None_2 doc i) by lia. constructor.
Qed.

Lemma copyPages_all_run (dst pdf : PDFDocument) (w : World) :
  copyPages dst pdf (getPageIndices pdf) w =
    (mkWorld (app w) (arrays w)
       (events w ++ [EvCopyPages (getPageIndices pdf)]),
     Returned (copied dst pdf (getPageIndices pdf), doc_pages pdf)).
Proof.
  unfold copyPages. rewrite (bind_Returned _ _ _ _ _ (emit_run _ _)).
  unfold getPageIndices. by rewrite mapM_lookup_seq.
Qed.

Lemma foldl_added_pages (ps : list Page) (doc : PDFDocument) :
  doc_pages (foldl added doc ps) = doc_pages doc ++ ps.
Proof.
  revert doc. induction ps as [|p ps IH]; intros doc.
  - simpl. by rewrite app_nil_r.
  - simpl. rewrite IH. simpl. by rewrite <-app_assoc.
Qed.

Lemma for_of_addPage (ps : list Page) (doc : PDFDocument) (w : World) :
  for_of ps doc addPage w =
    (mkWorld (app w) (arrays w) (events w ++ (const EvAddPage <$> ps)),
     Returned (foldl added doc ps)).
Proof.
  revert doc w. induction ps as [|p ps IH]; intros doc w.
  - simpl. unfold ret. by rewrite !app_nil_r, world_eta.
  - rewrite for_of_cons. unfold addPage at 1.
    erewrite bind_Returned; last first.
    { erewrite bind_Returned; [|apply emit_run]. reflexivity. }
    rewrite IH. simpl. by rewrite <-!app_assoc.
Qed.

(** Merging appends the pages of the inputs, each in its own order, in list
    order. *)
Lemma mergedWith_pages (docs : list PDFDocument) (merged : PDFDocument) :
  doc_pages (mergedWith docs merged)
    = doc_pages merged ++ concat (doc_pages <$> docs).
Proof.
  revert merged. induction docs as [|d docs IH]; intros merged.
  - simpl. by rewrite app_nil_r.
  - unfold mergedWith in *. simpl. rewrite IH, foldl_added_pages. simpl.
    by rewrite <-app_assoc.
Qed.

Lemma for_of_merge (files : list File) (docs : list PDFDocument)
    (merged : PDFDocument) (w : World) :
  Forall2 (λ f d, pdf_load (file_content f) = Some d) files docs →
  for_of files merged (λ merged f,
      let arrayBuffer := file_content f in
      pdf ←, PDFDocument_load arrayBuffer;
      r ←, copyPages merged pdf (getPageIndices pdf);
      for_of r.2 r.1 addPage) w =
    (mkWorld (app w) (arrays w) (events w ++ merge_events files docs),
     Returned (mergedWith docs merged)).
Proof.
  intros Hall. revert merged w.
  induction Hall as [|f d files docs Hf Hall IH]; intros merged w.
  - simpl. unfold ret. by rewrite !app_nil_r, world_eta.
  - rewrite for_of_cons.
    erewrite bind_Returned; last first.
    { simpl.
      rewrite (bind_Returned _ _ _ _ _ (PDFDocument_load_run _ _ _ Hf)).
      rewrite (bind_Returned _ _ _ _ _ (copyPages_all_run _ _ _)).
      apply for_of_addPage. }
    rewrite IH. simpl. by rewrite <-!app_assoc.
Qed.

Lemma length_concat_sum (docs : list (list Page)) :
  length (concat docs) = sum_list (length <$> docs).
Proof.
  induction docs as [|d docs IH]; [done|].
  simpl. by rewrite length_app, IH.
Qed.

Lemma mergePdfs_run (files : list File) (docs : list PDFDocument)
    (w : World) :
  Forall2 (λ f d, pdf_load (file_content f) = Some d) files docs →
  mergePdfs files w =
    (mkWorld (app w) (arrays w)
       (events w ++ [EvPdfCreate] ++ merge_events files docs ++ [EvPdfSave]),
     Returned (pdf_save (withDefaultPage
                 (mergedWith docs (mkDoc [] rest_create))))).
Proof.
  intros Hall. unfold mergePdfs, PDFDocument_create.
  erewrite bind_Returned; last first.
  { erewrite bind_Returned; [|apply emit_run]. reflexivity. }
  rewrite (bind_Returned _ _ _ _ _ (for_of_merge _ _ _ _ Hall)).
  rewrite PDFDocument_save_run. simpl. by rewrite <-!app_assoc.
Qed.

(** C3. For an ordered list of parseable input documents, [mergePdfs]
    returns the bytes of a document.  When the inputs have a page, the pages
    of that document are the concatenation of the inputs' pages, each input
    in its own page order, in list order, and its page count is the sum of
    the inputs' page counts; when they have none, the document has one
    page, the blank page that [save()] adds. *)
Theorem mergePdfs_concat (files : list File) (docs : list PDFDocument)
    (w : World) :
  Forall2 (λ f d, pdf_load (file_content f) = Some d) files docs →
  ∃ (w' : World) (out : bytes) (kept : list Page) (rest : Rest),
    mergePdfs files w = (w', Returned out) ∧
    pdf_load out = Some (mkDoc kept rest) ∧
    (concat (doc_pages <$> docs) ≠ [] →
     kept = concat (doc_pages <$> docs) ∧
     length kept = sum_list ((λ d, length (doc_pages d)) <$> docs)) ∧
    (concat (doc_pages <$> docs) = [] → kept = [blank_page]).
Proof.
  intros Hall.
  destruct (save_loads (mergedWith docs (mkDoc [] rest_create)))
    as [rest Hrest].
  rewrite mergedWith_pages in Hrest. simpl in Hrest.
  eexists _, _, _, rest. split; [by apply mergePdfs_run|].
  split; [exact Hrest|]. split.
  - intros Hne.
    assert (Hsum : length (concat (doc_pages <$> docs))
                   = sum_list ((λ d, length (doc_pages d)) <$> docs)).
    { by rewrite length_concat_sum, <-list_fmap_compose. }
    destruct (concat (doc_pages <$> docs)) as [|p ps]; [done|].
    split; [done|exact Hsum].
  - by intros ->.
Qed.
End Merging.

Lemma mergePdfs_concat_witness :
  ∃ (w' : World) (out : bytes) (kept : list byte) (rest : ()),
    mergePdfs (H := Toy.toyPdfLib) [Toy.docA; Toy.docB] initialWorld =
      (w', Returned out) ∧
    Toy.toy_load out = Some (mkDoc kept rest) ∧
    ([x0a; x0b; x10; x11; x12] ≠ [] →
     kept = [x0a; x0b; x10; x11; x12] ∧ length kept = 2 + (3 + 0)) ∧
    ([x0a; x0b; x10; x11; x12] = [] → kept = [x20]).
Proof.
  apply (mergePdfs_concat (H := Toy.toyPdfLib) [Toy.docA; Toy.docB]
           [mkDoc [x0a; x0b] (); mkDoc [x10; x11; x12] ()] initialWorld).
  repeat constructor.
Defined.

(** Merging the empty list of documents: the file that comes back has one
    page, while the page counts of the inputs add up to 0. *)
Lemma mergePdfs_of_nothing_gives_one_page :
  let r := mergePdfs (H := Toy.toyPdfLib) [] initialWorld in
  r.2 = Returned [x20] ∧
  pdf_load (PdfLib := Toy.toyPdfLib) [x20] = Some (mkDoc [x20] ()) ∧
  length [x20] ≠ sum_list (length <$> ([] : list (list byte))).
Proof.
  split; [vm_compute; reflexivity|].
  split; [reflexivity|]. simpl. lia.
Qed.

(** ** C5: writing to an acquired handle *)

(** [writePdfToHandle] touches the event log only. *)
Lemma writePdfToHandle_frame (handle : FileHandle) (data : bytes)
    (w : World) :
  app (writePdfToHandle handle data w).1 = app w.
Proof.
  unfold writePdfToHandle, createWritable, write, close, bind, emit, ret,
    throw.
  simpl. destruct (createWritable_result handle) as [writable|e]; simpl;
    [|done].
  destruct (write_result writable) as [[]|e]; simpl; [|done].
  by destruct (close_result writable) as [[]|e].
Qed.

(** C5. With an acquired handle, [writePdfToHandle] opens a write stream,
    writes the full output and then closes the stream; when the write throws,
    the error propagates and the stream is not closed (and when no stream can
    be opened nothing is written). *)
Theorem writePdfToHandle_trace (handle : FileHandle) (data : bytes)
    (w : World) :
  let r := writePdfToHandle handle data w in
  app r.1 = app w ∧ arrays r.1 = arrays w ∧
  match createWritable_result handle with
  | Thrown e =>
      events r.1 = events w ++ [EvCreateWritable] ∧ r.2 = Thrown e
  | Returned writable =>
      match write_result writable with
      | Thrown e =>
          events r.1 = events w ++ [EvCreateWritable; EvWrite data] ∧
          r.2 = Thrown e
      | Returned _ =>
          events r.1 =
            events w ++ [EvCreateWritable; EvWrite data; EvClose] ∧
          r.2 = close_result writable
      end
  end.
Proof.
  unfold writePdfToHandle, createWritable, write, close, bind, emit, ret,
    throw.
  simpl. destruct (createWritable_result handle) as [writable|e]; simpl.
  - destruct (write_result writable) as [[]|e]; simpl.
    + destruct (close_result writable) as [[]|e]; simpl;
        by rewrite <-!app_assoc.
    + by rewrite <-!app_assoc.
  - done.
Qed.

(** The stream is not closed when the write throws. *)
Lemma writePdfToHandle_leaves_stream_open :
  let r := writePdfToHandle (mkHandle (Returned Toy.failingWritable)) [x25]
             initialWorld in
  r.2 = Thrown (mkError "QuotaExceededError" "") ∧
  EvCreateWritable ∈ events r.1 ∧
  ¬ EvClose ∈ events r.1.
Proof.
  vm_compute. split; [reflexivity|]. split.
  - apply list_elem_of_here.
  - intros Hin. repeat (apply elem_of_cons in Hin as [Hin|Hin]; [discriminate|]).
    by apply elem_of_nil in Hin.
Qed.

(** ** C4 and C9: the save coordinator and the picker *)

Section SaveCoordinator.
Context `{PdfLib}.

Lemma getSaveFileHandle_cancelled (b : Browser) (name : string) (e : JsError)
    (w : World) :
  has_showSaveFilePicker b = true →
  showSaveFilePicker_result b = Thrown e →
  err_name e = "AbortError" →
  getSaveFileHandle b name w =
    (mkWorld (app w) (arrays w)
       (events w ++ [EvShowSaveFilePicker (fullFilename name)]),
     Thrown e).
Proof.
  intros Hcap Hres Hname.
  unfold getSaveFileHandle, supportsFileSystem, try_catch, showSaveFilePicker,
    bind, emit.
  rewrite Hcap, Hres. simpl. by rewrite decide_True.
Qed.


(** C4. When the picker is shown and the user cancels it, the save action
    ends there: the only effects of [handleConfirmSave] are closing the modal
    and the picker itself, so the page mutator is not invoked, nothing is
    written and nothing is downloaded. *)
Theorem cancel_stops_save (b : Browser) (st : AppState) (f : File)
    (e : JsError) (w : World) :
  file st = Some f →
  has_showSaveFilePicker b = true →
  showSaveFilePicker_result b = Thrown e →
  err_name e = "AbortError" →
  handleConfirmSave b st w =
    (mkWorld (closeModal (app w)) (arrays w)
       (events w ++
          [EvShowSaveFilePicker (fullFilename (outputFilename st))]),
     Returned ()).
Proof.
  intros Hf Hcap Hres Hname.
  unfold handleConfirmSave, handleConfirmSave_acquire. rewrite Hf.
  unfold supportsFileSystem at 1. rewrite Hcap.
  unfold bind at 1. unfold bind at 1. unfold setShowSaveModal, setState.
  unfold bind at 1. unfold try_catch, bind at 1.
  rewrite (getSaveFileHandle_cancelled b _ e) by done.
  by rewrite decide_True.
Qed.


Lemma handleConfirmSave_no_capability (b : Browser) (st : AppState)
    (f : File) (w : World) :
  file st = Some f →
  has_showSaveFilePicker b = false →
  handleConfirmSave b st w =
    handleConfirmSave_process st f None
      (mkWorld (startProcessing (closeModal (app w))) (arrays w) (events w)).
Proof.
  intros Hf Hcap.
  unfold handleConfirmSave, handleConfirmSave_acquire. rewrite Hf.
  unfold supportsFileSystem at 1. by rewrite Hcap.
Qed.


End SaveCoordinator.
Lemma cancel_stops_save_witness :
  handleConfirmSave (H := Toy.toyPdfLib) Toy.pickerCancelled
      Toy.confirming Toy.confirmingWorld =
    (mkWorld (closeModal Toy.confirming) ∅ [EvShowSaveFilePicker "out.pdf"],
     Returned ()).
Proof.
  apply (cancel_stops_save (H := Toy.toyPdfLib) Toy.pickerCancelled
           Toy.confirming Toy.doc5 Toy.AbortError Toy.confirmingWorld);
    reflexivity.
Defined.


(** With a granted handle the output goes through the write stream; without
    the capability it is downloaded. *)
Example save_to_granted_handle :
  events (handleConfirmSave (H := Toy.toyPdfLib) Toy.pickerGranted
            Toy.confirming Toy.confirmingWorld).1
    = [EvShowSaveFilePicker "out.pdf"; EvPdfLoad [x00; x01; x02; x03; x04];
       EvRemovePage 3; EvRemovePage 1; EvPdfSave;
       EvCreateWritable; EvWrite [x00; x02; x04]; EvClose].
Proof. vm_compute. reflexivity. Qed.

Example save_without_capability :
  events (handleConfirmSave (H := Toy.toyPdfLib) Toy.noPicker
            Toy.confirming Toy.confirmingWorld).1
    = [EvPdfLoad [x00; x01; x02; x03; x04];
       EvRemovePage 3; EvRemovePage 1; EvPdfSave;
       EvDownload [x00; x02; x04] "out.pdf"].
Proof. vm_compute. reflexivity. Qed.

(** ** C7: thumbnails *)

Section Thumbnails.
Context `{PdfJs}.

Lemma getDocument_run (data : bytes) (w : World) :
  getDocument data w =
    (mkWorld (app w) (arrays w) (events w ++ [EvGetDocument data]),
     pdfjs_open data).
Proof.
  unfold getDocument. rewrite (bind_Returned _ _ _ _ _ (emit_run _ _)).
  by destruct (pdfjs_open data).
Qed.

(** The loop of [generateThumbnails] from page [k + 1] on, when every
    remaining page gets a context and renders. *)
Lemma for_of_thumbnails (b : Browser) (total : nat)
    (done_ rest : list PageProxy) (acc : list PageThumbnail) (w : World) :
  (∀ i, length done_ < i ≤ length done_ + length rest →
        getContext_2d b i = true) →
  Forall (λ page, ∃ dataUrl, render_result page = Returned dataUrl) rest →
  ∃ thumbs : list PageThumbnail,
    for_of (seq (S (length done_)) (length rest)) acc (λ thumbnails i,
      page ←, getPage (done_ ++ rest) i;
      if getContext_2d b i then
        dataUrl ←, render page i;
        let thumbnails' :=
          thumbnails ++ [mkThumb (i - 1) dataUrl
                           (viewport_width page) (viewport_height page)] in
        emit (EvProgress i total);,
        ret thumbnails'
      else ret thumbnails) w =
    (mkWorld (app w) (arrays w)
       (events w ++ progress_events total (S (length done_)) (length rest)),
     Returned (acc ++ thumbs)) ∧
    index <$> thumbs = seq (length done_) (length rest).
Proof.
  revert done_ acc w.
  induction rest as [|page rest IH]; intros done_ acc w Hctx Hren.
  - exists []. simpl. unfold ret, progress_events. simpl.
    by rewrite !app_nil_r, world_eta.
  - apply Forall_cons in Hren as [[dataUrl Hpage] Hren].
    destruct (IH (done_ ++ [page])
      (acc ++ [mkThumb (length done_) dataUrl
                 (viewport_width page) (viewport_height page)])
      (mkWorld (app w) (arrays w)
         (events w ++ [EvRender (S (length done_));
                       EvProgress (S (length done_)) total])))
      as (thumbs & Hrun & Hidx).
    { intros i Hi. apply Hctx. rewrite length_app in Hi. simpl in *. lia. }
    { done. }
    rewrite length_app in Hrun, Hidx. simpl in Hrun, Hidx.
    replace (length done_ + 1) with (S (length done_)) in Hrun, Hidx by lia.
    rewrite <-(assoc_L (++)) in Hrun. simpl in Hrun.
    eexists (_ :: thumbs). split.
    + simpl length. rewrite <-cons_seq, for_of_cons.
      erewrite bind_Returned; last first.
      { unfold getPage. rewrite lookup_app_r by lia.
        replace (length done_ - length done_) with 0 by lia. simpl.
        unfold bind at 1. unfold ret at 1.
        rewrite Hctx by (simpl; lia).
        unfold render. unfold bind at 1. unfold bind at 1. rewrite emit_run.
        rewrite Hpage. unfold ret at 1. unfold bind. rewrite emit_run.
        simpl. unfold ret. reflexivity. }
      rewrite <-(assoc_L (++) (events w)). simpl. rewrite Nat.sub_0_r.
      rewrite Hrun. unfold progress_events. simpl.
      rewrite <-!(assoc_L (++)). simpl. reflexivity.
    + by rewrite fmap_cons, Hidx.
Qed.

(** C7. When a document opens with N pages, a 2D context is obtained for
    every page and every page renders, [generateThumbnails] returns exactly N
    thumbnails with indices 0..N-1 in ascending order, and calls
    [onProgress(i, N)] after page [i] has been rendered, for i = 1..N; when
    the document does not open, the rejection is propagated, no thumbnail is
    produced and [onProgress] is not called. *)
Theorem generateThumbnails_complete (b : Browser) (f : File) (w : World) :
  let run := generateThumbnails b f (λ current total,
               emit (EvProgress current total)) w in
  (∀ pdf : list PageProxy,
     pdfjs_open (file_content f) = Returned pdf →
     (∀ i, 1 ≤ i ≤ length pdf → getContext_2d b i = true) →
     Forall (λ page, ∃ dataUrl, render_result page = Returned dataUrl) pdf →
     ∃ thumbs : list PageThumbnail,
       run.2 = Returned thumbs ∧
       length thumbs = length pdf ∧
       index <$> thumbs = seq 0 (length pdf) ∧
       events run.1 =
         events w ++ [EvGetDocument (file_content f)] ++
           progress_events (length pdf) 1 (length pdf)) ∧
  (∀ e : JsError,
     pdfjs_open (file_content f) = Thrown e →
     run = (mkWorld (app w) (arrays w)
              (events w ++ [EvGetDocument (file_content f)]),
            Thrown e)).
Proof.
  intros run. subst run. unfold generateThumbnails. split.
  - intros pdf Hopen Hctx Hren.
    destruct (for_of_thumbnails b (length pdf) [] pdf []
      (mkWorld (app w) (arrays w)
         (events w ++ [EvGetDocument (file_content f)])))
      as (thumbs & Hrun & Hidx).
    { intros i Hi. apply Hctx. simpl in Hi. lia. }
    { done. }
    exists thumbs.
    erewrite bind_Returned; last first.
    { rewrite getDocument_run, Hopen. reflexivity. }
    simpl in Hrun, Hidx. rewrite Hrun. simpl.
    split; [done|]. split; [|split; [done|]].
    + by rewrite <-(length_fmap index), Hidx, length_seq.
    + by rewrite <-(assoc_L (++)).
  - intros e Hopen.
    erewrite bind_Thrown; [reflexivity|].
    by rewrite getDocument_run, Hopen.
Qed.
End Thumbnails.

Lemma generateThumbnails_complete_witness :
  let run := generateThumbnails (H := Toy.toyPdfJs) Toy.noPicker Toy.doc5
               (λ current total, emit (EvProgress current total))
               initialWorld in
  ∃ thumbs : list PageThumbnail,
    run.2 = Returned thumbs ∧
    length thumbs = 5 ∧
    index <$> thumbs = [0; 1; 2; 3; 4] ∧
    events run.1 =
      [EvGetDocument [x00; x01; x02; x03; x04];
       EvRender 1; EvProgress 1 5; EvRender 2; EvProgress 2 5;
       EvRender 3; EvProgress 3 5; EvRender 4; EvProgress 4 5;
       EvRender 5; EvProgress 5 5].
Proof.
  refine (proj1 (generateThumbnails_complete (H := Toy.toyPdfJs) Toy.noPicker
                   Toy.doc5 initialWorld)
            (Toy.toyPage <$> [x00; x01; x02; x03; x04]) eq_refl _ _).
  - intros i _. reflexivity.
  - repeat constructor; by eexists.
Defined.

(** Without a 2D context the page is skipped: an open document of five pages
    yields no thumbnail and no progress call. *)
Lemma generateThumbnails_skips_pages :
  let run := generateThumbnails (H := Toy.toyPdfJs) Toy.noCanvasContext
               Toy.doc5 (λ current total, emit (EvProgress current total))
               initialWorld in
  (∃ pdf, pdfjs_open (PdfJs := Toy.toyPdfJs) (file_content Toy.doc5)
            = Returned pdf ∧ length pdf = 5) ∧
  run.2 = Returned [] ∧
  events run.1 = [EvGetDocument [x00; x01; x02; x03; x04]] ∧
  ¬ (∃ thumbs, run.2 = Returned thumbs ∧ length thumbs = 5).
Proof.
  vm_compute. split; [eexists; split; reflexivity|].
  split; [reflexivity|]. split; [reflexivity|].
  intros (thumbs & Hrun & Hlen). injection Hrun as <-. discriminate.
Qed.

(** ** C8: range selection *)

Lemma elem_of_foldl_add (l : list nat) (prev : gset nat) (i : nat) :
  i ∈ foldl (λ newSet j, {[j]} ∪ newSet) prev l ↔ i ∈ prev ∨ i ∈ l.
Proof.
  revert prev. induction l as [|j l IH]; intros prev; simpl.
  - split; [by left|]. by intros [?|?%elem_of_nil].
  - rewrite IH, elem_of_union, elem_of_singleton, elem_of_cons. tauto.
Qed.

Lemma elem_of_addRange (start end_ : nat) (prev : gset nat) (i : nat) :
  i ∈ addRange start end_ prev ↔ i ∈ prev ∨ start ≤ i ≤ end_.
Proof.
  unfold addRange. rewrite elem_of_foldl_add, elem_of_seq.
  split; (intros [?|?]; [by left|right; lia]).
Qed.

(** C8. With a last-touched index, a shift-click on [idx] makes the
    selection the former selection together with every index of the
    inclusive span between the last-touched index and [idx], in either
    direction; from the empty selection, a click on 2 and a shift-click on 5
    give exactly {2,3,4,5}, and a further shift-click on 0 gives
    {0,1,2,3,4,5}. *)
Theorem extendRange_additive (last idx : nat) (w : World) :
  lastSelectedIndex (app w) = Some last →
  (∀ i, i ∈ selectedIndices (app (after (click idx true) w)) ↔
        i ∈ selectedIndices (app w) ∨
        Nat.min last idx ≤ i ≤ Nat.max last idx) ∧
  selectedIndices (app w) ⊆ selectedIndices (app (after (click idx true) w)) ∧
  selectedIndices
    (app (after (click 2 false;, click 5 true) initialWorld))
    = {[2; 3; 4; 5]} ∧
  selectedIndices
    (app (after (click 2 false;, click 5 true;, click 0 true) initialWorld))
    = {[0; 1; 2; 3; 4; 5]}.
Proof.
  intros Hlast.
  assert (Hsel : selectedIndices (app (after (click idx true) w)) =
                 addRange (Nat.min last idx) (Nat.max last idx)
                   (selectedIndices (app w))).
  { unfold after, click, fromRender, togglePageSelection. by rewrite Hlast. }
  rewrite Hsel. split; [intros i; apply elem_of_addRange|].
  split; [intros i Hi; apply elem_of_addRange; by left|].
  split; by vm_compute.
Qed.

Lemma extendRange_additive_witness :
  (∀ i, i ∈ selectedIndices
              (app (after (click 5 true) (after (click 2 false) initialWorld)))
        ↔ i ∈ selectedIndices (app (after (click 2 false) initialWorld)) ∨
          2 ≤ i ≤ 5) ∧
  selectedIndices (app (after (click 2 false) initialWorld)) ⊆
    selectedIndices
      (app (after (click 5 true) (after (click 2 false) initialWorld))).
Proof.
  destruct (extendRange_additive 2 5 (after (click 2 false) initialWorld)
              eq_refl) as (Hiff & Hsub & _).
  exact (conj Hiff Hsub).
Defined.

(** ** Computations that only touch part of the world *)

Global Instance same_arrays_preorder : PreOrder same_arrays.
Proof. split; [done|]. intros x y z. unfold same_arrays. congruence. Qed.
Global Instance same_app_preorder : PreOrder same_app.
Proof. split; [done|]. intros x y z. unfold same_app. congruence. Qed.

Section Stable.
Context (R : relation World) `{!PreOrder R}.

Lemma stable_ret {A} (a : A) : stable R (ret a).
Proof. intros w. simpl. reflexivity. Qed.

Lemma stable_throw {A} (e : JsError) : stable R (throw (A := A) e).
Proof. intros w. simpl. reflexivity. Qed.

Lemma stable_bind {A B} (c : M A) (k : A → M B) :
  stable R c → (∀ a, stable R (k a)) → stable R (bind c k).
Proof.
  intros Hc Hk w. unfold bind. specialize (Hc w).
  destruct (c w) as [w' [a|e]]; simpl in *; [|done].
  by etrans; [|apply Hk].
Qed.

Lemma stable_try_catch {A} (c : M A) (h : JsError → M A) :
  stable R c → (∀ e, stable R (h e)) → stable R (try_catch c h).
Proof.
  intros Hc Hh w. unfold try_catch. specialize (Hc w).
  destruct (c w) as [w' [a|e]]; simpl in *; [done|].
  by etrans; [|apply Hh].
Qed.

Lemma stable_try_finally {A} (c : M A) (f : M ()) :
  stable R c → stable R f → stable R (try_finally c f).
Proof.
  intros Hc Hf w. unfold try_finally. specialize (Hc w).
  destruct (c w) as [w' r]; simpl in *.
  by etrans; [|apply Hf].
Qed.

Lemma stable_for_of {A S} (l : list A) (s : S) (body : S → A → M S) :
  (∀ s x, stable R (body s x)) → stable R (for_of l s body).
Proof.
  intros Hbody. revert s. induction l as [|x l IH]; intros s.
  - apply stable_ret.
  - rewrite for_of_cons. apply stable_bind; [apply Hbody|apply IH].
Qed.
End Stable.

Lemma stable_emit_arrays (e : Event) : stable same_arrays (emit e).
Proof. done. Qed.
Lemma stable_emit_app (e : Event) : stable same_app (emit e).
Proof. done. Qed.
Lemma stable_setState_arrays (f : AppState → AppState) :
  stable same_arrays (setState f).
Proof. done. Qed.

Ltac solve_stable :=
  repeat first
    [ progress intros
    | apply stable_bind | apply stable_for_of | apply stable_try_catch
    | apply stable_try_finally | apply stable_ret | apply stable_throw
    | apply stable_emit_arrays | apply stable_emit_app
    | apply stable_setState_arrays | apply _
    | match goal with
      | |- stable _ (match ?x with _ => _ end) => destruct x
      | |- stable _ (if ?x then _ else _) => destruct x
      end ].

(** ** C10: the caller's index array *)

Section CallerArray.
Context `{PdfLib}.

Lemma stable_PDFDocument_load (R : relation World) `{!PreOrder R}
    (data : bytes) :
  (∀ e, stable R (emit e)) → stable R (PDFDocument_load data).
Proof. intros He. unfold PDFDocument_load. solve_stable. apply He. Qed.

Lemma stable_removePage (R : relation World) `{!PreOrder R}
    (doc : PDFDocument) (i : nat) :
  (∀ e, stable R (emit e)) → stable R (removePage doc i).
Proof. intros He. unfold removePage. solve_stable. apply He. Qed.

Lemma stable_copyPages (R : relation World) `{!PreOrder R}
    (dst src : PDFDocument) (idxs : list nat) :
  (∀ e, stable R (emit e)) → stable R (copyPages dst src idxs).
Proof. intros He. unfold copyPages. solve_stable. apply He. Qed.

Lemma stable_addPage (R : relation World) `{!PreOrder R}
    (doc : PDFDocument) (p : Page) :
  (∀ e, stable R (emit e)) → stable R (addPage doc p).
Proof. intros He. unfold addPage. solve_stable. apply He. Qed.

Lemma stable_PDFDocument_save (R : relation World) `{!PreOrder R}
    (doc : PDFDocument) :
  (∀ e, stable R (emit e)) → stable R (PDFDocument_save doc).
Proof. intros He. unfold PDFDocument_save. solve_stable. apply He. Qed.

(** Copying, sorting the copy and going on leaves every array that was
    there before as it was. *)
Lemma sorted_copy_frame {B} (cmp : nat → nat → Z) (a : nat)
    (k : list nat → M B) (w : World) (a0 : nat) :
  is_Some (arrays w !! a0) ∨ a0 = a →
  (∀ idxs, stable same_arrays (k idxs)) →
  arrays ((copy ←, array_spread a;
           sortedIndices ←, array_sort cmp copy;
           idxs ←, array_read sortedIndices;
           k idxs) w).1 !! a0 = arrays w !! a0.
Proof.
  intros Ha0 Hk. destruct (arrays w !! a) as [l|] eqn:Ha.
  - rewrite (sorted_copy_run cmp a l) by done. rewrite Hk. simpl.
    apply lookup_insert_ne. intros Heq.
    assert (Hdom : a0 ∈ dom (arrays w)).
    { apply elem_of_dom. destruct Ha0 as [?| ->]; [done|by eexists]. }
    rewrite <-Heq in Hdom. by apply is_fresh in Hdom.
  - unfold array_spread. erewrite bind_Thrown; [done|].
    erewrite bind_Thrown; [done|]. unfold array_read. by rewrite Ha.
Qed.

(** C10. [removePagesAndSave] and [extractPagesAndSave] leave the array of
    page indices they are given as it was: whatever the inputs and however
    the call ends, the argument array holds the same elements in the same
    order afterwards (the sort is applied to a copy). *)
Theorem caller_indices_unchanged (f : File) (a : nat) (w : World) :
  arrays (removePagesAndSave f a w).1 !! a = arrays w !! a ∧
  arrays (extractPagesAndSave f a w).1 !! a = arrays w !! a.
Proof.
  split.
  - unfold removePagesAndSave. unfold bind at 1.
    pose proof (stable_PDFDocument_load same_arrays (file_content f)
                  stable_emit_arrays w) as Hload.
    destruct (PDFDocument_load (file_content f) w) as [w1 [pdfDoc|e]];
      simpl in Hload; unfold same_arrays in Hload;
      [|cbn [fst]; by rewrite Hload].
    rewrite <-Hload. apply sorted_copy_frame; [by right|].
    intros idxs. apply stable_bind; [apply _| |].
    + apply stable_for_of; [apply _|]. intros.
      apply stable_removePage; [apply _|apply stable_emit_arrays].
    + intros. apply stable_PDFDocument_save; [apply _|].
      apply stable_emit_arrays.
  - unfold extractPagesAndSave. unfold bind at 1.
    pose proof (stable_PDFDocument_load same_arrays (file_content f)
                  stable_emit_arrays w) as Hload.
    destruct (PDFDocument_load (file_content f) w) as [w1 [pdfDoc|e]];
      simpl in Hload; unfold same_arrays in Hload;
      [|cbn [fst]; by rewrite Hload].
    rewrite <-Hload. unfold bind at 1, PDFDocument_create.
    unfold bind at 1. rewrite emit_run. unfold ret at 1.
    etrans; [apply sorted_copy_frame; [by right|]|done].
    intros idxs. apply stable_bind; [apply _| |].
    + apply stable_for_of; [apply _|]. intros newDoc idx.
      apply stable_bind; [apply _| |].
      * apply stable_copyPages; [apply _|apply stable_emit_arrays].
      * intros [? [|p ?]]; [apply stable_throw; apply _|].
        apply stable_addPage; [apply _|apply stable_emit_arrays].
    + intros. apply stable_PDFDocument_save; [apply _|].
      apply stable_emit_arrays.
Qed.

(** Sorting the argument itself would have been visible to the caller. *)
Example array_sort_in_place :
  arrays (array_sort descending 0 (Toy.worldWith [1; 3; 0])).1 !! 0
    = Some [3; 1; 0].
Proof. reflexivity. Qed.
End CallerArray.

(** ** C6: the selection stays within the loaded document *)

Global Instance same_core_preorder : PreOrder same_core.
Proof. split; [done|]. intros x y z. unfold same_core. congruence. Qed.

Lemma stable_emit_core (e : Event) : stable same_core (emit e).
Proof. done. Qed.
Lemma stable_setLoadingProgress_core (v : nat) :
  stable same_core (setLoadingProgress v).
Proof. done. Qed.

Lemma stable_array_alloc_app (l : list nat) : stable same_app (array_alloc l).
Proof. done. Qed.
Lemma stable_array_read (R : relation World) `{!PreOrder R} (a : nat) :
  stable R (array_read a).
Proof. intros w. unfold array_read. by destruct (arrays w !! a). Qed.
Lemma stable_array_sort_app (cmp : nat → nat → Z) (a : nat) :
  stable same_app (array_sort cmp a).
Proof. intros w. unfold array_sort. by destruct (arrays w !! a). Qed.
Lemma stable_array_spread_app (a : nat) : stable same_app (array_spread a).
Proof.
  unfold array_spread. apply stable_bind; [apply _| |].
  - apply stable_array_read, _.
  - intros. apply stable_array_alloc_app.
Qed.

Lemma stable_writePdfToHandle_app (handle : FileHandle) (data : bytes) :
  stable same_app (writePdfToHandle handle data).
Proof. intros w. apply (writePdfToHandle_frame handle data w). Qed.

(** The invariant of a [for_of] loop on its result. *)
Lemma for_of_result {A S} (P : S → Prop) (Q : A → Prop) (l : list A) (s : S)
    (body : S → A → M S) (w : World) :
  Forall Q l → P s →
  (∀ s x w s', Q x → P s → (body s x w).2 = Returned s' → P s') →
  ∀ s', (for_of l s body w).2 = Returned s' → P s'.
Proof.
  intros Hl Hs Hbody. revert s w Hs.
  induction Hl as [|x l Hx Hl IH]; intros s w Hs s' Hrun.
  - simpl in Hrun. by injection Hrun as <-.
  - rewrite for_of_cons in Hrun. unfold bind in Hrun.
    destruct (body s x w) as [w1 [s1|e]] eqn:Hb; [|done].
    apply (IH s1 w1); [|done].
    apply (Hbody s x w s1 Hx Hs). by rewrite Hb.
Qed.

Section Invariant.
Context `{PdfLib} `{PdfJs}.

Lemma stable_removePagesAndSave_app (f : File) (a : nat) :
  stable same_app (removePagesAndSave f a).
Proof.
  unfold removePagesAndSave.
  apply stable_bind; [apply _| |intros pdfDoc].
  { apply stable_PDFDocument_load; [apply _|apply stable_emit_app]. }
  apply stable_bind; [apply _|apply stable_array_spread_app|intros copy].
  apply stable_bind; [apply _|apply stable_array_sort_app|intros sorted].
  apply stable_bind; [apply _|apply stable_array_read, _|intros idxs].
  apply stable_bind; [apply _| |intros doc].
  - apply stable_for_of; [apply _|]. intros.
    apply stable_removePage; [apply _|apply stable_emit_app].
  - apply stable_PDFDocument_save; [apply _|apply stable_emit_app].
Qed.

(** The save, once started, only clears [isProcessing]. *)
Lemma handleConfirmSave_process_app (st : AppState) (f : File)
    (fileHandle : option FileHandle) (w : World) :
  app (after (handleConfirmSave_process st f fileHandle) w)
    = stopProcessing (app w).
Proof.
  unfold after, handleConfirmSave_process, try_finally.
  match goal with
  | |- context [try_catch ?c ?h w] =>
      assert (Hst : stable same_app (try_catch c h))
  end.
  { apply stable_try_catch; [apply _| |].
    - apply stable_bind; [apply _|apply stable_array_alloc_app|intros a].
      apply stable_bind; [apply _|apply stable_removePagesAndSave_app|].
      intros data. destruct fileHandle.
      + apply stable_writePdfToHandle_app.
      + apply stable_emit_app.
    - intros e. apply stable_bind; [apply _|apply stable_emit_app|].
      intros. apply stable_emit_app. }
  specialize (Hst w). unfold same_app in Hst.
  destruct (try_catch _ _ w) as [w1 r]. simpl in *. by rewrite Hst.
Qed.

(** What the first part of [handleConfirmSave] leaves behind. *)
Lemma handleConfirmSave_acquire_app (b : Browser) (st : AppState) (f : File)
    (w : World) :
  file st = Some f →
  ((handleConfirmSave_acquire b st w).2 = Returned None ∧
   app (handleConfirmSave_acquire b st w).1 = closeModal (app w)) ∨
  (∃ fileHandle,
     (handleConfirmSave_acquire b st w).2 = Returned (Some fileHandle) ∧
     app (handleConfirmSave_acquire b st w).1
       = startProcessing (closeModal (app w))).
Proof.
  intros Hf. unfold handleConfirmSave_acquire. rewrite Hf.
  unfold supportsFileSystem, getSaveFileHandle, supportsFileSystem,
    showSaveFilePicker.
  destruct (has_showSaveFilePicker b); simpl; [|right; by eexists].
  unfold bind, try_catch, emit, setShowSaveModal, setIsProcessing, setState,
    ret, throw. simpl.
  destruct (showSaveFilePicker_result b) as [handle|e]; simpl.
  - right. by eexists.
  - destruct (decide (err_name e = "AbortError")); simpl.
    + rewrite decide_True by done. by left.
    + right. by eexists.
Qed.

Lemma stable_generateThumbnails_core (b : Browser) (f : File) :
  stable same_core (generateThumbnails b f (λ current total,
    setLoadingProgress (percent current total))).
Proof.
  unfold generateThumbnails.
  apply stable_bind; [apply _| |intros pdf].
  { unfold getDocument. apply stable_bind; [apply _|apply stable_emit_core|].
    intros. destruct (pdfjs_open _); [apply stable_ret|apply stable_throw];
      apply _. }
  apply stable_for_of; [apply _|]. intros thumbs i.
  apply stable_bind; [apply _| |intros page].
  { unfold getPage. destruct i as [|j]; [apply stable_throw, _|].
    destruct (pdf !! j); [apply stable_ret|apply stable_throw]; apply _. }
  destruct (getContext_2d b i); [|apply stable_ret, _].
  apply stable_bind; [apply _| |intros dataUrl].
  { unfold render. apply stable_bind; [apply _|apply stable_emit_core|].
    intros. destruct (render_result page);
      [apply stable_ret|apply stable_throw]; apply _. }
  apply stable_bind; [apply _|apply stable_setLoadingProgress_core|].
  intros. apply stable_ret, _.
Qed.

(** Thumbnail generation, with the progress callback of [handleFileSelect],
    touches [loadingProgress] only and returns thumbnails of the file's
    pages. *)
Lemma generateThumbnails_core (b : Browser) (f : File) (w : World) :
  let run := generateThumbnails b f (λ current total,
               setLoadingProgress (percent current total)) w in
  same_core w run.1 ∧
  ∀ thumbs, run.2 = Returned thumbs →
            Forall (λ t, index t < numPages f) thumbs.
Proof.
  intros run. subst run. split.
  - apply stable_generateThumbnails_core.
  - intros thumbs. unfold generateThumbnails, numPages.
    unfold bind at 1. rewrite getDocument_run.
    destruct (pdfjs_open (file_content f)) as [pdf|e]; [|done].
    apply (for_of_result
             (λ ts, Forall (λ t, index t < length pdf) ts)
             (λ i, 1 ≤ i ≤ length pdf)).
    + apply Forall_seq. intros. lia.
    + constructor.
    + intros ts i w' ts' Hi Hts.
      unfold bind at 1. unfold getPage. destruct i as [|j]; [done|].
      destruct (pdf !! j) as [page|]; [|done]. unfold ret at 1.
      destruct (getContext_2d b (S j)).
      * unfold render, bind, emit, setLoadingProgress, setState, ret. simpl.
        destruct (render_result page) as [dataUrl|e]; [|done].
        simpl. intros [= <-]. apply Forall_app. split; [done|].
        constructor; [simpl; lia|constructor].
      * unfold ret. simpl. by intros [= <-].
Qed.
Lemma handleFileSelect_load_core (b : Browser) (f : File) (w : World) :
  let st := app w in
  let st' := app (after (handleFileSelect_load b f) w) in
  (∃ thumbs,
     Forall (λ t, index t < numPages f) thumbs ∧
     core st' = (file st, thumbs, selectedIndices st, lastSelectedIndex st,
                 false, showSaveModal st)) ∨
  core st' = (None, thumbnails st, selectedIndices st, lastSelectedIndex st,
              false, showSaveModal st).
Proof.
  intros st st'. subst st st'.
  destruct (generateThumbnails_core b f w) as [Hcore Hbound].
  unfold after, handleFileSelect_load, try_finally, try_catch, bind.
  destruct (generateThumbnails b f _ w) as [w1 [thumbs|e]]; simpl in *.
  - left. exists thumbs. split; [by apply Hbound|].
    unfold same_core, core in *. simpl. congruence.
  - right. unfold same_core, core in *. simpl. congruence.
Qed.

Lemma hasThumbnail_bounded (n : nat) (st : AppState) (idx : nat) :
  Forall (λ t, index t < n) (thumbnails st) →
  hasThumbnail st idx = true → idx < n.
Proof.
  intros Hb Hex. unfold hasThumbnail in Hex.
  apply existsb_exists in Hex as (t & Hin & Heq).
  apply Nat.eqb_eq in Heq as <-.
  rewrite Forall_forall in Hb. apply Hb. by apply list_elem_of_In.
Qed.

Lemma elem_of_toggleIndex (idx : nat) (prev : gset nat) (i : nat) :
  i ∈ toggleIndex idx prev → i = idx ∨ i ∈ prev.
Proof.
  unfold toggleIndex. destruct (decide (idx ∈ prev)).
  - intros [? _]%elem_of_difference. by right.
  - intros [?%elem_of_singleton|?]%elem_of_union; [by left|by right].
Qed.

Lemma toggle_bounded (n : nat) (st : AppState) (idx : nat) (shiftKey : bool)
    (w : World) :
  app w = st → bounded n st → idx < n →
  let st' := app (after (togglePageSelection (lastSelectedIndex st) idx
                           shiftKey) w) in
  bounded n st' ∧ file st' = file st ∧ isProcessing st' = isProcessing st ∧
  showSaveModal st' = showSaveModal st.
Proof.
  intros <- (Hth & Hsel & Hlast) Hidx st'. subst st'.
  unfold after, togglePageSelection.
  destruct shiftKey, (lastSelectedIndex (app w)) as [last|] eqn:Hl; simpl;
    (split; [|done]); (split; [done|]); simpl; rewrite ?Hl.
  - split; [|done]. intros i Hi. apply elem_of_addRange in Hi as [Hi|Hi].
    + by apply Hsel.
    + specialize (Hlast last eq_refl). lia.
  - split; [|by intros l [= <-]].
    intros i [->|Hi]%elem_of_toggleIndex; [done|by apply Hsel].
  - split; [|by intros l [= <-]].
    intros i [->|Hi]%elem_of_toggleIndex; [done|by apply Hsel].
  - split; [|by intros l [= <-]].
    intros i [->|Hi]%elem_of_toggleIndex; [done|by apply Hsel].
Qed.

Lemma blank_bounded (n : nat) (st : AppState) : blank st → bounded n st.
Proof.
  intros (Hth & Hsel & Hlast & _). unfold bounded.
  rewrite Hth, Hsel, Hlast. split; [constructor|]. split; [|done].
  intros i Hi. by apply not_elem_of_empty in Hi.
Qed.

(** The two parts of the first half of [handleConfirmSave], run one after
    the other, are that half. *)
Lemma handleConfirmSave_acquire_split (b : Browser) (st : AppState)
    (w : World) :
  handleConfirmSave_acquire b st w =
    (opened ←, handleConfirmSave_open b st;
     match opened with
     | Some true => handleConfirmSave_picked b st
     | Some false => ret (Some None)
     | None => ret None
     end) w.
Proof.
  unfold handleConfirmSave_acquire, handleConfirmSave_open,
    handleConfirmSave_picked, getSaveFileHandle, showSaveFilePicker,
    supportsFileSystem.
  destruct (file st) as [f|]; [|done].
  destruct (has_showSaveFilePicker b); [|done].
  unfold bind, try_catch, emit, setShowSaveModal, setIsProcessing, setState,
    ret, throw. simpl.
  destruct (showSaveFilePicker_result b) as [handle|e]; simpl; [done|].
  destruct (decide (err_name e = "AbortError")); simpl; [|done].
  by rewrite decide_True.
Qed.

Lemma handleConfirmSave_open_app (b : Browser) (st : AppState) (f : File)
    (w : World) :
  file st = Some f →
  ((handleConfirmSave_open b st w).2 = Returned (Some true) ∧
   app (handleConfirmSave_open b st w).1 = closeModal (app w)) ∨
  ((handleConfirmSave_open b st w).2 = Returned (Some false) ∧
   app (handleConfirmSave_open b st w).1
     = startProcessing (closeModal (app w))).
Proof.
  intros Hf. unfold handleConfirmSave_open. rewrite Hf.
  destruct (supportsFileSystem b); [by left|by right].
Qed.

Lemma handleConfirmSave_picked_app (b : Browser) (st : AppState) (w : World) :
  ((handleConfirmSave_picked b st w).2 = Returned None ∧
   app (handleConfirmSave_picked b st w).1 = app w) ∨
  (∃ fileHandle,
     (handleConfirmSave_picked b st w).2 = Returned (Some fileHandle) ∧
     app (handleConfirmSave_picked b st w).1 = startProcessing (app w)).
Proof.
  unfold handleConfirmSave_picked, bind, try_catch, emit, setIsProcessing,
    setState, ret, throw.
  destruct (showSaveFilePicker_result b) as [handle|e]; simpl.
  - right. by eexists.
  - destruct (decide (err_name e = "AbortError")); simpl.
    + rewrite decide_True by done. by left.
    + right. by eexists.
Qed.

(** A step is an enabled action, and an action of the user is taken with no
    save dialog open. *)
Lemma step_inv (a : Action) (s s' : Session) :
  step a s = Some s' →
  step_enabled a s = Some s' ∧ (byUser a = true → picks s = []).
Proof.
  unfold step, pickerOpen.
  destruct (byUser a), (picks s) as [|p l]; simpl; intros Hs; done.
Qed.

Ltac phases Hph :=
  destruct Hph as [Hf Hbl Hp Hl Hk Hs|f0 Hf Hbl Hp Hl Hk Hs
                  |f0 Hf Hb Hp Hl Hk Hs|f0 pk Hf Hb Hp Hm Hl Hk Hs
                  |f0 p Hf Hb Hp Hm Hl Hk Hs];
  simpl in *; subst.

Lemma step_phase (a : Action) (s s' : Session) :
  phase s → step a s = Some s' → phase s'.
Proof.
  intros Hph [Hstep Hidle]%step_inv.
  destruct s as [w lds pks svs]. unfold step_enabled in Hstep. simpl in Hstep.
  destruct a as [f|k b|idx shiftKey| | | | |v|b|k|k].
  - (* ActFileSelect *)
    destruct (negb (hasFile (app w)) && negb (isProcessing (app w))
              && String.eqb (file_type f) "application/pdf") eqn:Hg;
      [|done].
    injection Hstep as <-.
    apply andb_prop in Hg as [[Hnf _]%andb_prop _].
    unfold hasFile in Hnf.
    phases Hph; try (rewrite Hf in Hnf; done).
    by apply (PhLoading _ f).
  - (* ActLoadSettle *)
    destruct (lds !! k) as [f|] eqn:Hlk; [|done]. injection Hstep as <-.
    phases Hph; try done.
    destruct k; [|done]. injection Hlk as ->.
    destruct Hbl as (Hth & Hsel & Hlast & Hmodal).
    destruct (handleFileSelect_load_core b f w) as [(thumbs & Hb & Hc)|Hc];
      unfold core in Hc; simpl in Hc; injection Hc as Hc1 Hc2 Hc3 Hc4 Hc5 Hc6.
    + apply (PhReady _ f); simpl; try done; [congruence|].
      split; [by rewrite Hc2|]. split.
      * intros i. rewrite Hc3, Hsel. intros Hi.
        by apply not_elem_of_empty in Hi.
      * intros l. rewrite Hc4, Hlast. done.
    + apply PhEmpty; simpl; try done.
      split; [congruence|]. split; [congruence|]. split; congruence.
  - (* ActToggle *)
    destruct (hasFile (app w) && hasThumbnail (app w) idx) eqn:Hg; [|done].
    injection Hstep as <-. apply andb_prop in Hg as [_ Hth].
    assert (Hblank : blank (app w) → False).
    { intros (Ht & _). unfold hasThumbnail in Hth. by rewrite Ht in Hth. }
    phases Hph; try (by destruct Hblank); try (by specialize (Hidle eq_refl)).
    + destruct (toggle_bounded (numPages f0) (app w) idx shiftKey w eq_refl Hb)
        as (Hb' & Hf' & Hp' & Hm'); [by eapply hasThumbnail_bounded, Hth; apply Hb|].
      apply (PhReady _ f0); simpl; try done; congruence.
    + destruct (toggle_bounded (numPages f0) (app w) idx shiftKey w eq_refl Hb)
        as (Hb' & Hf' & Hp' & Hm'); [by eapply hasThumbnail_bounded, Hth; apply Hb|].
      apply (PhSaving _ f0 p); simpl; try done; congruence.
  - (* ActClear *)
    destruct (hasFile (app w)
              && negb (bool_decide (size (selectedIndices (app w)) = 0)))
      eqn:Hg; [|done].
    injection Hstep as <-. apply andb_prop in Hg as [Hhf Hsz].
    assert (Hblank : blank (app w) → False).
    { intros (_ & Hsel & _). rewrite Hsel in Hsz. done. }
    phases Hph; try (by destruct Hblank); try (by specialize (Hidle eq_refl)).
    + apply (PhReady _ f0); simpl; try done.
      destruct Hb as (? & ? & ?). split; [done|]. split; [|done].
      intros i Hi. by apply not_elem_of_empty in Hi.
    + apply (PhSaving _ f0 p); simpl; try done.
      destruct Hb as (? & ? & ?). split; [done|]. split; [|done].
      intros i Hi. by apply not_elem_of_empty in Hi.
  - (* ActReset *)
    destruct (hasFile (app w) && negb (isProcessing (app w))) eqn:Hg; [|done].
    injection Hstep as <-. apply andb_prop in Hg as [Hhf Hnp].
    unfold hasFile in Hhf.
    phases Hph; try (rewrite Hf in Hhf; done); try (rewrite Hp in Hnp; done);
      try (by specialize (Hidle eq_refl)).
    by apply PhEmpty.
  - (* ActOpenSave *)
    destruct (hasFile (app w)
              && negb (bool_decide (size (selectedIndices (app w)) = 0))
              && negb (showSaveModal (app w))
              && negb (isProcessing (app w))) eqn:Hg; [|done].
    injection Hstep as <-.
    apply andb_prop in Hg as [[[Hhf Hsz]%andb_prop _]%andb_prop Hnp].
    assert (Hblank : blank (app w) → False).
    { intros (_ & Hsel & _). rewrite Hsel in Hsz. done. }
    phases Hph; try (by destruct Hblank); try (rewrite Hp in Hnp; done);
      try (by specialize (Hidle eq_refl)).
    unfold after, openSaveModal. rewrite Hf.
    destruct (decide (size (selectedIndices (app w)) = 0));
      by apply (PhReady _ f0).
  - (* ActCloseModal *)
    destruct (showSaveModal (app w)) eqn:Hg; [|done].
    injection Hstep as <-.
    assert (Hblank : blank (app w) → False).
    { intros (_ & _ & _ & Hm). by rewrite Hm in Hg. }
    phases Hph; try (by destruct Hblank); try congruence.
    by apply (PhReady _ f0).
  - (* ActSetFilename *)
    destruct (showSaveModal (app w)) eqn:Hg; [|done].
    injection Hstep as <-.
    assert (Hblank : blank (app w) → False).
    { intros (_ & _ & _ & Hm). by rewrite Hm in Hg. }
    phases Hph; try (by destruct Hblank); try congruence.
    by apply (PhReady _ f0).
  - (* ActConfirmSave *)
    destruct (showSaveModal (app w)) eqn:Hg; [|done].
    assert (Hblank : blank (app w) → False).
    { intros (_ & _ & _ & Hm). by rewrite Hm in Hg. }
    phases Hph; try (by destruct Hblank); try congruence.
    rewrite Hf in Hstep.
    destruct (handleConfirmSave_open_app b (app w) f0 w Hf)
      as [[Hr Ha]|[Hr Ha]];
      destruct (handleConfirmSave_open b (app w) w) as [w' r];
      simpl in Hr, Ha; subst r; injection Hstep as <-.
    + apply (PhPicking _ f0 (mkPick (app w) f0 b)); simpl; rewrite ?Ha;
        try done.
    + apply (PhSaving _ f0 (mkPending (app w) f0 None)); simpl; rewrite ?Ha;
        try done.
  - (* ActPickerSettle *)
    destruct (pks !! k) as [q|] eqn:Hqk; [|done].
    phases Hph; try done.
    destruct k; [|done]. injection Hqk as <-.
    destruct (handleConfirmSave_picked_app (pk_browser pk) (pk_render pk) w)
      as [[Hr Ha]|(fh & Hr & Ha)];
      destruct (handleConfirmSave_picked (pk_browser pk) (pk_render pk) w)
        as [w' r];
      simpl in Hr, Ha; subst r; injection Hstep as <-.
    + apply (PhReady _ f0); simpl; rewrite ?Ha; try done.
    + apply (PhSaving _ f0 (mkPending (pk_render pk) (pk_file pk) fh)); simpl;
        rewrite ?Ha; try done.
  - (* ActSaveSettle *)
    destruct (svs !! k) as [q|] eqn:Hqk; [|done]. injection Hstep as <-.
    phases Hph; try done.
    destruct k; [|done]. injection Hqk as <-.
    apply (PhReady _ f0); simpl; rewrite ?handleConfirmSave_process_app;
      try done.
Qed.

Lemma run_phase (acts : list Action) (s s' : Session) :
  phase s → run acts s = Some s' → phase s'.
Proof.
  revert s. induction acts as [|a acts IH]; intros s Hph Hrun; simpl in Hrun.
  - by injection Hrun as <-.
  - destruct (step a s) as [s1|] eqn:Hstep; [|done].
    apply (IH s1); [|done]. by apply (step_phase a s).
Qed.

Lemma reachable_phase (s : Session) : reachable s → phase s.
Proof.
  intros [acts Hrun]. apply (run_phase acts initialSession); [|done].
  apply PhEmpty; try done.
Qed.

Lemma phase_selection (s : Session) :
  phase s →
  ∀ i, i ∈ selectedIndices (app (world s)) → i < totalPages (app (world s)).
Proof.
  intros [Hf Hbl _ _ _ _|f Hf Hbl _ _ _ _|f Hf Hb _ _ _ _
         |f p Hf Hb _ _ _ _ _|f p Hf Hb _ _ _ _ _] i Hi;
    unfold totalPages; rewrite Hf.
  - destruct Hbl as (_ & Hsel & _). rewrite Hsel in Hi.
    by apply not_elem_of_empty in Hi.
  - destruct Hbl as (_ & Hsel & _). rewrite Hsel in Hi.
    by apply not_elem_of_empty in Hi.
  - destruct Hb as (_ & Hsel & _). by apply Hsel.
  - destruct Hb as (_ & Hsel & _). by apply Hsel.
  - destruct Hb as (_ & Hsel & _). by apply Hsel.
Qed.

(** A step keeps the loaded file, or leaves the selection empty; it changes
    the file only when the file is unloaded or the selected file is loaded,
    which then is a PDF by its type. *)
Lemma step_selection (a : Action) (s s' : Session) :
  phase s → step a s = Some s' →
  (match a with
   | ActFileSelect _ | ActReset => False
   | _ => file (app (world s')) = file (app (world s))
   end ∨ selectedIndices (app (world s')) = ∅) ∧
  (file (app (world s')) = file (app (world s)) ∨
   file (app (world s')) = None ∨
   ∃ f, file (app (world s')) = Some f ∧ file_type f = "application/pdf").
Proof.
  intros Hph [Hstep Hidle]%step_inv.
  destruct s as [w lds pks svs]. unfold step_enabled in Hstep. simpl in Hstep.
  destruct a as [f|k b|idx shiftKey| | | | |v|b|k|k].
  - destruct (negb (hasFile (app w)) && negb (isProcessing (app w))
              && String.eqb (file_type f) "application/pdf") eqn:Hg;
      [|done].
    injection Hstep as <-.
    apply andb_prop in Hg as [[Hnf _]%andb_prop Hty]. unfold hasFile in Hnf.
    split.
    + right. phases Hph; try (rewrite Hf in Hnf; done).
      by destruct Hbl as (_ & Hsel & _).
    + right. right. exists f. split; [done|]. by apply String.eqb_eq.
  - destruct (lds !! k) as [f|] eqn:Hlk; [|done]. injection Hstep as <-.
    phases Hph; try done.
    destruct Hbl as (Hth & Hsel & Hlast & Hmodal).
    destruct (handleFileSelect_load_core b f w) as [(thumbs & Hb & Hc)|Hc];
      unfold core in Hc; simpl in Hc; injection Hc as Hc1 Hc2 Hc3 Hc4 Hc5 Hc6.
    + split; by left.
    + split; [right; congruence|right; by left].
  - destruct (hasFile (app w) && hasThumbnail (app w) idx); [|done].
    injection Hstep as <-.
    assert (Hkeep : file (app (after (togglePageSelection
                      (lastSelectedIndex (app w)) idx shiftKey) w))
                    = file (app w)).
    { unfold after, togglePageSelection.
      by destruct shiftKey, (lastSelectedIndex (app w)). }
    split; by left.
  - destruct (hasFile (app w) && _); [|done]. injection Hstep as <-.
    split; by left.
  - destruct (hasFile (app w) && _); [|done]. injection Hstep as <-.
    split; [by right|right; by left].
  - destruct (hasFile (app w) && _ && _ && _); [|done].
    injection Hstep as <-.
    assert (Hkeep : file (app (after (openSaveModal (app w)) w))
                    = file (app w)).
    { unfold after, openSaveModal. destruct (file (app w)) eqn:Hf; [|done].
      by destruct (decide (size (selectedIndices (app w)) = 0)). }
    split; by left.
  - destruct (showSaveModal (app w)); [|done]. injection Hstep as <-.
    split; by left.
  - destruct (showSaveModal (app w)); [|done]. injection Hstep as <-.
    split; by left.
  - destruct (showSaveModal (app w)) eqn:Hg; [|done].
    assert (Hkeep : file (app (world s')) = file (app w)).
    { destruct (file (app w)) as [f0|] eqn:Hf.
      - destruct (handleConfirmSave_open_app b (app w) f0 w Hf)
          as [[Hr Ha]|[Hr Ha]];
          destruct (handleConfirmSave_open b (app w) w) as [w' r];
          simpl in Hr, Ha; subst r; injection Hstep as <-; simpl;
          by rewrite Ha.
      - unfold handleConfirmSave_open in Hstep. rewrite Hf in Hstep.
        injection Hstep as <-. by simpl. }
    split; by left.
  - destruct (pks !! k) as [q|] eqn:Hqk; [|done].
    assert (Hkeep : file (app (world s')) = file (app w)).
    { destruct (handleConfirmSave_picked_app (pk_browser q) (pk_render q) w)
        as [[Hr Ha]|(fh & Hr & Ha)];
        destruct (handleConfirmSave_picked (pk_browser q) (pk_render q) w)
          as [w' r];
        simpl in Hr, Ha; subst r; injection Hstep as <-; simpl;
        by rewrite Ha. }
    split; by left.
  - destruct (svs !! k) as [q|]; [|done]. injection Hstep as <-.
    assert (Hkeep : file (app (after (handleConfirmSave_process (ps_render q)
                      (ps_file q) (ps_handle q)) w)) = file (app w)).
    { by rewrite handleConfirmSave_process_app. }
    split; by left.
Qed.

(** C6. In every reachable state of a session each selected index is below
    the page count of the loaded document, and every step that replaces the
    loaded document or resets the session leaves the selection empty. *)
Theorem selection_within_document (s : Session) :
  reachable s →
  (∀ i, i ∈ selectedIndices (app (world s)) →
        i < totalPages (app (world s))) ∧
  (∀ a s', step a s = Some s' → replaces_or_resets a s s' →
           selectedIndices (app (world s')) = ∅).
Proof.
  intros Hph%reachable_phase. split; [by apply phase_selection|].
  intros a s' Hstep Hrep.
  destruct (step_selection a s s' Hph Hstep) as [[Hkeep|Hempty] _]; [|done].
  destruct a; done.
Qed.
End Invariant.

Lemma selection_within_document_witness :
  (∀ i, i ∈ selectedIndices (app (world Toy.browsed)) →
        i < totalPages (H0 := Toy.toyPdfJs) (app (world Toy.browsed))) ∧
  (∀ a s',
     step (H := Toy.toyPdfLib) (H0 := Toy.toyPdfJs) a Toy.browsed = Some s' →
     replaces_or_resets a Toy.browsed s' →
     selectedIndices (app (world s')) = ∅).
Proof.
  apply (selection_within_document (H := Toy.toyPdfLib) (H0 := Toy.toyPdfJs)
           Toy.browsed).
  exists Toy.browsing. vm_compute. reflexivity.
Defined.

(** In that session pages 1 to 3 of the five are selected, and a reset
    empties the selection. *)
Example browsed_selection :
  selectedIndices (app (world Toy.browsed)) = {[1; 2; 3]} ∧
  totalPages (H0 := Toy.toyPdfJs) (app (world Toy.browsed)) = 5 ∧
  (selectedIndices ∘ app ∘ world) <$>
    step (H := Toy.toyPdfLib) (H0 := Toy.toyPdfJs) ActReset Toy.browsed
    = Some ∅.
Proof. by vm_compute. Qed.

(** A file that does not open is discarded: the user is told once and the
    state is the one before the upload, apart from the proposed file name. *)
Example load_of_broken_file :
  after (handleFileSelect (H0 := Toy.toyPdfJs) Toy.noPicker Toy.broken)
    initialWorld
    = mkWorld (mkApp None [] ∅ None false 0 false "broken_editado") ∅
        [EvGetDocument [];
         EvConsoleError "Error generating thumbnails";
         EvAlert "Erro ao ler o arquivo PDF. O arquivo pode estar corrompido ou protegido por senha."].
Proof. vm_compute. reflexivity. Qed.

(** The progress shown after 23 of 40 pages is 57: in floating point the
    product [(23 / 40) * 100] lies just below 57.5. *)
Example percent_of_pages :
  percent 23 40 = 57 ∧ percent 1 3 = 33 ∧ percent 1 200 = 1 ∧
  percent 7 8 = 88 ∧ percent 5 5 = 100.
Proof. by vm_compute. Qed.

(** * Further properties of the code *)

(** ** File names *)

Lemma string_length_app (s t : string) :
  String.length (s +:+ t) = String.length s + String.length t.
Proof. induction s as [|c s IH]; simpl; [done|by rewrite IH]. Qed.

Lemma string_app_cons (c : ascii) (s t : string) :
  String c s +:+ t = String c (s +:+ t).
Proof. done. Qed.

Lemma string_app_assoc (s t u : string) : (s +:+ t) +:+ u = s +:+ t +:+ u.
Proof.
  induction s as [|c s IH]; [done|]. by rewrite !string_app_cons, IH.
Qed.

Lemma substring_all (s : string) : String.substring 0 (String.length s) s = s.
Proof. induction s as [|c s IH]; simpl; [done|by rewrite IH]. Qed.

Lemma substring_app_skip (s t : string) (n k : nat) :
  String.substring (String.length s + n) k (s +:+ t) = String.substring n k t.
Proof. induction s as [|c s IH]; simpl; [done|by rewrite IH]. Qed.

Lemma substring_app_take (s t : string) :
  String.substring 0 (String.length s) (s +:+ t) = s.
Proof.
  induction s as [|c s IH]; simpl; [by destruct t|by rewrite IH].
Qed.

Lemma endsWith_app (s suffix : string) : endsWith (s +:+ suffix) suffix = true.
Proof.
  unfold endsWith. rewrite string_length_app, decide_True by lia.
  replace (String.length s + String.length suffix - String.length suffix)
    with (String.length s + 0) by lia.
  rewrite substring_app_skip, substring_all. apply String.eqb_refl.
Qed.

(** Whether a string ends with [suffix] is decided by its last characters. *)
Lemma endsWith_app_r (s t suffix : string) :
  String.length suffix ≤ String.length t →
  endsWith (s +:+ t) suffix = endsWith t suffix.
Proof.
  intros Hle. unfold endsWith. rewrite string_length_app.
  rewrite !decide_True by lia.
  replace (String.length s + String.length t - String.length suffix)
    with (String.length s + (String.length t - String.length suffix)) by lia.
  by rewrite substring_app_skip.
Qed.

Lemma lower_app (s t : string) : lower (s +:+ t) = lower s +:+ lower t.
Proof. induction s as [|c s IH]; simpl; [done|by rewrite IH]. Qed.

Lemma lower_length (s : string) : String.length (lower s) = String.length s.
Proof. induction s as [|c s IH]; simpl; [done|by rewrite IH]. Qed.

(** X1. The name a save is offered under, and the name a download gets,
    always ends in [.pdf]; a name that already does is kept as it is, so
    completing a name twice changes nothing. *)
Theorem fullFilename_pdf (filename : string) :
  endsWith (fullFilename filename) ".pdf" = true ∧
  fullFilename (fullFilename filename) = fullFilename filename ∧
  (endsWith filename ".pdf" = true → fullFilename filename = filename) ∧
  (endsWith filename ".pdf" = false →
   fullFilename filename = filename +:+ ".pdf").
Proof.
  assert (Hends : endsWith (fullFilename filename) ".pdf" = true).
  { unfold fullFilename. destruct (endsWith filename ".pdf") eqn:He; [done|].
    apply endsWith_app. }
  split; [done|]. split.
  - unfold fullFilename at 1. by rewrite Hends.
  - unfold fullFilename. split; by intros ->.
Qed.

Lemma fullFilename_pdf_witness :
  fullFilename "report.pdf" = "report.pdf" ∧
  fullFilename "report" = "report.pdf".
Proof.
  split.
  - apply (proj1 (proj2 (proj2 (fullFilename_pdf "report.pdf")))).
    reflexivity.
  - apply (proj2 (proj2 (proj2 (fullFilename_pdf "report")))).
    reflexivity.
Defined.

(** X2. For an uploaded file whose name ends in [.pdf] in any letter case,
    [handleFileSelect] proposes the name without that extension followed by
    [_editado], and the save then goes under that name with [.pdf] added; a
    name without the extension is kept whole. *)
Theorem proposed_filename (f : File) (base ext : string) (w : World) :
  file_name f = base +:+ ext →
  lower ext = ".pdf" →
  outputFilename (app (after (handleFileSelect_begin f) w))
    = base +:+ "_editado" ∧
  fullFilename (outputFilename (app (after (handleFileSelect_begin f) w)))
    = base +:+ "_editado.pdf".
Proof.
  intros Hname Hext.
  assert (Hlen : String.length ext = 4).
  { by rewrite <-lower_length, Hext. }
  assert (Hstrip : stripPdfExtension (file_name f) = base).
  { unfold stripPdfExtension. rewrite Hname, lower_app, Hext.
    rewrite endsWith_app, string_length_app, Hlen.
    replace (String.length base + 4 - 4) with (String.length base) by lia.
    apply substring_app_take. }
  assert (Hout : outputFilename (app (after (handleFileSelect_begin f) w))
                 = base +:+ "_editado").
  { unfold after, handleFileSelect_begin. simpl. by rewrite Hstrip. }
  rewrite Hout. split; [done|].
  unfold fullFilename. rewrite endsWith_app_r by (simpl; lia).
  replace (endsWith "_editado" ".pdf") with false by reflexivity.
  by rewrite string_app_assoc.
Qed.

Lemma proposed_filename_witness :
  outputFilename
    (app (after (handleFileSelect_begin
                   (mkFile "Scan.PDF" "application/pdf" [x00])) initialWorld))
    = "Scan_editado" ∧
  fullFilename
    (outputFilename
       (app (after (handleFileSelect_begin
                      (mkFile "Scan.PDF" "application/pdf" [x00]))
               initialWorld)))
    = "Scan_editado.pdf".
Proof.
  apply (proposed_filename (mkFile "Scan.PDF" "application/pdf" [x00])
           "Scan" ".PDF" initialWorld); reflexivity.
Defined.

(** ** The save helpers and the save coordinator *)

Global Instance appends_preorder (P : Event → Prop) : PreOrder (appends P).
Proof.
  split.
  - intros w. exists []. by rewrite app_nil_r.
  - intros w1 w2 w3 (Δ1 & H1 & HP1) (Δ2 & H2 & HP2). exists (Δ1 ++ Δ2).
    split; [by rewrite H2, H1, app_assoc|by apply Forall_app].
Qed.

Lemma stable_emit_appends (P : Event → Prop) (e : Event) :
  P e → stable (appends P) (emit e).
Proof. intros HP w. exists [e]. split; [done|by constructor]. Qed.

Lemma stable_silent_appends {A} (P : Event → Prop) (c : M A) :
  (∀ w, events (c w).1 = events w) → stable (appends P) c.
Proof. intros Hc w. exists []. by rewrite app_nil_r, Hc. Qed.

Lemma array_alloc_silent (l : list nat) (w : World) :
  events (array_alloc l w).1 = events w.
Proof. done. Qed.
Lemma array_read_silent (a : nat) (w : World) :
  events (array_read a w).1 = events w.
Proof. unfold array_read. by destruct (arrays w !! a). Qed.
Lemma array_sort_silent (cmp : nat → nat → Z) (a : nat) (w : World) :
  events (array_sort cmp a w).1 = events w.
Proof. unfold array_sort. by destruct (arrays w !! a). Qed.
Lemma array_spread_silent (a : nat) (w : World) :
  events (array_spread a w).1 = events w.
Proof.
  unfold array_spread, bind, array_read.
  by destruct (arrays w !! a).
Qed.

Lemma fullFilename_ends (filename : string) :
  endsWith (fullFilename filename) ".pdf" = true.
Proof.
  unfold fullFilename. destruct (endsWith filename ".pdf") eqn:He; [done|].
  apply endsWith_app.
Qed.

(** X3. [getSaveFileHandle] touches nothing but the log; the only error it
    lets through is the picker's [AbortError]; without the capability it
    returns [null] without showing the picker; and a handle it returns is the
    one the picker gave, asked for under a name that ends in [.pdf]. *)
Theorem getSaveFileHandle_outcomes (b : Browser) (filename : string)
    (w : World) :
  let r := getSaveFileHandle b filename w in
  app r.1 = app w ∧ arrays r.1 = arrays w ∧
  (∀ e, r.2 = Thrown e →
        err_name e = "AbortError" ∧ showSaveFilePicker_result b = Thrown e) ∧
  (has_showSaveFilePicker b = false → r = (w, Returned None)) ∧
  (∀ handle, r.2 = Returned (Some handle) →
     showSaveFilePicker_result b = Returned handle ∧
     ∃ name, events r.1 = events w ++ [EvShowSaveFilePicker name] ∧
             endsWith name ".pdf" = true).
Proof.
  unfold getSaveFileHandle, supportsFileSystem, try_catch, showSaveFilePicker,
    bind, emit, ret, throw.
  destruct (has_showSaveFilePicker b); simpl.
  - destruct (showSaveFilePicker_result b) as [h|e]; simpl.
    + split; [done|]. split; [done|]. split; [done|]. split; [done|].
      intros handle [= <-]. split; [done|]. eexists. split; [done|].
      apply fullFilename_ends.
    + destruct (decide (err_name e = "AbortError")); simpl.
      * split; [done|]. split; [done|]. split; [|done].
        by intros e' [= <-].
      * done.
  - done.
Qed.

Section SaveOutcomes.
Context `{PdfLib}.

Lemma stable_removePagesAndSave_appends (f : File) (a : nat) :
  stable (appends is_removal_event) (removePagesAndSave f a).
Proof.
  unfold removePagesAndSave.
  apply stable_bind; [apply _| |intros pdfDoc].
  { unfold PDFDocument_load. apply stable_bind; [apply _| |intros _].
    - by apply stable_emit_appends.
    - destruct (pdf_load _); [apply stable_ret|apply stable_throw]; apply _. }
  apply stable_bind; [apply _| |intros copy].
  { apply stable_silent_appends, array_spread_silent. }
  apply stable_bind; [apply _| |intros sorted].
  { apply stable_silent_appends, array_sort_silent. }
  apply stable_bind; [apply _| |intros idxs].
  { apply stable_silent_appends, array_read_silent. }
  apply stable_bind; [apply _| |intros doc].
  - apply stable_for_of; [apply _|]. intros doc idx. unfold removePage.
    apply stable_bind; [apply _| |intros _].
    + by apply stable_emit_appends.
    + destruct (decide _); [apply stable_ret|apply stable_throw]; apply _.
  - unfold PDFDocument_save. apply stable_bind; [apply _| |intros _].
    + by apply stable_emit_appends.
    + apply stable_ret, _.
Qed.

Lemma handleConfirmSave_process_returns (st : AppState) (f : File)
    (fileHandle : option FileHandle) (w : World) :
  (handleConfirmSave_process st f fileHandle w).2 = Returned ().
Proof.
  unfold handleConfirmSave_process, try_finally, try_catch.
  match goal with |- context [bind ?c ?k w] => destruct (bind c k w) as [w1 [[]|e]] end;
    done.
Qed.

(** X4. [handleConfirmSave] never lets an error escape.  Without a loaded
    file it does nothing; with one it closes the modal and either stops there
    (the picker was cancelled) or ends with [isProcessing] cleared; no other
    cell of the state is changed. *)
Theorem handleConfirmSave_settles (b : Browser) (st : AppState) (w : World) :
  let r := handleConfirmSave b st w in
  r.2 = Returned () ∧
  (file st = None → r.1 = w) ∧
  (is_Some (file st) →
   app r.1 = closeModal (app w) ∨
   app r.1 = stopProcessing (closeModal (app w))).
Proof.
  simpl. unfold handleConfirmSave.
  destruct (file st) as [f|] eqn:Hf.
  - destruct (handleConfirmSave_acquire_app b st f w Hf)
      as [[Hr Ha]|(fh & Hr & Ha)]; unfold bind;
      destruct (handleConfirmSave_acquire b st w) as [w1 r1];
      simpl in Hr, Ha; subst r1.
    + split; [done|]. split; [done|]. intros _. left. done.
    + split; [apply handleConfirmSave_process_returns|]. split; [done|].
      intros _. right.
      pose proof (handleConfirmSave_process_app st f fh w1) as Hp.
      unfold after in Hp. by rewrite Hp, Ha.
  - unfold handleConfirmSave_acquire, bind. rewrite Hf. simpl.
    split; [done|]. split; [done|]. by intros [? [=]].
Qed.

(** X5. Without the native capability a save never shows the picker and
    never opens a write stream: besides the calls into pdf-lib it ends with
    exactly one of a download under the completed file name or the failure
    alert. *)
Theorem no_capability_save (b : Browser) (st : AppState) (f : File)
    (w : World) :
  file st = Some f →
  has_showSaveFilePicker b = false →
  ∃ Δ, Forall is_removal_event Δ ∧
    ((∃ data,
        events (handleConfirmSave b st w).1 =
          events w ++ Δ ++
            [EvDownload data (fullFilename (outputFilename st))]) ∨
     events (handleConfirmSave b st w).1 =
       events w ++ Δ ++
         [EvConsoleError "Error saving PDF";
          EvAlert "Erro ao salvar o novo PDF."]).
Proof.
  intros Hf Hcap. rewrite (handleConfirmSave_no_capability b st f w Hf Hcap).
  unfold handleConfirmSave_process, try_finally, try_catch, bind,
    array_from_set, array_alloc. simpl.
  set (w1 := mkWorld (startProcessing (closeModal (app w)))
                (<[fresh (dom (arrays w)) := elements (selectedIndices st)]>
                   (arrays w)) (events w)).
  destruct (stable_removePagesAndSave_appends f
              (fresh (dom (arrays w))) w1) as (Δ & HΔ & HP).
  exists Δ. split; [done|].
  destruct (removePagesAndSave f _ w1) as [w2 [data|e]]; simpl in *.
  - left. exists data. by rewrite HΔ, <-app_assoc.
  - right. by rewrite HΔ, <-!app_assoc.
Qed.

(** X6. When pdf-lib cannot parse the file, the save reports the failure
    once and ends: whatever destination was acquired, nothing is written and
    nothing is downloaded, and [isProcessing] is cleared. *)
Theorem save_of_unparseable_file (st : AppState) (f : File)
    (fileHandle : option FileHandle) (w : World) :
  pdf_load (file_content f) = None →
  handleConfirmSave_process st f fileHandle w =
    (mkWorld (stopProcessing (app w))
       (<[fresh (dom (arrays w)) := elements (selectedIndices st)]>
          (arrays w))
       (events w ++ [EvPdfLoad (file_content f);
                     EvConsoleError "Error saving PDF";
                     EvAlert "Erro ao salvar o novo PDF."]),
     Returned ()).
Proof.
  intros Hload.
  unfold handleConfirmSave_process, try_finally, try_catch.
  unfold bind at 1. unfold array_from_set, array_alloc.
  erewrite bind_Thrown; [|by apply removePagesAndSave_parse_error].
  unfold bind, emit, setIsProcessing, setState. simpl.
  by rewrite <-!app_assoc.
Qed.

(** X7. When the write to an acquired handle throws, the save reports the
    failure and ends: the output, the saved document without the selected
    pages, is not downloaded instead and the stream is left unclosed. *)
Theorem save_write_failure (st : AppState) (f : File) (doc : PDFDocument)
    (handle : FileHandle) (writable : Writable) (e : JsError) (w : World) :
  pdf_load (file_content f) = Some doc →
  (∀ i, i ∈ selectedIndices st → i < length (doc_pages doc)) →
  createWritable_result handle = Returned writable →
  write_result writable = Thrown e →
  ∃ (order : list nat) (arrays' : gmap nat (list nat)),
    handleConfirmSave_process st f (Some handle) w =
      (mkWorld (stopProcessing (app w)) arrays'
         (events w ++ [EvPdfLoad (file_content f)] ++
            (EvRemovePage <$> order) ++
            [EvPdfSave; EvCreateWritable;
             EvWrite (pdf_save (withDefaultPage (removeAll order doc)));
             EvConsoleError "Error saving PDF";
             EvAlert "Erro ao salvar o novo PDF."]),
       Returned ()) ∧
    order ≡ₚ elements (selectedIndices st) ∧
    strictly_descending order ∧
    doc_pages (removeAll order doc)
      = excise (elements (selectedIndices st)) (doc_pages doc).
Proof.
  intros Hload Hr Hcreate Hwrite.
  set (sel := elements (selectedIndices st)).
  assert (Hnd : NoDup sel) by apply NoDup_elements.
  assert (Hr' : Forall (λ i, i < length (doc_pages doc)) sel).
  { apply Forall_forall. intros i Hi. apply Hr. by apply elem_of_elements. }
  destruct (sort_descending_spec sel Hnd) as [Hperm Hsorted].
  set (w1 := mkWorld (app w) (<[fresh (dom (arrays w)) := sel]> (arrays w))
                (events w)).
  destruct (removePagesAndSave_run f doc (fresh (dom (arrays w))) sel w1
              Hload (lookup_insert_eq _ _ _) Hnd Hr') as (Hrun & Hpages & _).
  eexists _, _. split; [|done].
  unfold handleConfirmSave_process, try_finally, try_catch.
  unfold bind at 1. unfold array_from_set, array_alloc. fold sel. fold w1.
  rewrite (bind_Returned _ _ _ _ _ Hrun).
  unfold writePdfToHandle, createWritable, write, bind, emit, ret, throw,
    setIsProcessing, setState.
  simpl. rewrite Hcreate. simpl. rewrite Hwrite. simpl.
  f_equal. f_equal. rewrite <-!app_assoc. simpl. by rewrite <-!app_assoc.
Qed.
End SaveOutcomes.

Lemma no_capability_save_witness :
  ∃ Δ, Forall is_removal_event Δ ∧
    ((∃ data,
        events (handleConfirmSave (H := Toy.toyPdfLib) Toy.noPicker
                  Toy.confirming Toy.confirmingWorld).1 =
          [] ++ Δ ++ [EvDownload data "out.pdf"]) ∨
     events (handleConfirmSave (H := Toy.toyPdfLib) Toy.noPicker
               Toy.confirming Toy.confirmingWorld).1 =
       [] ++ Δ ++
         [EvConsoleError "Error saving PDF";
          EvAlert "Erro ao salvar o novo PDF."]).
Proof.
  apply (no_capability_save (H := Toy.toyPdfLib) Toy.noPicker
           Toy.confirming Toy.doc5 Toy.confirmingWorld); reflexivity.
Defined.

Lemma save_of_unparseable_file_witness :
  (handleConfirmSave_process (H := Toy.toyPdfLib) Toy.confirming Toy.broken
     None Toy.confirmingWorld).2 = Returned () ∧
  events (handleConfirmSave_process (H := Toy.toyPdfLib) Toy.confirming
            Toy.broken None Toy.confirmingWorld).1 =
    [EvPdfLoad []; EvConsoleError "Error saving PDF";
     EvAlert "Erro ao salvar o novo PDF."].
Proof.
  rewrite (save_of_unparseable_file (H := Toy.toyPdfLib) Toy.confirming
             Toy.broken None Toy.confirmingWorld eq_refl).
  split; reflexivity.
Defined.

Lemma save_write_failure_witness :
  ∃ (order : list nat) (arrays' : gmap nat (list nat)),
    handleConfirmSave_process (H := Toy.toyPdfLib) Toy.confirming Toy.doc5
        (Some (mkHandle (Returned Toy.failingWritable))) Toy.confirmingWorld =
      (mkWorld (stopProcessing Toy.confirming) arrays'
         ([EvPdfLoad [x00; x01; x02; x03; x04]] ++
            (EvRemovePage <$> order) ++
            [EvPdfSave; EvCreateWritable;
             EvWrite
               (doc_pages
                  (withDefaultPage (H := Toy.toyPdfLib)
                     (removeAll (H := Toy.toyPdfLib) order
                        (mkDoc [x00; x01; x02; x03; x04] ()))));
             EvConsoleError "Error saving PDF";
             EvAlert "Erro ao salvar o novo PDF."]),
       Returned ()) ∧
    order ≡ₚ elements ({[1; 3]} : gset nat) ∧
    strictly_descending order ∧
    doc_pages (removeAll (H := Toy.toyPdfLib) order
                 (mkDoc [x00; x01; x02; x03; x04] ()))
      = [x00; x02; x04].
Proof.
  refine (save_write_failure (H := Toy.toyPdfLib) Toy.confirming Toy.doc5
            (mkDoc [x00; x01; x02; x03; x04] ())
            (mkHandle (Returned Toy.failingWritable)) Toy.failingWritable
            (mkError "QuotaExceededError" "") Toy.confirmingWorld
            eq_refl _ eq_refl eq_refl).
  intros i Hi. simpl in Hi.
  apply elem_of_union in Hi as [Hi|Hi]; apply elem_of_singleton in Hi;
    subst; simpl; lia.
Defined.

(** ** The page mutator on bad input, and removal against extraction *)

Section MutatorEdges.
Context `{PdfLib}.

Lemma bind_outcome_Thrown {A B} (c : M A) (k : A → M B) (w : World)
    (e : JsError) :
  (c w).2 = Thrown e → (bind c k w).2 = Thrown e.
Proof. unfold bind. destruct (c w) as [w' [a|e']]; simpl; [done|congruence]. Qed.

Lemma removePage_fail (doc : PDFDocument) (i : nat) (w : World) :
  length (doc_pages doc) ≤ i →
  removePage doc i w =
    (mkWorld (app w) (arrays w) (events w ++ [EvRemovePage i]),
     Thrown RangeError).
Proof.
  intros Hi. unfold removePage.
  rewrite (bind_Returned _ _ _ _ _ (emit_run _ _)).
  rewrite decide_False by lia. done.
Qed.

(** X8. When some index to remove is out of range, [removePagesAndSave]
    throws on its first [removePage] call, the one for the largest index:
    no page has been removed and nothing is saved. *)
Theorem removePages_out_of_range_throws (f : File) (doc : PDFDocument)
    (a : nat) (sel : list nat) (i : nat) (w : World) :
  pdf_load (file_content f) = Some doc →
  arrays w !! a = Some sel →
  i ∈ sel → length (doc_pages doc) ≤ i →
  ∃ m, m ∈ sel ∧ (∀ j, j ∈ sel → j ≤ m) ∧
    removePagesAndSave f a w =
      (mkWorld (app w)
         (<[fresh (dom (arrays w)) := merge_sort (cmp_le descending) sel]>
            (arrays w))
         (events w ++ [EvPdfLoad (file_content f); EvRemovePage m]),
       Thrown RangeError).
Proof.
  intros Hload Ha Hi Hlen.
  pose proof (merge_sort_Permutation (cmp_le descending) sel) as Hperm.
  pose proof (StronglySorted_merge_sort (cmp_le descending) sel) as Hsorted.
  destruct (merge_sort (cmp_le descending) sel) as [|m rest] eqn:Hsort.
  { rewrite <-Hperm in Hi. by apply elem_of_nil in Hi. }
  apply StronglySorted_cons in Hsorted as [Hm _].
  assert (Hmax : ∀ j, j ∈ sel → j ≤ m).
  { intros j Hj. rewrite <-Hperm in Hj.
    apply elem_of_cons in Hj as [->|Hj]; [done|].
    rewrite Forall_forall in Hm. specialize (Hm j Hj).
    unfold cmp_le, descending in Hm. lia. }
  exists m. split; [rewrite <-Hperm; apply list_elem_of_here|].
  split; [done|].
  unfold removePagesAndSave.
  rewrite (bind_Returned _ _ _ _ _ (PDFDocument_load_run _ _ _ Hload)).
  rewrite (sorted_copy_run descending a sel) by done. rewrite Hsort.
  rewrite for_of_cons.
  erewrite bind_Thrown; last first.
  { erewrite bind_Thrown; [reflexivity|].
    apply removePage_fail. specialize (Hmax i Hi). lia. }
  simpl. by rewrite <-app_assoc.
Qed.

Lemma copyPages_one_fail (dst src : PDFDocument) (i : nat) (w : World) :
  length (doc_pages src) ≤ i →
  copyPages dst src [i] w =
    (mkWorld (app w) (arrays w) (events w ++ [EvCopyPages [i]]),
     Thrown TypeError).
Proof.
  intros Hi. unfold copyPages.
  assert (Hn : doc_pages src !! i = None) by (apply lookup_ge_None_2; lia).
  rewrite (bind_Returned _ _ _ _ _ (emit_run _ _)). simpl. by rewrite Hn.
Qed.

Lemma for_of_copy_fail (src : PDFDocument) (idxs : list nat) (i : nat)
    (doc : PDFDocument) (w : World) :
  i ∈ idxs → length (doc_pages src) ≤ i →
  (for_of idxs doc (λ doc idx,
      r ←, copyPages doc src [idx];
      match r.2 with
      | copiedPage :: _ => addPage r.1 copiedPage
      | [] => throw TypeError
      end) w).2 = Thrown TypeError.
Proof.
  intros Hi Hlen. revert doc w.
  induction idxs as [|x idxs IH]; intros doc w.
  { by apply elem_of_nil in Hi. }
  rewrite for_of_cons.
  destruct (decide (x < length (doc_pages src))) as [Hx|Hx].
  - destruct (lookup_lt_is_Some_2 (doc_pages src) x Hx) as [p Hp].
    erewrite bind_Returned; last first.
    { erewrite bind_Returned; [|by apply copyPages_one_run]. reflexivity. }
    apply IH. apply elem_of_cons in Hi as [->|Hi]; [lia|done].
  - erewrite bind_Thrown; [done|].
    erewrite bind_Thrown; [reflexivity|]. apply copyPages_one_fail. lia.
Qed.

(** X9. When some index to extract is out of range, [extractPagesAndSave]
    throws (the [TypeError] of [copyPages]) and returns no document. *)
Theorem extractPages_out_of_range_throws (f : File) (doc : PDFDocument)
    (a : nat) (sel : list nat) (i : nat) (w : World) :
  pdf_load (file_content f) = Some doc →
  arrays w !! a = Some sel →
  i ∈ sel → length (doc_pages doc) ≤ i →
  (extractPagesAndSave f a w).2 = Thrown TypeError.
Proof.
  intros Hload Ha Hi Hlen. unfold extractPagesAndSave.
  rewrite (bind_Returned _ _ _ _ _ (PDFDocument_load_run _ _ _ Hload)).
  unfold PDFDocument_create.
  erewrite bind_Returned; last first.
  { erewrite bind_Returned; [|apply emit_run]. reflexivity. }
  rewrite (sorted_copy_run ascending a sel) by done.
  apply bind_outcome_Thrown, (for_of_copy_fail doc _ i); [|done].
  by rewrite merge_sort_Permutation.
Qed.

Lemma for_of_merge_fail (files : list File) (bad : File)
    (merged : PDFDocument) (w : World) :
  bad ∈ files → pdf_load (file_content bad) = None →
  (for_of files merged (λ merged f,
      let arrayBuffer := file_content f in
      pdf ←, PDFDocument_load arrayBuffer;
      r ←, copyPages merged pdf (getPageIndices pdf);
      for_of r.2 r.1 addPage) w).2 = Thrown ParseError.
Proof.
  intros Hin Hbad. revert merged w.
  induction files as [|f files IH]; intros merged w.
  { by apply elem_of_nil in Hin. }
  rewrite for_of_cons.
  destruct (pdf_load (file_content f)) as [d|] eqn:Hf.
  - erewrite bind_Returned; last first.
    { simpl.
      rewrite (bind_Returned _ _ _ _ _ (PDFDocument_load_run _ _ _ Hf)).
      rewrite (bind_Returned _ _ _ _ _ (copyPages_all_run _ _ _)).
      apply for_of_addPage. }
    apply IH. apply elem_of_cons in Hin as [->|Hin]; [congruence|done].
  - erewrite bind_Thrown; [done|]. simpl.
    erewrite bind_Thrown; [reflexivity|]. by apply PDFDocument_load_fail.
Qed.

(** X10. When one of the files to merge does not parse, [mergePdfs] throws
    and returns no document, wherever the file stands in the list. *)
Theorem mergePdfs_unparseable_throws (files : list File) (bad : File)
    (w : World) :
  bad ∈ files → pdf_load (file_content bad) = None →
  (mergePdfs files w).2 = Thrown ParseError.
Proof.
  intros Hin Hbad. unfold mergePdfs, PDFDocument_create.
  erewrite bind_Returned; last first.
  { erewrite bind_Returned; [|apply emit_run]. reflexivity. }
  by apply bind_outcome_Thrown, (for_of_merge_fail files bad).
Qed.
End MutatorEdges.

Lemma removePages_out_of_range_throws_witness :
  ∃ m, m ∈ [1; 7] ∧ (∀ j, j ∈ [1; 7] → j ≤ m) ∧
    (removePagesAndSave (H := Toy.toyPdfLib) Toy.doc5 0
       (Toy.worldWith [1; 7])).2 = Thrown RangeError ∧
    events (removePagesAndSave (H := Toy.toyPdfLib) Toy.doc5 0
              (Toy.worldWith [1; 7])).1
      = [EvPdfLoad [x00; x01; x02; x03; x04]; EvRemovePage m].
Proof.
  destruct (removePages_out_of_range_throws (H := Toy.toyPdfLib) Toy.doc5
              (mkDoc [x00; x01; x02; x03; x04] ()) 0 [1; 7] 7
              (Toy.worldWith [1; 7])
              eq_refl eq_refl) as (m & Hm & Hmax & Hrun).
  - apply list_elem_of_further, list_elem_of_here.
  - simpl. lia.
  - exists m. rewrite Hrun. done.
Defined.

Lemma extractPages_out_of_range_throws_witness :
  (extractPagesAndSave (H := Toy.toyPdfLib) Toy.doc5 0
     (Toy.worldWith [0; 9; 2])).2 = Thrown TypeError.
Proof.
  apply (extractPages_out_of_range_throws (H := Toy.toyPdfLib) Toy.doc5
           (mkDoc [x00; x01; x02; x03; x04] ()) 0 [0; 9; 2] 9
           (Toy.worldWith [0; 9; 2])
           eq_refl eq_refl).
  - apply list_elem_of_further, list_elem_of_here.
  - simpl. lia.
Defined.

Lemma mergePdfs_unparseable_throws_witness :
  (mergePdfs (H := Toy.toyPdfLib) [Toy.docA; Toy.broken; Toy.docB]
     initialWorld).2 = Thrown ParseError.
Proof.
  apply (mergePdfs_unparseable_throws (H := Toy.toyPdfLib)
           [Toy.docA; Toy.broken; Toy.docB] Toy.broken initialWorld).
  - apply list_elem_of_further, list_elem_of_here.
  - reflexivity.
Defined.

Section Complement.
Context `{PdfLib}.

Lemma StronglySorted_filter {A} (R : relation A) (P : A → Prop)
    `{∀ x, Decision (P x)} (l : list A) :
  StronglySorted R l → StronglySorted R (filter P l).
Proof.
  induction 1 as [|x l Hs IH Hx]; [constructor|].
  rewrite filter_cons. destruct (decide (P x)); [|done].
  constructor; [done|]. rewrite Forall_forall in Hx |- *.
  intros y [_ Hy]%list_elem_of_filter. by apply Hx.
Qed.

Lemma seq_ascending (k n : nat) : StronglySorted (cmp_le ascending) (seq k n).
Proof.
  revert k. induction n as [|n IH]; intros k; simpl; constructor; [apply IH|].
  apply Forall_seq. intros j Hj. unfold cmp_le, ascending. lia.
Qed.

(** The pages that are left after excising [sel] are those at the positions
    outside [sel], in ascending order. *)
Lemma excise_from_pages_at (sel : list nat) (pre pages : list Page) :
  pages_at (pre ++ pages)
    (filter (λ i, i ∉ sel) (seq (length pre) (length pages)))
    (excise_from (length pre) sel pages).
Proof.
  revert pre. induction pages as [|p pages IH]; intros pre; simpl.
  { constructor. }
  specialize (IH (pre ++ [p])).
  rewrite length_app, <-(assoc_L (++)) in IH. simpl in IH.
  replace (length pre + 1) with (S (length pre)) in * by lia.
  rewrite filter_cons.
  destruct (decide (length pre ∈ sel)) as [Hin|Hnin].
  - rewrite decide_False by (intros Hn; by apply Hn). done.
  - rewrite decide_True by done. constructor; [|done].
    by rewrite lookup_app_r, Nat.sub_diag by lia.
Qed.

(** X11. Removing a set of pages and extracting its complement give files
    with the same pages: for distinct in-range indices [sel], the file that
    [removePagesAndSave] returns for [sel] and the file that
    [extractPagesAndSave] returns for the remaining indices, in whatever
    order they are listed, load with the same pages in the same order, the
    original ones outside [sel] when there is one.  (The bytes of the two
    files need not be the same: the documents differ in their rest.) *)
Theorem remove_is_extract_complement (f : File) (doc : PDFDocument)
    (a a' : nat) (sel others : list nat) (w w' : World) :
  pdf_load (file_content f) = Some doc →
  arrays w !! a = Some sel →
  NoDup sel →
  Forall (λ i, i < length (doc_pages doc)) sel →
  arrays w' !! a' = Some others →
  others ≡ₚ filter (λ i, i ∉ sel) (seq 0 (length (doc_pages doc))) →
  ∃ (out out' : bytes) (kept : list Page) (rest rest' : Rest),
    (removePagesAndSave f a w).2 = Returned out ∧
    (extractPagesAndSave f a' w').2 = Returned out' ∧
    pdf_load out = Some (mkDoc kept rest) ∧
    pdf_load out' = Some (mkDoc kept rest') ∧
    (length sel < length (doc_pages doc) →
     kept = excise sel (doc_pages doc)).
Proof.
  intros Hload Ha Hnd Hr Ha' Hothers.
  destruct (removePagesAndSave_run f doc a sel w Hload Ha Hnd Hr)
    as (Hrun & Hpages & Hlen).
  assert (Hsort : merge_sort (cmp_le ascending) others
                  = filter (λ i, i ∉ sel) (seq 0 (length (doc_pages doc)))).
  { apply (StronglySorted_unique_strong (cmp_le ascending)).
    - unfold cmp_le, ascending. intros x y _ _ ??. lia.
    - apply StronglySorted_merge_sort; apply _.
    - apply StronglySorted_filter, seq_ascending.
    - by rewrite merge_sort_Permutation. }
  destruct (extractPagesAndSave_run f doc (excise sel (doc_pages doc)) a'
              others w' Hload Ha') as [Hrun' Hpages'].
  { rewrite Hsort. apply (excise_from_pages_at sel [] (doc_pages doc)). }
  destruct (save_loads (removeAll (merge_sort (cmp_le descending) sel) doc))
    as [rest Hrest].
  destruct (save_loads
              (extracted doc (merge_sort (cmp_le ascending) others)
                 (mkDoc [] rest_create))) as [rest' Hrest'].
  rewrite Hpages in Hrest. rewrite Hpages' in Hrest'.
  eexists _, _, _, rest, rest'. rewrite Hrun, Hrun'.
  split; [done|]. split; [done|]. split; [exact Hrest|].
  split; [exact Hrest'|].
  intros Hlt. destruct (excise sel (doc_pages doc)); [simpl in Hlen; lia|done].
Qed.
End Complement.

Lemma remove_is_extract_complement_witness :
  ∃ (out out' : bytes) (kept : list byte) (rest rest' : ()),
    (removePagesAndSave (H := Toy.toyPdfLib) Toy.doc5 0
       (Toy.worldWith [1; 3])).2 = Returned out ∧
    (extractPagesAndSave (H := Toy.toyPdfLib) Toy.doc5 0
       (Toy.worldWith [4; 0; 2])).2 = Returned out' ∧
    Toy.toy_load out = Some (mkDoc kept rest) ∧
    Toy.toy_load out' = Some (mkDoc kept rest') ∧
    (2 < 5 → kept = [x00; x02; x04]).
Proof.
  apply (remove_is_extract_complement (H := Toy.toyPdfLib) Toy.doc5
           (mkDoc [x00; x01; x02; x03; x04] ()) 0 0 [1; 3] [4; 0; 2]
           (Toy.worldWith [1; 3]) (Toy.worldWith [4; 0; 2])).
  - reflexivity.
  - reflexivity.
  - apply (bool_decide_unpack _). vm_compute. exact I.
  - repeat constructor; simpl; lia.
  - reflexivity.
  - apply (bool_decide_unpack _). vm_compute. exact I.
Defined.

(** ** Thumbnails in general *)

Lemma for_of_app {A S} (l1 l2 : list A) (s : S) (body : S → A → M S)
    (w : World) :
  for_of (l1 ++ l2) s body w =
    bind (for_of l1 s body) (λ s', for_of l2 s' body) w.
Proof.
  revert s w. induction l1 as [|x l1 IH]; intros s w; [reflexivity|].
  change ((x :: l1) ++ l2) with (x :: (l1 ++ l2)). rewrite !for_of_cons.
  unfold bind. destruct (body s x w) as [w1 [s1|e]]; [|reflexivity].
  rewrite IH. reflexivity.
Qed.

Section ThumbnailsGeneral.
Context `{PdfJs}.

(** The loop over the pages [mid] of the document [pre ++ mid ++ post], when
    every page of [mid] renders. *)
Lemma for_of_thumbnails_ctx (b : Browser) (total : nat)
    (pre mid post : list PageProxy) (acc : list PageThumbnail) (w : World) :
  Forall (λ page, ∃ dataUrl, render_result page = Returned dataUrl) mid →
  ∃ thumbs : list PageThumbnail,
    for_of (seq (S (length pre)) (length mid)) acc (λ thumbnails i,
      page ←, getPage (pre ++ mid ++ post) i;
      if getContext_2d b i then
        dataUrl ←, render page i;
        let thumbnails' :=
          thumbnails ++ [mkThumb (i - 1) dataUrl
                           (viewport_width page) (viewport_height page)] in
        emit (EvProgress i total);,
        ret thumbnails'
      else ret thumbnails) w =
    (mkWorld (app w) (arrays w)
       (events w ++ thumbnail_events b total (S (length pre)) (length mid)),
     Returned (acc ++ thumbs)) ∧
    index <$> thumbs =
      filter (λ i, getContext_2d b (S i) = true)
        (seq (length pre) (length mid)) ∧
    Forall (thumbnail_of (pre ++ mid ++ post)) thumbs.
Proof.
  revert pre acc w.
  induction mid as [|page mid IH]; intros pre acc w Hren.
  - exists []. simpl. unfold ret, thumbnail_events. simpl.
    by rewrite !app_nil_r, world_eta.
  - apply Forall_cons in Hren as [[dataUrl Hpage] Hren].
    assert (Hget : ∀ w0, getPage (pre ++ (page :: mid) ++ post)
                           (S (length pre)) w0 = (w0, Returned page)).
    { intros w0. unfold getPage. rewrite lookup_app_r by lia.
      by rewrite Nat.sub_diag. }
    simpl length. rewrite <-cons_seq, for_of_cons.
    unfold thumbnail_events. rewrite <-cons_seq, !filter_cons.
    destruct (getContext_2d b (S (length pre))) eqn:Hctx.
    + destruct (IH (pre ++ [page])
        (acc ++ [mkThumb (length pre) dataUrl
                   (viewport_width page) (viewport_height page)])
        (mkWorld (app w) (arrays w)
           (events w ++ [EvRender (S (length pre));
                         EvProgress (S (length pre)) total])) Hren)
        as (thumbs & Hrun & Hidx & Hof).
      rewrite length_app in Hrun, Hidx. simpl in Hrun, Hidx.
      replace (length pre + 1) with (S (length pre)) in Hrun, Hidx by lia.
      rewrite <-!(assoc_L (++)) in Hrun, Hof. simpl in Hrun, Hof.
      eexists (_ :: thumbs). split; [|split].
      * erewrite bind_Returned; last first.
        { cbv beta. rewrite (bind_Returned _ _ _ _ _ (Hget _)), ?Hctx.
          unfold render. unfold bind at 1. unfold bind at 1.
          rewrite emit_run, Hpage. unfold ret at 1. unfold bind.
          rewrite emit_run. unfold ret. simpl. reflexivity. }
        rewrite Nat.sub_0_r, <-(assoc_L (++) (events w)). simpl.
        rewrite Hrun. try rewrite decide_True by done. simpl.
        unfold thumbnail_events. by rewrite <-!(assoc_L (++)).
      * rewrite fmap_cons, Hidx. simpl index. rewrite <-cons_seq.
        by rewrite filter_cons, decide_True.
      * constructor; [|done]. exists page. simpl.
        split; [|done]. rewrite lookup_app_r by lia.
        by rewrite Nat.sub_diag.
    + destruct (IH (pre ++ [page]) acc w Hren)
        as (thumbs & Hrun & Hidx & Hof).
      rewrite length_app in Hrun, Hidx. simpl in Hrun, Hidx.
      replace (length pre + 1) with (S (length pre)) in Hrun, Hidx by lia.
      rewrite <-!(assoc_L (++)) in Hrun, Hof. simpl in Hrun, Hof.
      exists thumbs. split; [|split].
      * erewrite bind_Returned; last first.
        { cbv beta. rewrite (bind_Returned _ _ _ _ _ (Hget _)), ?Hctx.
          reflexivity. }
        simpl. rewrite Hrun. try rewrite decide_False by done. done.
      * rewrite Hidx, <-cons_seq.
        rewrite filter_cons, decide_False; [done|]. by rewrite Hctx.
      * done.
Qed.

(** X12. When a document opens and each of its N pages renders,
    [generateThumbnails] returns one thumbnail for every page whose canvas
    gives a 2D context and passes over the others: the indices are those
    pages' positions in ascending order, each thumbnail carries the image and
    viewport of the page at its index, and [onProgress(i, N)] is called for
    exactly the rendered pages, in page order. *)
Theorem generateThumbnails_skips_without_context (b : Browser) (f : File)
    (pdf : list PageProxy) (w : World) :
  pdfjs_open (file_content f) = Returned pdf →
  Forall (λ page, ∃ dataUrl, render_result page = Returned dataUrl) pdf →
  let run := generateThumbnails b f (λ current total,
               emit (EvProgress current total)) w in
  ∃ thumbs : list PageThumbnail,
    run.2 = Returned thumbs ∧
    index <$> thumbs =
      filter (λ i, getContext_2d b (S i) = true) (seq 0 (length pdf)) ∧
    Forall (thumbnail_of pdf) thumbs ∧
    events run.1 =
      events w ++ [EvGetDocument (file_content f)] ++
        thumbnail_events b (length pdf) 1 (length pdf).
Proof.
  intros Hopen Hren run. subst run. unfold generateThumbnails.
  destruct (for_of_thumbnails_ctx b (length pdf) [] pdf [] []
    (mkWorld (app w) (arrays w)
       (events w ++ [EvGetDocument (file_content f)])) Hren)
    as (thumbs & Hrun & Hidx & Hof).
  rewrite app_nil_r in Hrun, Hof. simpl in Hrun, Hidx, Hof.
  exists thumbs.
  erewrite bind_Returned; last first.
  { rewrite getDocument_run, Hopen. reflexivity. }
  rewrite Hrun. simpl. split; [done|]. split; [done|]. split; [done|].
  by rewrite <-(assoc_L (++)).
Qed.

(** X13. When the render of a page throws, [generateThumbnails] rejects with
    that error and returns no thumbnail at all, although the pages before it
    were rendered and reported. *)
Theorem generateThumbnails_render_failure (b : Browser) (f : File)
    (done_ rest : list PageProxy) (page : PageProxy) (e : JsError)
    (w : World) :
  pdfjs_open (file_content f) = Returned (done_ ++ page :: rest) →
  Forall (λ p, ∃ dataUrl, render_result p = Returned dataUrl) done_ →
  getContext_2d b (S (length done_)) = true →
  render_result page = Thrown e →
  let total := length (done_ ++ page :: rest) in
  generateThumbnails b f (λ current total,
      emit (EvProgress current total)) w =
    (mkWorld (app w) (arrays w)
       (events w ++ [EvGetDocument (file_content f)] ++
          thumbnail_events b total 1 (length done_) ++
          [EvRender (S (length done_))]),
     Thrown e).
Proof.
  intros Hopen Hren Hctx Hpage total. subst total.
  unfold generateThumbnails.
  erewrite bind_Returned; last first.
  { rewrite getDocument_run, Hopen. reflexivity. }
  cbv zeta. rewrite length_app. simpl length.
  rewrite seq_app, for_of_app. simpl seq.
  destruct (for_of_thumbnails_ctx b (length done_ + S (length rest)) []
    done_ (page :: rest) []
    (mkWorld (app w) (arrays w)
       (events w ++ [EvGetDocument (file_content f)])) Hren)
    as (thumbs & Hrun & _).
  simpl in Hrun. rewrite (bind_Returned _ _ _ _ _ Hrun).
  rewrite for_of_cons.
  erewrite bind_Thrown; last first.
  { cbv beta. erewrite bind_Returned; last first.
    { unfold getPage. replace (1 + length done_) with (S (length done_)) by lia.
      rewrite lookup_app_r by lia. rewrite Nat.sub_diag. reflexivity. }
    replace (1 + length done_) with (S (length done_)) by lia.
    rewrite Hctx. erewrite bind_Thrown; [reflexivity|].
    unfold render. rewrite (bind_Returned _ _ _ _ _ (emit_run _ _)).
    rewrite Hpage. reflexivity. }
  simpl. by rewrite <-!(assoc_L (++)).
Qed.
End ThumbnailsGeneral.

Lemma generateThumbnails_skips_without_context_witness :
  let run := generateThumbnails (H := Toy.toyPdfJs)
               Samples.noContextForPage2 Toy.doc5
               (λ current total, emit (EvProgress current total))
               initialWorld in
  ∃ thumbs : list PageThumbnail,
    run.2 = Returned thumbs ∧
    index <$> thumbs = [0; 2; 3; 4] ∧
    Forall (thumbnail_of (Toy.toyPage <$> [x00; x01; x02; x03; x04])) thumbs ∧
    events run.1 =
      [EvGetDocument [x00; x01; x02; x03; x04];
       EvRender 1; EvProgress 1 5; EvRender 3; EvProgress 3 5;
       EvRender 4; EvProgress 4 5; EvRender 5; EvProgress 5 5].
Proof.
  refine (generateThumbnails_skips_without_context (H := Toy.toyPdfJs)
            Samples.noContextForPage2 Toy.doc5
            (Toy.toyPage <$> [x00; x01; x02; x03; x04]) initialWorld
            eq_refl _).
  repeat constructor; by eexists.
Defined.

Lemma generateThumbnails_render_failure_witness :
  generateThumbnails (H := Samples.flakyPdfJs) Toy.noPicker Samples.damaged
      (λ current total, emit (EvProgress current total)) initialWorld =
    (mkWorld initialApp ∅
       [EvGetDocument [x00; x01; xff; x03];
        EvRender 1; EvProgress 1 4; EvRender 2; EvProgress 2 4; EvRender 3],
     Thrown (mkError "RenderingCancelledException" "")).
Proof.
  refine (generateThumbnails_render_failure (H := Samples.flakyPdfJs)
            Toy.noPicker Samples.damaged
            (Toy.toyPage <$> [x00; x01])
            [Toy.toyPage x03]
            (mkPageProxy 306 396
               (Thrown (mkError "RenderingCancelledException" "")))
            (mkError "RenderingCancelledException" "") initialWorld
            eq_refl _ eq_refl eq_refl).
  repeat constructor; by eexists.
Defined.

(** ** The selection model *)

Lemma toggleIndex_twice (idx : nat) (prev : gset nat) :
  toggleIndex idx (toggleIndex idx prev) = prev.
Proof.
  unfold toggleIndex. destruct (decide (idx ∈ prev)) as [Hin|Hnin].
  - rewrite decide_False.
    + apply set_eq. intros i.
      rewrite elem_of_union, elem_of_singleton, elem_of_difference,
        elem_of_singleton.
      split; [intros [->|[? _]]; done|].
      intros Hi. destruct (decide (i = idx)); [by left|by right].
    + rewrite elem_of_difference, elem_of_singleton. by intros [_ ?].
  - rewrite decide_True.
    + apply set_eq. intros i.
      rewrite elem_of_difference, elem_of_union, !elem_of_singleton.
      split; [intros [[->|?] ?]; done|].
      intros Hi. split; [by right|]. by intros ->.
    + apply elem_of_union. left. by apply elem_of_singleton.
Qed.

(** X14. A plain click toggles the page: it selects the page exactly when it
    was not selected, it makes the page the last-touched one, and a second
    plain click on the same page restores the selection. *)
Theorem click_toggles (idx : nat) (w : World) :
  (idx ∈ selectedIndices (app (after (click idx false) w)) ↔
   idx ∉ selectedIndices (app w)) ∧
  (∀ i, i ≠ idx →
        (i ∈ selectedIndices (app (after (click idx false) w)) ↔
         i ∈ selectedIndices (app w))) ∧
  lastSelectedIndex (app (after (click idx false) w)) = Some idx ∧
  selectedIndices (app (after (click idx false;, click idx false) w))
    = selectedIndices (app w).
Proof.
  assert (Hsel : selectedIndices (app (after (click idx false) w))
                 = toggleIndex idx (selectedIndices (app w))).
  { unfold after, click, fromRender, togglePageSelection. simpl.
    by destruct (lastSelectedIndex (app w)). }
  rewrite Hsel. split; [|split; [|split]].
  - unfold toggleIndex. destruct (decide (idx ∈ selectedIndices (app w))).
    + rewrite elem_of_difference, elem_of_singleton. split; [by intros [_ ?]|done].
    + rewrite elem_of_union, elem_of_singleton. split; [done|by left].
  - intros i Hne. unfold toggleIndex.
    destruct (decide (idx ∈ selectedIndices (app w))).
    + rewrite elem_of_difference, elem_of_singleton. split; [by intros [? _]|done].
    + rewrite elem_of_union, elem_of_singleton. split; [by intros [?|?]|by right].
  - unfold after, click, fromRender, togglePageSelection. simpl.
    by destruct (lastSelectedIndex (app w)).
  - unfold after, click, fromRender, togglePageSelection, bind. simpl.
    destruct (lastSelectedIndex (app w)); simpl; apply toggleIndex_twice.
Qed.

Lemma addRange_twice (start end_ : nat) (prev : gset nat) :
  addRange start end_ (addRange start end_ prev) = addRange start end_ prev.
Proof.
  apply set_eq. intros i. rewrite !elem_of_addRange. tauto.
Qed.

(** X15. A shift-click with a last-touched index leaves that index as it is,
    so successive shift-clicks all measure from the same page, and repeating
    a shift-click changes nothing; without a last-touched index a shift-click
    is a plain click. *)
Theorem shift_click_keeps_anchor (idx : nat) (w : World) :
  (∀ last, lastSelectedIndex (app w) = Some last →
     lastSelectedIndex (app (after (click idx true) w)) = Some last ∧
     app (after (click idx true;, click idx true) w)
       = app (after (click idx true) w)) ∧
  (lastSelectedIndex (app w) = None →
   after (click idx true) w = after (click idx false) w).
Proof.
  split.
  - intros last Hlast.
    unfold after, click, fromRender, togglePageSelection, bind.
    rewrite Hlast. simpl. rewrite Hlast. simpl.
    split; [done|]. by rewrite addRange_twice.
  - intros Hlast. unfold after, click, fromRender, togglePageSelection.
    by rewrite Hlast.
Qed.

Lemma shift_click_keeps_anchor_witness :
  lastSelectedIndex
    (app (after (click 5 true) (after (click 2 false) initialWorld)))
    = Some 2 ∧
  app (after (click 5 true;, click 5 true) (after (click 2 false) initialWorld))
    = app (after (click 5 true) (after (click 2 false) initialWorld)).
Proof.
  apply (proj1 (shift_click_keeps_anchor 5 (after (click 2 false) initialWorld))
           2 eq_refl).
Defined.

(** ** Loading a document *)

Global Instance same_but_progress_preorder : PreOrder same_but_progress.
Proof.
  split; [done|]. intros x y z (? & ? & ?) (? & ? & ?).
  unfold same_but_progress. repeat split; congruence.
Qed.

Section Loading.
Context `{PdfLib} `{PdfJs}.

Lemma stable_generateThumbnails_progress (b : Browser) (f : File) :
  stable same_but_progress (generateThumbnails b f (λ current total,
    setLoadingProgress (percent current total))).
Proof.
  assert (Hemit : ∀ e, stable same_but_progress (emit e)) by done.
  unfold generateThumbnails.
  apply stable_bind; [apply _| |intros pdf].
  { unfold getDocument. apply stable_bind; [apply _|apply Hemit|].
    intros. destruct (pdfjs_open _); [apply stable_ret|apply stable_throw];
      apply _. }
  apply stable_for_of; [apply _|]. intros thumbs i.
  apply stable_bind; [apply _| |intros page].
  { unfold getPage. destruct i as [|j]; [apply stable_throw, _|].
    destruct (pdf !! j); [apply stable_ret|apply stable_throw]; apply _. }
  destruct (getContext_2d b i); [|apply stable_ret, _].
  apply stable_bind; [apply _| |intros dataUrl].
  { unfold render. apply stable_bind; [apply _|apply Hemit|].
    intros. destruct (render_result page);
      [apply stable_ret|apply stable_throw]; apply _. }
  apply stable_bind; [apply _|done|].
  intros. apply stable_ret, _.
Qed.

(** X16. [handleFileSelect] never touches the selection, the last-touched
    index, the save modal or the array store; it always ends with
    [isProcessing] cleared and the proposed file name set.  When pdf.js
    cannot open the file the state has no file and the thumbnails it had;
    otherwise, if the run leaves a file, it is the uploaded one and every
    thumbnail index is below its page count. *)
Theorem handleFileSelect_outcome (b : Browser) (f : File) (w : World) :
  let st := app w in
  let st' := app (after (handleFileSelect b f) w) in
  selectedIndices st' = selectedIndices st ∧
  lastSelectedIndex st' = lastSelectedIndex st ∧
  showSaveModal st' = showSaveModal st ∧
  arrays (after (handleFileSelect b f) w) = arrays w ∧
  isProcessing st' = false ∧
  outputFilename st' = stripPdfExtension (file_name f) +:+ "_editado" ∧
  (file st' = None ∧ thumbnails st' = thumbnails st ∨
   file st' = Some f ∧ Forall (λ t, index t < numPages f) (thumbnails st')) ∧
  (∀ e, pdfjs_open (file_content f) = Thrown e → file st' = None).
Proof.
  intros st st'. subst st st'.
  assert (Hafter : after (handleFileSelect b f) w
                   = after (handleFileSelect_load b f)
                       (after (handleFileSelect_begin f) w)) by done.
  rewrite Hafter. clear Hafter.
  set (w0 := after (handleFileSelect_begin f) w).
  assert (Hw0 : app w0 = mkApp (Some f) (thumbnails (app w))
                  (selectedIndices (app w)) (lastSelectedIndex (app w))
                  true 0 (showSaveModal (app w))
                  (stripPdfExtension (file_name f) +:+ "_editado")
                ∧ arrays w0 = arrays w) by done.
  destruct Hw0 as [Hw0 Harr0]. clearbody w0.
  destruct (stable_generateThumbnails_progress b f w0)
    as (Hcore & Hname & Harr).
  destruct (generateThumbnails_core b f w0) as [_ Hbound].
  assert (Hthrow : ∀ e, pdfjs_open (file_content f) = Thrown e →
            ∃ w1, generateThumbnails b f (λ current total,
                    setLoadingProgress (percent current total)) w0
                  = (w1, Thrown e)).
  { intros e He. eexists. unfold generateThumbnails.
    erewrite bind_Thrown; [reflexivity|]. by rewrite getDocument_run, He. }
  unfold after, handleFileSelect_load, try_finally, try_catch, bind.
  destruct (generateThumbnails b f _ w0) as [w1 [thumbs|e]]; simpl in *;
    unfold core in Hcore; injection Hcore as Hc1 Hc2 Hc3 Hc4 Hc5 Hc6;
    rewrite Hw0 in *; simpl in *.
  - repeat (split; [congruence|]). split.
    + right. split; [done|]. by apply Hbound.
    + intros e He. destruct (Hthrow e He) as [w2 [=]].
  - repeat (split; [congruence|]). split; [|done].
    left. split; [done|]. congruence.
Qed.

(** X17. In every reachable session at most one asynchronous handler is in
    flight: a load, a save that waits at the save dialog, or a save that
    waits for the page mutator.  [isProcessing] is set exactly while a load
    or a save past the dialog is in flight: while a save waits at the dialog
    [isProcessing] is not set, and the modal is closed over the loaded
    document.  The save modal is open only over a loaded document with
    nothing in flight; without a loaded document there are no thumbnails and
    no selection; and every thumbnail index is below the page count of the
    loaded document. *)
Theorem session_flags (s : Session) :
  reachable s →
  let st := app (world s) in
  inFlight s ≤ 1 ∧
  (isProcessing st = true ↔ loads s ≠ [] ∨ saves s ≠ []) ∧
  (picks s ≠ [] →
   isProcessing st = false ∧ showSaveModal st = false ∧ is_Some (file st)) ∧
  (showSaveModal st = true → is_Some (file st) ∧ inFlight s = 0) ∧
  (file st = None → thumbnails st = [] ∧ selectedIndices st = ∅) ∧
  Forall (λ t, index t < totalPages st) (thumbnails st).
Proof.
  intros Hph%reachable_phase st. subst st. unfold inFlight, totalPages.
  destruct Hph as [Hf Hbl Hp Hl Hk Hs|f Hf Hbl Hp Hl Hk Hs
                  |f Hf Hb Hp Hl Hk Hs|f p Hf Hb Hp Hm Hl Hk Hs
                  |f p Hf Hb Hp Hm Hl Hk Hs];
    rewrite Hf, Hp, Hl, Hk, Hs; simpl.
  - destruct Hbl as (Hth & Hsel & _ & Hmodal). rewrite Hth, Hmodal.
    split; [lia|]. split; [by intuition|]. split; [done|]. split; [done|].
    split; [done|constructor].
  - destruct Hbl as (Hth & Hsel & _ & Hmodal). rewrite Hth, Hmodal.
    split; [lia|]. split; [split; [by left|done]|]. split; [done|].
    split; [done|]. split; [done|constructor].
  - destruct Hb as (Hth & _).
    split; [lia|]. split; [by intuition|]. split; [done|].
    split; [intros _; split; [by eexists|done]|]. split; [done|done].
  - destruct Hb as (Hth & _). rewrite Hm.
    split; [lia|]. split; [by intuition|].
    split; [intros _; split; [done|split; [done|by eexists]]|].
    split; [done|]. split; [done|done].
  - destruct Hb as (Hth & _). rewrite Hm.
    split; [lia|]. split; [split; [by right|done]|]. split; [done|].
    split; [done|]. split; [done|done].
Qed.
End Loading.

Lemma session_flags_witness :
  let st := app (world Toy.atPicker) in
  inFlight Toy.atPicker ≤ 1 ∧
  (isProcessing st = true ↔ loads Toy.atPicker ≠ [] ∨ saves Toy.atPicker ≠ []) ∧
  (picks Toy.atPicker ≠ [] →
   isProcessing st = false ∧ showSaveModal st = false ∧ is_Some (file st)) ∧
  (showSaveModal st = true → is_Some (file st) ∧ inFlight Toy.atPicker = 0) ∧
  (file st = None → thumbnails st = [] ∧ selectedIndices st = ∅) ∧
  Forall (λ t, index t < totalPages (H0 := Toy.toyPdfJs) st) (thumbnails st).
Proof.
  apply (session_flags (H := Toy.toyPdfLib) (H0 := Toy.toyPdfJs) Toy.atPicker).
  exists Toy.choosing. vm_compute. reflexivity.
Defined.

(** In that session the save dialog is open: a save is in flight, with
    [isProcessing] not set, and the page takes no click. *)
Example atPicker_waits :
  length (picks Toy.atPicker) = 1 ∧
  isProcessing (app (world Toy.atPicker)) = false ∧
  showSaveModal (app (world Toy.atPicker)) = false ∧
  step (H := Toy.toyPdfLib) (H0 := Toy.toyPdfJs) (ActToggle 0 false)
    Toy.atPicker = None ∧
  (isProcessing ∘ app ∘ world) <$>
    step (H := Toy.toyPdfLib) (H0 := Toy.toyPdfJs) (ActPickerSettle 0)
      Toy.atPicker = Some true.
Proof. by vm_compute. Qed.

Section LoadedFile.
Context `{PdfLib} `{PdfJs}.

Lemma run_loaded_file (acts : list Action) (s s' : Session) :
  phase s →
  (∀ f, file (app (world s)) = Some f → file_type f = "application/pdf") →
  run acts s = Some s' →
  ∀ f, file (app (world s')) = Some f → file_type f = "application/pdf".
Proof.
  revert s. induction acts as [|a acts IH]; intros s Hph Hty Hrun;
    simpl in Hrun.
  - by injection Hrun as <-.
  - destruct (step a s) as [s1|] eqn:Hstep; [|done].
    apply (IH s1); [by apply (step_phase a s)| |done].
    intros f Hf.
    destruct (step_selection a s s1 Hph Hstep)
      as [_ [Heq|[Hnone|(f' & Hf' & Hty')]]].
    + apply Hty. by rewrite <-Heq.
    + congruence.
    + congruence.
Qed.

(** X18. Only PDFs are ever loaded: in every reachable session the loaded
    file, if there is one, has the type [application/pdf] (the upload area
    turns every other file away). *)
Theorem loaded_file_is_pdf (s : Session) (f : File) :
  reachable s →
  file (app (world s)) = Some f →
  file_type f = "application/pdf".
Proof.
  intros [acts Hrun]. apply (run_loaded_file acts initialSession s); [| |done].
  - by apply PhEmpty.
  - by intros f' [=].
Qed.
End LoadedFile.

Lemma loaded_file_is_pdf_witness :
  file_type Toy.doc5 = "application/pdf" ∧
  file (app (world Toy.browsed)) = Some Toy.doc5.
Proof.
  assert (Hfile : file (app (world Toy.browsed)) = Some Toy.doc5)
    by (vm_compute; reflexivity).
  split; [|exact Hfile].
  apply (loaded_file_is_pdf (H := Toy.toyPdfLib) (H0 := Toy.toyPdfJs)
           Toy.browsed Toy.doc5); [|exact Hfile].
  exists Toy.browsing. vm_compute. reflexivity.
Defined.

(** * The merger *)

Module MergerFacts.
Import Merger.

Lemma file_imap (newId : nat → string) (l : list File) :
  file <$> imap (λ k f, mkPdfFile (newId k) f) l = l.
Proof.
  revert newId. induction l as [|f l IH]; intros newId; [done|].
  rewrite imap_cons, fmap_cons. simpl. f_equal. apply (IH (newId ∘ S)).
Qed.

(** X19. Adding files to the merge list appends exactly the PDFs among
    them, in the order given, after the entries already there, which are
    left untouched; the other files are dropped silently, and [null] changes
    nothing. *)
Theorem handleFileSelect_appends (newId : nat → string) (files : list File)
    (st : State) (w : World) :
  let r := handleFileSelect newId (Some files) (st, w) in
  file <$> pdfFiles r.1.1 = (file <$> pdfFiles st) ++ filter isPdf files ∧
  take (length (pdfFiles st)) (pdfFiles r.1.1) = pdfFiles st ∧
  Forall (λ pf, isPdf (file pf))
    (drop (length (pdfFiles st)) (pdfFiles r.1.1)) ∧
  r.1.2 = w ∧ r.2 = Returned () ∧
  handleFileSelect newId None (st, w) = ((st, w), Returned ()).
Proof.
  simpl. rewrite fmap_app, file_imap, take_app_length, drop_app_length.
  repeat split.
  apply Forall_forall. intros pf Hpf.
  assert (Hin : file pf ∈ filter isPdf files).
  { rewrite <-(file_imap newId (filter isPdf files)).
    by apply list_elem_of_fmap_2. }
  by apply list_elem_of_filter in Hin as [? _].
Qed.

Lemma filter_other_ids (l : list PdfFile) (id0 : string) :
  id0 ∉ id <$> l → filter (λ f, id f ≠ id0) l = l.
Proof.
  induction l as [|pf l IH]; [done|]. rewrite fmap_cons, not_elem_of_cons.
  intros [Hne Hnin]. rewrite filter_cons, decide_True by done.
  by rewrite IH.
Qed.

(** X20. When the identifiers in the list are distinct, [removeFile] of the
    identifier of the entry at position [k] removes that entry and nothing
    else; an identifier that is not in the list removes nothing. *)
Theorem removeFile_removes_one (st : State) (w : World) (k : nat)
    (pf : PdfFile) :
  NoDup (id <$> pdfFiles st) →
  pdfFiles st !! k = Some pf →
  pdfFiles (removeFile (id pf) (st, w)).1.1 = delete k (pdfFiles st) ∧
  (∀ id0, id0 ∉ id <$> pdfFiles st →
          pdfFiles (removeFile id0 (st, w)).1.1 = pdfFiles st).
Proof.
  intros Hnd Hk. simpl. split; [|intros id0; apply filter_other_ids].
  revert k Hnd Hk. generalize (pdfFiles st). clear st.
  induction l as [|x l IH]; intros k Hnd Hk; [done|].
  rewrite fmap_cons in Hnd. apply NoDup_cons in Hnd as [Hnin Hnd].
  destruct k as [|k]; simpl in Hk.
  - injection Hk as ->. rewrite filter_cons, decide_False by (by intros ?).
    by apply filter_other_ids.
  - rewrite filter_cons, decide_True.
    + simpl. f_equal. by apply IH.
    + intros Heq. apply Hnin. rewrite Heq.
      apply list_elem_of_fmap_2. by eapply list_elem_of_lookup_2.
Qed.

(** Dragging an entry over itself, or with no drag in progress, changes
    nothing. *)
Lemma handleDragEnter_idle (st : State) (index : nat) (sw : State * World) :
  draggedIndex st = None ∨ draggedIndex st = Some index →
  handleDragEnter st index sw = (sw, Returned ()).
Proof.
  unfold handleDragEnter. intros [-> | ->]; [done|].
  by rewrite decide_True.
Qed.

(** X21. Dragging the entry at [dragged] over the entry at [index] moves it
    there: the list keeps its entries and its length, the dragged entry is
    at [index] afterwards, which is also the new [draggedIndex], and the
    other entries keep their relative order. *)
Theorem handleDragEnter_moves (st : State) (w : World)
    (dragged index : nat) (pf : PdfFile) (sw : State * World) :
  draggedIndex st = Some dragged →
  pdfFiles st !! dragged = Some pf →
  dragged ≠ index →
  index < length (pdfFiles st) →
  let r := handleDragEnter st index sw in
  r.2 = Returned () ∧ r.1.2 = sw.2 ∧
  pdfFiles r.1.1 ≡ₚ pdfFiles st ∧
  length (pdfFiles r.1.1) = length (pdfFiles st) ∧
  pdfFiles r.1.1 !! index = Some pf ∧
  delete index (pdfFiles r.1.1) = delete dragged (pdfFiles st) ∧
  draggedIndex r.1.1 = Some index.
Proof.
  intros Hd Hpf Hne Hidx. unfold handleDragEnter.
  rewrite Hd, decide_False by done. rewrite Hpf. simpl.
  unfold splice_in, splice_out.
  assert (Hlen : length (delete dragged (pdfFiles st))
                 = length (pdfFiles st) - 1).
  { apply length_delete. by eexists. }
  assert (Htake : length (take index (delete dragged (pdfFiles st))) = index).
  { apply length_take_le. lia. }
  assert (Hperm : take index (delete dragged (pdfFiles st)) ++
                    pf :: drop index (delete dragged (pdfFiles st))
                  ≡ₚ pdfFiles st).
  { rewrite <-Permutation_middle, take_drop.
    symmetry. by apply delete_Permutation. }
  split; [done|]. split; [done|]. split; [done|].
  split; [by rewrite Hperm|]. split; [|split; [|done]].
  - rewrite <-Htake at 1. apply list_lookup_middle. done.
  - rewrite <-Htake at 1. by rewrite delete_middle, take_drop.
Qed.

Lemma handleDragEnter_moves_witness :
  let a := mkPdfFile "a" Toy.docA in
  let b := mkPdfFile "b" Toy.docB in
  let c := mkPdfFile "c" Toy.doc5 in
  let st := mkState [a; b; c] false false "documento_mesclado" (Some 0) in
  let r := handleDragEnter st 2 (st, initialWorld) in
  r.2 = Returned () ∧ r.1.2 = initialWorld ∧
  pdfFiles r.1.1 ≡ₚ [a; b; c] ∧
  length (pdfFiles r.1.1) = 3 ∧
  pdfFiles r.1.1 !! 2 = Some a ∧
  delete 2 (pdfFiles r.1.1) = [b; c] ∧
  draggedIndex r.1.1 = Some 2.
Proof.
  apply (handleDragEnter_moves
           (mkState [mkPdfFile "a" Toy.docA; mkPdfFile "b" Toy.docB;
                     mkPdfFile "c" Toy.doc5]
              false false "documento_mesclado" (Some 0))
           initialWorld 0 2 (mkPdfFile "a" Toy.docA));
    [reflexivity|reflexivity|lia|simpl; lia].
Defined.

Lemma removeFile_removes_one_witness :
  let a := mkPdfFile "a" Toy.docA in
  let b := mkPdfFile "b" Toy.docB in
  let st := mkState [a; b] false false "documento_mesclado" None in
  pdfFiles (removeFile "b" (st, initialWorld)).1.1 = [a] ∧
  (∀ id0, id0 ∉ ["a"; "b"] →
          pdfFiles (removeFile id0 (st, initialWorld)).1.1 = [a; b]).
Proof.
  apply (removeFile_removes_one
           (mkState [mkPdfFile "a" Toy.docA; mkPdfFile "b" Toy.docB]
              false false "documento_mesclado" None)
           initialWorld 1 (mkPdfFile "b" Toy.docB)); [|reflexivity].
  apply (bool_decide_unpack _). vm_compute. exact I.
Defined.

Section MergeHandler.
Context `{PdfLib}.

Lemma mergePdfs_unparseable_throws_outcome (files : list File) (bad : File)
    (w : World) :
  bad ∈ files → pdf_load (file_content bad) = None →
  (mergePdfs files w).2 = Thrown ParseError.
Proof.
  intros Hin Hbad. unfold mergePdfs, PDFDocument_create.
  erewrite bind_Returned; last first.
  { erewrite bind_Returned; [|apply emit_run]. reflexivity. }
  by apply bind_outcome_Thrown, (for_of_merge_fail files bad).
Qed.

Lemma stable_mergePdfs_appends (files : list File) :
  stable (appends is_merge_event) (mergePdfs files).
Proof.
  unfold mergePdfs.
  apply stable_bind; [apply _| |intros merged].
  { unfold PDFDocument_create. apply stable_bind; [apply _| |intros _].
    - by apply stable_emit_appends.
    - apply stable_ret, _. }
  apply stable_bind; [apply _| |intros merged'].
  - apply stable_for_of; [apply _|]. intros doc f. cbv zeta.
    apply stable_bind; [apply _| |intros pdf].
    { unfold PDFDocument_load. apply stable_bind; [apply _| |intros _].
      - by apply stable_emit_appends.
      - destruct (pdf_load _); [apply stable_ret|apply stable_throw];
          apply _. }
    apply stable_bind; [apply _| |intros r].
    { unfold copyPages. apply stable_bind; [apply _| |intros _].
      - by apply stable_emit_appends.
      - destruct (mapM _ _); [apply stable_ret|apply stable_throw]; apply _. }
    apply stable_for_of; [apply _|]. intros doc' p. unfold addPage.
    apply stable_bind; [apply _| |intros _].
    + by apply stable_emit_appends.
    + apply stable_ret, _.
  - unfold PDFDocument_save. apply stable_bind; [apply _| |intros _].
    + by apply stable_emit_appends.
    + apply stable_ret, _.
Qed.

(** X22. With fewer than two files in the list the merge cannot be started:
    [openSaveModal] leaves the modal closed and [handleMerge] returns at
    once, without any effect. *)
Theorem merge_needs_two_files (b : Browser) (st : State)
    (sw : State * World) :
  length (pdfFiles st) < 2 →
  openSaveModal st sw = (sw, Returned ()) ∧
  handleMerge b st sw = (sw, Returned ()).
Proof.
  intros Hlen. unfold openSaveModal, handleMerge, handleMerge_acquire, bindS.
  by rewrite !decide_True.
Qed.

(** X23. When the user cancels the picker, the merge ends there: only the
    modal is closed and the picker call recorded; no file is parsed, nothing
    is written or downloaded, and the list of files is kept. *)
Theorem merge_cancel_stops (b : Browser) (st st0 : State) (e : JsError)
    (w : World) :
  2 ≤ length (pdfFiles st) →
  has_showSaveFilePicker b = true →
  showSaveFilePicker_result b = Thrown e →
  err_name e = "AbortError" →
  handleMerge b st (st0, w) =
    ((mkState (pdfFiles st0) (isProcessing st0) false (outputFilename st0)
        (draggedIndex st0),
      mkWorld (app w) (arrays w)
        (events w ++
           [EvShowSaveFilePicker (fullFilename (outputFilename st))])),
     Returned ()).
Proof.
  intros Hlen Hcap Hres Hname.
  unfold handleMerge, handleMerge_acquire.
  rewrite decide_False by lia. unfold supportsFileSystem. rewrite Hcap.
  unfold bindS, try_catchS, liftS, setShowSaveModal, setStateS, retS. simpl.
  rewrite (getSaveFileHandle_cancelled b _ e) by done. simpl.
  by rewrite decide_True.
Qed.


(** X25. When a file of the list does not parse, the merge reports the
    failure once and keeps the list: nothing is written or downloaded, the
    files and the file name stay as they were, and [isProcessing] is
    cleared, whatever destination had been acquired. *)
Theorem merge_failure_keeps_files (st st0 : State) (bad : File)
    (fileHandle : option FileHandle) (w : World) :
  bad ∈ file <$> pdfFiles st →
  pdf_load (file_content bad) = None →
  let r := handleMerge_process st fileHandle (st0, w) in
  r.2 = Returned () ∧
  r.1.1 = mkState (pdfFiles st0) false (showSaveModal st0)
            (outputFilename st0) (draggedIndex st0) ∧
  ∃ Δ, Forall is_merge_event Δ ∧
       events r.1.2 =
         events w ++ Δ ++
           [EvConsoleError "Error merging PDFs";
            EvAlert "Erro ao mesclar os arquivos PDF."].
Proof.
  intros Hin Hbad.
  pose proof (mergePdfs_unparseable_throws_outcome _ bad w Hin Hbad) as Hthrow.
  destruct (stable_mergePdfs_appends (file <$> pdfFiles st) w)
    as (Δ & HΔ & HP).
  unfold handleMerge_process, bindS, try_finallyS, try_catchS, liftS,
    setIsProcessing, setStateS.
  simpl.
  destruct (mergePdfs (file <$> pdfFiles st) w) as [w1 [data|e]];
    simpl in *; [done|].
  split; [done|]. split; [done|]. exists Δ. split; [done|].
  by rewrite HΔ, <-!app_assoc.
Qed.
End MergeHandler.

Lemma merge_needs_two_files_witness :
  openSaveModal (mkState [mkPdfFile "a" Toy.docA] false false "m" None)
      (initialState, initialWorld)
    = ((initialState, initialWorld), Returned ()) ∧
  handleMerge (H := Toy.toyPdfLib) Toy.pickerGranted
      (mkState [mkPdfFile "a" Toy.docA] false false "m" None)
      (initialState, initialWorld)
    = ((initialState, initialWorld), Returned ()).
Proof.
  apply (merge_needs_two_files (H := Toy.toyPdfLib) Toy.pickerGranted
           (mkState [mkPdfFile "a" Toy.docA] false false "m" None)
           (initialState, initialWorld)).
  simpl. lia.
Defined.

Lemma merge_cancel_stops_witness :
  handleMerge (H := Toy.toyPdfLib) Toy.pickerCancelled merging
      (merging, initialWorld) =
    ((mkState (pdfFiles merging) false false "documento_mesclado" None,
      mkWorld initialApp ∅ [EvShowSaveFilePicker "documento_mesclado.pdf"]),
     Returned ()).
Proof.
  apply (merge_cancel_stops (H := Toy.toyPdfLib) Toy.pickerCancelled merging
           merging Toy.AbortError initialWorld);
    [simpl; lia|reflexivity..].
Defined.


Lemma merge_failure_keeps_files_witness :
  let st := mkState [mkPdfFile "a" Toy.docA; mkPdfFile "x" Toy.broken]
              false true "documento_mesclado" None in
  let r := handleMerge_process (H := Toy.toyPdfLib) st None
             (st, initialWorld) in
  r.2 = Returned () ∧
  r.1.1 = mkState [mkPdfFile "a" Toy.docA; mkPdfFile "x" Toy.broken]
            false true "documento_mesclado" None ∧
  ∃ Δ, Forall is_merge_event Δ ∧
       events r.1.2 =
         [] ++ Δ ++
           [EvConsoleError "Error merging PDFs";
            EvAlert "Erro ao mesclar os arquivos PDF."].
Proof.
  apply (merge_failure_keeps_files (H := Toy.toyPdfLib)
           (mkState [mkPdfFile "a" Toy.docA; mkPdfFile "x" Toy.broken]
              false true "documento_mesclado" None)
           (mkState [mkPdfFile "a" Toy.docA; mkPdfFile "x" Toy.broken]
              false true "documento_mesclado" None)
           Toy.broken None initialWorld).
  - apply list_elem_of_further, list_elem_of_here.
  - reflexivity.
Defined.
End MergerFacts.

(** * The converter service *)

Module ConverterFacts.
Import Converter.

Lemma replaceAll_app (c : ascii) (r s t : string) :
  replaceAll c r (s +:+ t) = replaceAll c r s +:+ replaceAll c r t.
Proof.
  induction s as [|a s IH]; [done|]. rewrite string_app_cons. simpl.
  destruct (Ascii.eqb a c).
  - by rewrite IH, string_app_assoc.
  - by rewrite IH, string_app_cons.
Qed.

Lemma replaceAll_substitute (c : ascii) (r : string) (f : ascii → string)
    (s : string) :
  replaceAll c r (substitute f s) = substitute (λ a, replaceAll c r (f a)) s.
Proof.
  induction s as [|a s IH]; [done|]. simpl.
  by rewrite replaceAll_app, IH.
Qed.

Lemma replaceAll_as_substitute (c : ascii) (r s : string) :
  replaceAll c r s
  = substitute (λ a, if Ascii.eqb a c then r else String a EmptyString) s.
Proof.
  induction s as [|a s IH]; [done|]. simpl.
  destruct (Ascii.eqb a c); by rewrite IH.
Qed.

Lemma substitute_ext (f g : ascii → string) (s : string) :
  (∀ a, f a = g a) → substitute f s = substitute g s.
Proof.
  intros Hfg. induction s as [|a s IH]; [done|]. simpl.
  by rewrite Hfg, IH.
Qed.

Lemma chars_app (s t : string) :
  String.list_ascii_of_string (s +:+ t)
  = String.list_ascii_of_string s ++ String.list_ascii_of_string t.
Proof.
  induction s as [|a s IH]; [done|]. rewrite string_app_cons. simpl.
  by rewrite IH.
Qed.

Lemma chars_inj (s t : string) :
  String.list_ascii_of_string s = String.list_ascii_of_string t → s = t.
Proof.
  revert t. induction s as [|a s IH]; intros [|b t]; simpl; try done.
  intros [= -> Hst]. f_equal. by apply IH.
Qed.

Lemma chars_concat (l : list string) :
  String.list_ascii_of_string (String.concat "" l)
  = concat (String.list_ascii_of_string <$> l).
Proof.
  induction l as [|x l IH]; [done|]. simpl.
  destruct l as [|y l].
  - simpl. by rewrite app_nil_r.
  - rewrite !chars_app, IH. done.
Qed.

Lemma chars_substitute (f : ascii → string) (s : string) :
  String.list_ascii_of_string (substitute f s)
  = String.list_ascii_of_string s
      ≫= (λ a, String.list_ascii_of_string (f a)).
Proof.
  induction s as [|a s IH]; [done|]. simpl. by rewrite chars_app, IH.
Qed.

(** The characters an entity is written with. *)
Lemma entity_cases (a : ascii) :
  (a = "&"%char ∧
   String.list_ascii_of_string (entity a)
   = String.list_ascii_of_string "&amp;") ∨
  (a = "<"%char ∧
   String.list_ascii_of_string (entity a)
   = String.list_ascii_of_string "&lt;") ∨
  (a = ">"%char ∧
   String.list_ascii_of_string (entity a)
   = String.list_ascii_of_string "&gt;") ∨
  (a = dquote ∧
   String.list_ascii_of_string (entity a)
   = String.list_ascii_of_string "&quot;") ∨
  (a = "'"%char ∧
   String.list_ascii_of_string (entity a)
   = String.list_ascii_of_string "&apos;") ∨
  (a ≠ "&"%char ∧ String.list_ascii_of_string (entity a) = [a]).
Proof.
  unfold entity.
  destruct (Ascii.eqb_spec a "&"); [by left|]. right.
  destruct (Ascii.eqb_spec a "<"); [by left|]. right.
  destruct (Ascii.eqb_spec a ">"); [by left|]. right.
  destruct (Ascii.eqb_spec a dquote); [by left|]. right.
  destruct (Ascii.eqb_spec a "'"); [by left|]. right. done.
Qed.

Ltac entity_of a Ha :=
  destruct (entity_cases a)
    as [[Ha ->]|[[Ha ->]|[[Ha ->]|[[Ha ->]|[[Ha ->]|[Ha ->]]]]]].

(** The substitution of the entities loses nothing: the line can be read
    back from the escaped line. *)
Lemma substitute_entity_inj (s t : string) :
  substitute entity s = substitute entity t → s = t.
Proof.
  intros Heq. apply chars_inj.
  apply (f_equal String.list_ascii_of_string) in Heq.
  rewrite !chars_substitute in Heq. revert Heq.
  generalize (String.list_ascii_of_string s)
             (String.list_ascii_of_string t).
  clear s t.
  induction l as [|a l IH]; intros [|b l']; simpl.
  - done.
  - entity_of b Hb; done.
  - entity_of a Ha; done.
  - entity_of a Ha; entity_of b Hb; try subst a; try subst b;
      simpl; intros Heq; try discriminate Heq;
      try (injection Heq as Heq; f_equal; by apply IH);
      try (injection Heq as <- Heq; done);
      try (injection Heq as -> Heq; done).
    injection Heq as -> Heq. f_equal. by apply IH.
Qed.

(** Two texts that agree up to the first occurrence of a character that
    neither prefix contains have the same prefix and the same remainder. *)
Lemma app_pivot_inj {A} (x : A) (e e' r r' : list A) :
  x ∉ e → x ∉ e' → e ++ x :: r = e' ++ x :: r' → e = e' ∧ r = r'.
Proof.
  revert e'. induction e as [|a e IH]; intros [|b e'] He He'; simpl.
  - by intros [= ->].
  - intros [= <- _]. destruct He'. apply list_elem_of_here.
  - intros [= -> _]. destruct He. apply list_elem_of_here.
  - intros [= -> Heq].
    destruct (IH e') as [-> ->]; [| |done..].
    + intros Hin. apply He. by apply list_elem_of_further.
    + intros Hin. apply He'. by apply list_elem_of_further.
Qed.

(** A sequence of paragraphs is read back in one way only. *)
Lemma paragraphs_inj (open_ close_ : list ascii)
    (es es' : list (list ascii)) :
  open_ ≠ [] →
  Forall (λ e, "<"%char ∉ e) es → Forall (λ e, "<"%char ∉ e) es' →
  concat ((λ e, open_ ++ e ++ "<"%char :: close_) <$> es)
  = concat ((λ e, open_ ++ e ++ "<"%char :: close_) <$> es') →
  es = es'.
Proof.
  intros Hopen Hes. revert es'.
  induction Hes as [|e es He Hes IH]; intros [|e' es'] Hes'; simpl.
  - done.
  - destruct open_; [done|]. done.
  - destruct open_; [done|]. done.
  - apply Forall_cons in Hes' as [He' Hes'].
    rewrite <-!(assoc_L (++)). intros Heq%app_inv_head.
    rewrite <-!app_comm_cons in Heq.
    apply app_pivot_inj in Heq as [-> Heq%app_inv_head]; [|done..].
    f_equal. by apply IH.
Qed.

Lemma entity_markup_free (a c : ascii) :
  c ∈ String.list_ascii_of_string (entity a) → ¬ is_markup c.
Proof.
  unfold entity.
  destruct (Ascii.eqb_spec a "&"); [|
  destruct (Ascii.eqb_spec a "<"); [|
  destruct (Ascii.eqb_spec a ">"); [|
  destruct (Ascii.eqb_spec a dquote); [|
  destruct (Ascii.eqb_spec a "'")]]]]; simpl; intros Hin.
  1-5: repeat (apply elem_of_cons in Hin as [->|Hin];
               [by intros [?|[?|[?|?]]]|]);
       by apply elem_of_nil in Hin.
  apply elem_of_cons in Hin as [->|Hin]; [|by apply elem_of_nil in Hin].
  by intros [?|[?|[?|?]]].
Qed.

Lemma escapeLine_as_substitute (s : string) :
  escapeLine s = substitute entity s.
Proof.
  unfold escapeLine.
  rewrite (replaceAll_as_substitute "&"), !replaceAll_substitute.
  apply substitute_ext. intros a. unfold entity.
  destruct (Ascii.eqb a "&") eqn:E1; [by apply Ascii.eqb_eq in E1 as ->|].
  simpl.
  destruct (Ascii.eqb a "<") eqn:E2; [by apply Ascii.eqb_eq in E2 as ->|].
  simpl.
  destruct (Ascii.eqb a ">") eqn:E3; [by apply Ascii.eqb_eq in E3 as ->|].
  simpl.
  destruct (Ascii.eqb a dquote) eqn:E4;
    [by apply Ascii.eqb_eq in E4 as ->|].
  simpl.
  destruct (Ascii.eqb a "'") eqn:E5; [by apply Ascii.eqb_eq in E5 as ->|].
  done.
Qed.

Lemma substitute_entity_markup_free (line : string) (c : ascii) :
  c ∈ String.list_ascii_of_string (substitute entity line) → ¬ is_markup c.
Proof.
  induction line as [|a line IH]; simpl.
  - intros Hc. by apply elem_of_nil in Hc.
  - rewrite chars_app, elem_of_app.
    intros [Hc|Hc]; [by eapply entity_markup_free|by apply IH].
Qed.

(** X26. The five successive replacements of [createMinimalDocx] amount to
    one substitution of the characters of the line: every [&], [<], [>],
    double quote and apostrophe becomes its entity, no [&] written by an
    earlier replacement is escaped a second time, and every other character
    stays in place; so the text put between the tags contains none of [<],
    [>], the double quote and the apostrophe. *)
Theorem escapeLine_substitutes (line : string) :
  escapeLine line = substitute entity line ∧
  (∀ c, c ∈ String.list_ascii_of_string (escapeLine line) → ¬ is_markup c) ∧
  (∀ s t, escapeLine (s +:+ t) = escapeLine s +:+ escapeLine t).
Proof.
  split; [apply escapeLine_as_substitute|]. split.
  - rewrite escapeLine_as_substitute. intros c.
    apply substitute_entity_markup_free.
  - intros s t. unfold escapeLine. by rewrite !replaceAll_app.
Qed.

(** The split at a separator undoes a join with that separator. *)
Lemma split_cons_nonempty (sep : ascii) (s : string) : split sep s ≠ [].
Proof.
  induction s as [|a s IH]; simpl; [done|].
  destruct (Ascii.eqb a sep); [done|]. by destruct (split sep s).
Qed.

Lemma split_spec (sep : ascii) (text : string) :
  length (split sep text) =
    S (length (filter (λ a, a = sep) (String.list_ascii_of_string text))) ∧
  Forall (λ line, sep ∉ String.list_ascii_of_string line) (split sep text) ∧
  String.concat (String sep EmptyString) (split sep text) = text.
Proof.
  induction text as [|a text (IHlen & IHfree & IHjoin)]; simpl.
  { split; [done|]. split; [|done]. constructor; [|done].
    by intros Hin%elem_of_nil. }
  pose proof (split_cons_nonempty sep text) as Hne.
  rewrite filter_cons.
  destruct (Ascii.eqb_spec a sep) as [Ha|Hna].
  - subst a. rewrite decide_True by done. simpl. split; [by rewrite IHlen|].
    split; [constructor; [by intros Hin%elem_of_nil|done]|].
    destruct (split sep text) as [|l ls] eqn:Hs; [done|].
    by rewrite IHjoin.
  - rewrite decide_False by done.
    destruct (split sep text) as [|l ls] eqn:Hs; [done|]. simpl.
    split; [done|]. apply Forall_cons in IHfree as [Hl Hls]. split.
    + constructor; [|done]. simpl. intros [->|?]%elem_of_cons; done.
    + simpl in IHjoin. destruct ls; simpl in *; by rewrite <-IHjoin.
Qed.

Lemma paragraph_chars (line : string) :
  String.list_ascii_of_string (paragraph line)
  = String.list_ascii_of_string "<w:p><w:r><w:t>" ++
    String.list_ascii_of_string (substitute entity line) ++
    "<"%char :: String.list_ascii_of_string "/w:t></w:r></w:p>".
Proof. unfold paragraph. by rewrite escapeLine_as_substitute, !chars_app. Qed.

Lemma paragraphs_chars (lines : list string) :
  String.list_ascii_of_string (String.concat "" (paragraph <$> lines))
  = concat
      ((λ e, String.list_ascii_of_string "<w:p><w:r><w:t>" ++ e ++
             "<"%char :: String.list_ascii_of_string "/w:t></w:r></w:p>")
         <$> ((λ line, String.list_ascii_of_string (substitute entity line))
                <$> lines)).
Proof.
  rewrite chars_concat. induction lines as [|l lines IH]; [done|].
  rewrite !fmap_cons. cbn [concat]. by rewrite IH, paragraph_chars.
Qed.

Lemma escaped_lines_inj (lines lines' : list string) :
  (λ line, String.list_ascii_of_string (substitute entity line)) <$> lines
  = (λ line, String.list_ascii_of_string (substitute entity line))
      <$> lines' →
  lines = lines'.
Proof.
  revert lines'. induction lines as [|l lines IH]; intros [|l' lines'];
    simpl; try done.
  intros [= Hl Hrest]. f_equal; [|by apply IH].
  by apply substitute_entity_inj, chars_inj.
Qed.

(** The document determines the text. *)
Lemma createMinimalDocx_inj (text text' : string) :
  createMinimalDocx text' = createMinimalDocx text → text' = text.
Proof.
  intros Heq. apply (f_equal String.list_ascii_of_string) in Heq.
  unfold createMinimalDocx in Heq. rewrite !chars_app in Heq.
  apply app_inv_head, app_inv_tail in Heq.
  rewrite !paragraphs_chars in Heq.
  apply paragraphs_inj, escaped_lines_inj in Heq.
  - destruct (split_spec newline text) as (_ & _ & <-).
    destruct (split_spec newline text') as (_ & _ & <-).
    by rewrite Heq.
  - done.
  - apply Forall_fmap, Forall_forall. intros l _ Hin.
    apply (substitute_entity_markup_free l "<" Hin). by left.
  - apply Forall_fmap, Forall_forall. intros l _ Hin.
    apply (substitute_entity_markup_free l "<" Hin). by left.
Qed.

(** X27. [createMinimalDocx] writes one paragraph per line of the text, in
    order, between a fixed header and footer; each paragraph holds its line
    between the tags, with the five characters replaced by their entities.
    A text with [n] line breaks gives [n + 1] paragraphs (the empty text one
    empty paragraph), the lines joined by line breaks are the text again,
    and the document determines the text: two texts with the same document
    are the same. *)
Theorem createMinimalDocx_paragraphs (text : string) :
  createMinimalDocx text =
    docxHeader +:+
    String.concat ""
      ((λ line, "<w:p><w:r><w:t>" +:+ substitute entity line +:+
                "</w:t></w:r></w:p>") <$> split newline text)
    +:+ docxFooter ∧
  length (split newline text) =
    S (length (filter (λ a, a = newline)
                 (String.list_ascii_of_string text))) ∧
  String.concat (String newline EmptyString) (split newline text) = text ∧
  (∀ text', createMinimalDocx text' = createMinimalDocx text → text' = text).
Proof.
  destruct (split_spec newline text) as (Hlen & _ & Hjoin).
  split; [|split; [done|split; [done|]]].
  - unfold createMinimalDocx. cbv zeta. do 3 f_equal. clear.
    induction (split newline text) as [|l ls IH]; [done|].
    rewrite !fmap_cons, IH. unfold paragraph.
    by rewrite escapeLine_as_substitute.
  - intros text'. apply createMinimalDocx_inj.
Qed.
End ConverterFacts.

Example escapeLine_sample :
  Converter.escapeLine "a<b & 'c'" = "a&lt;b &amp; &apos;c&apos;".
Proof. reflexivity. Qed.
